(** * Garden layout optimiser: compatibility index, spacing, plant selector,
      fitness evaluator and genetic algorithm.

    Shallow embedding of the TypeScript sources.  JavaScript numbers are
    idealised as real numbers: there is no rounding, no NaN and no infinity,
    so the development speaks about the arithmetic the code is written to
    perform.  [Math.floor] is [Zfloor], array indices are integers, the
    [Map<string, Map<string, number>>] compatibility matrix is a finite map of
    finite maps, exceptions are the left injection of a sum. *)

From Stdlib Require Import Reals Lra Lia ZArith.
From stdpp Require Import base option list sorting gmap strings.

Local Open Scope R_scope.

(** ** Numbers *)

Module Num.

Definition ltb (a b : R) : bool := if Rlt_dec a b then true else false.
Definition leb (a b : R) : bool := if Rle_dec a b then true else false.
Definition gtb (a b : R) : bool := ltb b a.
Definition geb (a b : R) : bool := leb b a.
Definition eqb (a b : R) : bool := if Req_dec_T a b then true else false.

(** [Math.max(a, b)], [Math.min(a, b)] are [Rmax], [Rmin]. *)

(** [Math.log2]. *)
Definition log2 (x : R) : R := ln x / ln 2.

End Num.

Infix "<?" := Num.ltb (at level 70) : R_scope.
Infix "<=?" := Num.leb (at level 70) : R_scope.
Infix ">?" := Num.gtb (at level 70) : R_scope.
Infix ">=?" := Num.geb (at level 70) : R_scope.
Infix "=?" := Num.eqb (at level 70) : R_scope.

(** ** Compatibility matrix: [Map<string, Map<string, number>>] *)

Abbreviation Matrix := (gmap string (gmap string R)).

(** [matrix.get(a)?.get(b)] *)
Definition matrix_get (m : Matrix) (a b : string) : option R :=
  m !! a ≫= (λ row, row !! b).

(** ** Exceptions *)

Inductive Error : Type :=
| Thrown (message : string)   (* [throw new Error(message)] *)
| TypeError.                  (* a property read on [undefined] *)

Definition Result (A : Type) : Type := (Error + A)%type.

Definition ok {A} (a : A) : Result A := inr a.
Definition throw {A} (message : string) : Result A := inl (Thrown message).

Definition bindR {A B} (r : Result A) (k : A → Result B) : Result B :=
  match r with
  | inl e => inl e
  | inr a => k a
  end.

#[global] Instance Result_ret : MRet Result := @ok.
#[global] Instance Result_bind : MBind Result := λ A B k r, bindR r k.

(** ** Domain entities and value objects *)

Record Plant : Type := mkPlant {
  id : Z;
  species : string;
  scientificName : string;
  type : list string;
  weeklyWatering : R;
  harvestDays : R;
  soilType : string;
  waterPerKg : R;
  size : R
}.

Definition hasType (p : Plant) (t : string) : bool := bool_decide (t ∈ type p).

(** [Plant.estimatedCost] *)
Definition estimatedCost (p : Plant) : R := size p * 50.

Record Position : Type := mkPosition { x : R; y : R }.

(** [new Position(x, y)] *)
Definition newPosition (px py : R) : Result Position :=
  if (px <? 0) || (py <? 0) then throw "Position coordinates must be non-negative"
  else ok (mkPosition px py).

(** [Position.distanceTo] *)
Definition distanceTo (a b : Position) : R :=
  sqrt ((x a - x b) ^ 2 + (y a - y b) ^ 2).

Record Dimensions : Type := mkDimensions { width : R; height : R }.

(** [new Dimensions(width, height)] *)
Definition newDimensions (w h : R) : Result Dimensions :=
  if (w <=? 0) || (h <=? 0) then throw "Dimensions must be positive"
  else ok (mkDimensions w h).

Definition totalArea (d : Dimensions) : R := width d * height d.

Inductive Status : Type := pending | planted | growing | harvest_ready | harvested.

Record PlantInstance : Type := mkPlantInstance {
  plant : Plant;
  position : Position;
  pi_width : R;
  pi_height : R;
  rotation : Z;
  status : Status
}.

(** [new PlantInstance({plant, position, width?, height?, rotation?})] *)
Definition newPlantInstance (p : Plant) (pos : Position)
    (w h : option R) (rot : option Z) : Result PlantInstance :=
  let calculatedDimension := sqrt (size p) in
  let r := default 0%Z rot in
  if bool_decide (r ∈ [0; 90; 180; 270]%Z)
  then ok (mkPlantInstance p pos (default calculatedDimension w)
             (default calculatedDimension h) r pending)
  else throw "Rotation must be 0, 90, 180, or 270 degrees".

Module Instance.

Definition totalArea (i : PlantInstance) : R := pi_width i * pi_height i.
Definition totalWeeklyWater (i : PlantInstance) : R := weeklyWatering (plant i).
Definition totalCost (i : PlantInstance) : R := estimatedCost (plant i).

(** [PlantInstance.overlaps] *)
Definition overlaps (a b : PlantInstance) : bool :=
  negb ((x (position a) + pi_width a <=? x (position b))
        || (x (position b) + pi_width b <=? x (position a))
        || (y (position a) + pi_height a <=? y (position b))
        || (y (position b) + pi_height b <=? y (position a))).

(** [PlantInstance.distanceTo] *)
Definition distanceTo (a b : PlantInstance) : R :=
  distanceTo (position a) (position b).

End Instance.

Record CategoryDistribution : Type := mkCategoryDistribution {
  vegetable : R;
  medicinal : R;
  ornamental : R;
  aromatic : R
}.

(** [CategoryDistributionData]: every field optional. *)
Record CategoryDistributionData : Type := mkCategoryDistributionData {
  d_vegetable : option R;
  d_medicinal : option R;
  d_ornamental : option R;
  d_aromatic : option R
}.

(** The default argument [{}] of the constructor. *)
Definition emptyData : CategoryDistributionData :=
  mkCategoryDistributionData None None None None.

(** [new CategoryDistribution(data)] *)
Definition newCategoryDistribution (data : CategoryDistributionData)
  : Result CategoryDistribution :=
  let v := default 0 (d_vegetable data) in
  let m := default 0 (d_medicinal data) in
  let o := default 0 (d_ornamental data) in
  let a := default 0 (d_aromatic data) in
  let total := v + m + o + a in
  if Rabs (total - 100) >? 0.01
  then throw "Category distribution must sum to 100"
  else ok (mkCategoryDistribution v m o a).

(** Weight row of [OBJECTIVE_WEIGHTS]. *)
Record Weights : Type := mkWeights {
  wCEE : R; wPSRNT : R; wEH : R; wUE : R; wCS : R; wBSN : R
}.

Record MetricsData : Type := mkMetricsData {
  dCEE : R; dPSRNT : R; dEH : R; dUE : R
}.

Record Metrics : Type := mkMetrics {
  CEE : R; PSRNT : R; EH : R; UE : R; fitness : R
}.

Module MetricsM.

(** [Metrics.validateMetric] *)
Definition validateMetric (value : R) (name : string) : Result R :=
  if (value <? 0) || (value >? 1)
  then throw (name +:+ " must be between 0 and 1")
  else ok value.

(** [Metrics.calculateFitness]: reads the four stored metrics. *)
Definition calculateFitness (cee psrnt eh ue : R) (w : Weights) : R :=
  wCEE w * cee + wPSRNT w * psrnt + wEH w * eh + wUE w * ue.

(** [new Metrics(data, weights)] *)
Definition new (data : MetricsData) (w : Weights) : Result Metrics :=
  cee ← validateMetric (dCEE data) "CEE";
  psrnt ← validateMetric (dPSRNT data) "PSRNT";
  eh ← validateMetric (dEH data) "EH";
  ue ← validateMetric (dUE data) "UE";
  ok (mkMetrics cee psrnt eh ue (calculateFitness cee psrnt eh ue w)).

End MetricsM.

Record Individual : Type := mkIndividual {
  dimensions : Dimensions;
  genome : list (list (option Z));
  plants : list PlantInstance;
  metrics : option Metrics
}.

Definition sumR (l : list R) : R := foldl Rplus 0 l.

Module Ind.

(** [new Individual(dimensions, genome, plants)]: [metrics] starts undefined. *)
Definition new (d : Dimensions) (g : list (list (option Z)))
    (ps : list PlantInstance) : Individual := mkIndividual d g ps None.

(** [get fitness()]: [this.metrics?.fitness ?? 0] *)
Definition fitness (i : Individual) : R :=
  match metrics i with Some m => fitness m | None => 0 end.

Definition totalPlants (i : Individual) : nat := length (plants i).
Definition usedArea (i : Individual) : R := sumR (Instance.totalArea <$> plants i).
Definition totalWeeklyWater (i : Individual) : R :=
  sumR (Instance.totalWeeklyWater <$> plants i).
Definition totalCost (i : Individual) : R := sumR (Instance.totalCost <$> plants i).

(** [clone()]: fresh genome and plant arrays, same metrics object. *)
Definition clone (i : Individual) : Individual :=
  mkIndividual (dimensions i) (genome i) (plants i) (metrics i).

(** [ind.metrics = m] *)
Definition setMetrics (i : Individual) (m : Metrics) : Individual :=
  mkIndividual (dimensions i) (genome i) (plants i) (Some m).

(** [individual.plants] replaced by the array after an in-place update. *)
Definition setPlants (i : Individual) (ps : list PlantInstance) : Individual :=
  mkIndividual (dimensions i) (genome i) ps (metrics i).

End Ind.

(** ** Spacing policy *)

Module PlantSpacingService.
Section WithMatrix.
Variable compatibilityMatrix : Matrix.

Definition getCompatibilityScore (species1 species2 : string) : R :=
  match compatibilityMatrix !! species1 with
  | None => 0
  | Some species1Map => default 0 (species1Map !! species2)
  end.

Definition calculateMinimumDistance (plant1 plant2 : Plant) : R :=
  let compatibilityScore := getCompatibilityScore (species plant1) (species plant2) in
  let baseDistance :=
    if compatibilityScore <? -0.5 then 2.5
    else if compatibilityScore >? 0.5 then 1.0
    else 1.5 in
  let radius1 := sqrt (size plant1) / 2 in
  let radius2 := sqrt (size plant2) / 2 in
  baseDistance + radius1 + radius2.

Definition canBeAdjacent (plant1 plant2 : Plant) (actualDistance : R) : bool :=
  let minimumDistance := calculateMinimumDistance plant1 plant2 in
  actualDistance >=? minimumDistance.

Definition calculateProximityPenalty (plant1 plant2 : Plant) (actualDistance : R) : R :=
  let minimumDistance := calculateMinimumDistance plant1 plant2 in
  if actualDistance >=? minimumDistance then 0
  else
    let ratio := actualDistance / minimumDistance in
    (1 - ratio) ^ 2.

End WithMatrix.
End PlantSpacingService.

(** ** Validator: its compatibility lookup *)

Module ValidationService.

Definition getCompatibilityScore (compatibilityMatrix : Matrix)
    (species1 species2 : string) : R :=
  match matrix_get compatibilityMatrix species1 species2 with
  | Some score1 => score1
  | None =>
      match matrix_get compatibilityMatrix species2 species1 with
      | Some score2 => score2
      | None => 0
      end
  end.

(** Error messages of the validator, kept as the values their text is
    built from. *)
Inductive ValidationError : Type :=
| PlantNotInDatabase (plantId : Z)
| AreaExceeded (usedArea maxArea : R)
| UsageExceeded (usedArea plotArea : R)
| MaintenanceExceeded (estimatedMaintenance availableTime : R)
| CostExceeded (totalCost maxBudget : R)
| CriticalIncompatibility (species1 species2 : string) (score : R).

(** The result [{ isValid, errors }] of one of the five checks. *)
Record Check : Type := mkCheck { c_isValid : bool; c_errors : list ValidationError }.

(** [{ isValid: errors.length === 0, errors }] *)
Definition checked (errors : list ValidationError) : Check :=
  mkCheck (bool_decide (length errors = 0%nat)) errors.

Record ValidationResult : Type := mkValidationResult {
  isValid : bool;
  passed : list string;
  failed : list string;
  errors : list ValidationError
}.

Record ValidationConstraints : Type := mkValidationConstraints {
  v_maxArea : R;
  v_maxWaterWeekly : R;
  v_maxBudget : option R;
  userExperience : Z;
  availableMaintenanceMinutes : option R
}.

(** [validateBotanical]; [dbPlants] is [this.plants]. *)
Definition validateBotanical (dbPlants : list Plant) (individual : Individual) : Check :=
  checked
    (foldl (λ errors plantInstance,
              let plantId := id (plant plantInstance) in
              let exists_ := existsb (λ p, bool_decide (id p = plantId)) dbPlants in
              if negb exists_ then errors ++ [PlantNotInDatabase plantId] else errors)
       [] (plants individual)).

(** [usedArea / totalArea > 0.85]; a division by zero gives [Infinity] for a
    positive dividend and [NaN] or [-Infinity] otherwise. *)
Definition usageExceeds (usedArea totalArea : R) : bool :=
  if totalArea =? 0 then usedArea >? 0 else usedArea / totalArea >? 0.85.

Definition validatePhysical (individual : Individual)
    (constraints : ValidationConstraints) : Check :=
  let errors := [] in
  let errors :=
    if Ind.usedArea individual >? v_maxArea constraints
    then errors ++ [AreaExceeded (Ind.usedArea individual) (v_maxArea constraints)]
    else errors in
  let errors :=
    if usageExceeds (Ind.usedArea individual) (totalArea (dimensions individual))
    then errors ++ [UsageExceeded (Ind.usedArea individual)
                      (totalArea (dimensions individual))]
    else errors in
  checked errors.

(** [defaultMaintenanceTime[userExperience]]: [undefined] outside 1, 2, 3. *)
Definition defaultMaintenanceTime (userExperience : Z) : option R :=
  if bool_decide (userExperience = 1%Z) then Some 60
  else if bool_decide (userExperience = 2%Z) then Some 120
  else if bool_decide (userExperience = 3%Z) then Some 180
  else None.

Definition validateTechnical (individual : Individual)
    (constraints : ValidationConstraints) : Check :=
  let maintenancePerPlant := 15 in
  let estimatedMaintenance := INR (Ind.totalPlants individual) * maintenancePerPlant in
  let availableTime :=
    match availableMaintenanceMinutes constraints with
    | Some minutes => Some minutes
    | None => defaultMaintenanceTime (userExperience constraints)
    end in
  match availableTime with
  | Some available =>
      if estimatedMaintenance >? available
      then checked [MaintenanceExceeded estimatedMaintenance available]
      else checked []
  | None => checked []
  end.

Definition validateEconomic (individual : Individual)
    (constraints : ValidationConstraints) : Check :=
  match v_maxBudget constraints with
  | None => mkCheck true []
  | Some maxBudget =>
      if maxBudget =? 0 then mkCheck true []
      else
        let totalCost := Ind.totalCost individual in
        if totalCost >? maxBudget
        then checked [CostExceeded totalCost maxBudget]
        else checked []
  end.

(** Body of the inner loop of [validateAgricultural]. *)
Definition agriculturalStep (compatibilityMatrix : Matrix) (plant1 : PlantInstance)
    (errors : list ValidationError) (plant2 : PlantInstance) : list ValidationError :=
  let distance := distanceTo (position plant1) (position plant2) in
  if distance <? 1.0 then
    let compatibility :=
      getCompatibilityScore compatibilityMatrix (species (plant plant1))
        (species (plant plant2)) in
    if compatibility <? -0.5
    then errors ++ [CriticalIncompatibility (species (plant plant1))
                      (species (plant plant2)) compatibility]
    else errors
  else errors.

(** The double loop [for i … for j = i + 1 …]. *)
Fixpoint agriculturalLoop (compatibilityMatrix : Matrix) (ps : list PlantInstance)
    (errors : list ValidationError) : list ValidationError :=
  match ps with
  | [] => errors
  | plant1 :: rest =>
      agriculturalLoop compatibilityMatrix rest
        (foldl (agriculturalStep compatibilityMatrix plant1) errors rest)
  end.

Definition validateAgricultural (compatibilityMatrix : Matrix)
    (individual : Individual) : Check :=
  checked (agriculturalLoop compatibilityMatrix (plants individual) []).

(** One of the five blocks of [validate]. *)
Definition record (name : string) (check : Check) (result : ValidationResult)
  : ValidationResult :=
  if c_isValid check
  then mkValidationResult (isValid result) (passed result ++ [name]) (failed result)
         (errors result)
  else mkValidationResult false (passed result) (failed result ++ [name])
         (errors result ++ c_errors check).

Definition validate (dbPlants : list Plant) (compatibilityMatrix : Matrix)
    (individual : Individual) (constraints : ValidationConstraints)
  : ValidationResult :=
  let result := mkValidationResult true [] [] [] in
  let result := record "BOTÁNICA" (validateBotanical dbPlants individual) result in
  let result := record "FÍSICA" (validatePhysical individual constraints) result in
  let result := record "TÉCNICA" (validateTechnical individual constraints) result in
  let result := record "ECONÓMICA" (validateEconomic individual constraints) result in
  let result :=
    record "AGRÍCOLA" (validateAgricultural compatibilityMatrix individual) result in
  result.


End ValidationService.

(** ** Fitness evaluator *)

Module Objective.
Inductive t : Type := alimenticio | medicinal | sostenible | ornamental.
End Objective.

Definition OBJECTIVE_WEIGHTS (o : Objective.t) : Weights :=
  match o with
  | Objective.alimenticio => mkWeights 0.15 0.40 0.15 0.10 0.10 0.10
  | Objective.medicinal => mkWeights 0.20 0.35 0.10 0.10 0.10 0.15
  | Objective.sostenible => mkWeights 0.20 0.15 0.30 0.10 0.10 0.15
  | Objective.ornamental => mkWeights 0.15 0.30 0.10 0.20 0.10 0.15
  end.

Record FitnessConfig : Type := mkFitnessConfig {
  compatibilityMatrix : Matrix;
  objective : Objective.t;
  desiredCategoryDistribution : option CategoryDistribution;
  maxWaterWeekly : R
}.

(** The [counts] object of [calculateCategoryDistribution]; its keys in
    insertion order are vegetable, medicinal, aromatic, ornamental. *)
Record Counts : Type := mkCounts {
  n_vegetable : R; n_medicinal : R; n_aromatic : R; n_ornamental : R
}.

Module FitnessCalculator.
Section WithConfig.
Variable config : FitnessConfig.

Definition getCompatibilityScore (species1 species2 : string) : R :=
  match matrix_get (compatibilityMatrix config) species1 species2 with
  | Some score1 => score1
  | None =>
      match matrix_get (compatibilityMatrix config) species2 species1 with
      | Some score2 => score2
      | None => 0
      end
  end.

(** One iteration of the inner loop of [calculateCEE]. *)
Definition ceeStep (plant1 : PlantInstance) (acc : R * R) (plant2 : PlantInstance)
  : R * R :=
  let '(totalScore, totalWeight) := acc in
  let distance := distanceTo (position plant1) (position plant2) in
  let weight := exp (- distance / 2) in
  let compatibility :=
    getCompatibilityScore (species (plant plant1)) (species (plant plant2)) in
  let totalScore' :=
    if (compatibility <? -0.5) && (distance <? 1.5)
    then totalScore + compatibility * weight * 2
    else if (compatibility >? 0.5) && (distance <? 1.0)
    then totalScore + compatibility * weight * 1.5
    else totalScore + compatibility * weight in
  (totalScore', totalWeight + weight).

(** The double loop [for i … for j = i + 1 …]. *)
Fixpoint ceeLoop (ps : list PlantInstance) (acc : R * R) : R * R :=
  match ps with
  | [] => acc
  | plant1 :: rest => ceeLoop rest (foldl (ceeStep plant1) acc rest)
  end.

Definition calculateCEE (individual : Individual) : R :=
  if bool_decide (length (plants individual) < 2)%nat then 1.0
  else
    let '(totalScore, totalWeight) := ceeLoop (plants individual) (0, 0) in
    if totalWeight =? 0 then 1.0
    else
      let averageScore := totalScore / totalWeight in
      Rmax 0 (Rmin 1 ((averageScore + 1) / 2)).

(** [if (type in counts) counts[type] += 1] for the four category keys. *)
Definition countType (c : Counts) (t : string) : Counts :=
  if bool_decide (t = "vegetable")
  then mkCounts (n_vegetable c + 1) (n_medicinal c) (n_aromatic c) (n_ornamental c)
  else if bool_decide (t = "medicinal")
  then mkCounts (n_vegetable c) (n_medicinal c + 1) (n_aromatic c) (n_ornamental c)
  else if bool_decide (t = "aromatic")
  then mkCounts (n_vegetable c) (n_medicinal c) (n_aromatic c + 1) (n_ornamental c)
  else if bool_decide (t = "ornamental")
  then mkCounts (n_vegetable c) (n_medicinal c) (n_aromatic c) (n_ornamental c + 1)
  else c.

Definition countInstance (c : Counts) (plantInstance : PlantInstance) : Counts :=
  foldl countType c (type (plant plantInstance)).

Definition calculateCategoryDistribution (individual : Individual)
  : Result CategoryDistribution :=
  let counts := foldl countInstance (mkCounts 0 0 0 0) (plants individual) in
  let total :=
    sumR [n_vegetable counts; n_medicinal counts; n_aromatic counts; n_ornamental counts] in
  if total =? 0
  then newCategoryDistribution
         (mkCategoryDistributionData (Some 25) (Some 25) (Some 25) (Some 25))
  else newCategoryDistribution
         (mkCategoryDistributionData
            (Some (n_vegetable counts / total * 100))
            (Some (n_medicinal counts / total * 100))
            (Some (n_ornamental counts / total * 100))
            (Some (n_aromatic counts / total * 100))).

Definition entropyStep (sum v : R) : R :=
  let p := v / 100 in sum - p * Num.log2 p.

Definition calculateDiversityBonus (individual : Individual) : Result R :=
  dist ← calculateCategoryDistribution individual;
  let values := [vegetable dist; medicinal dist; aromatic dist; ornamental dist] in
  let entropy := foldl entropyStep 0 (List.filter (λ v, v >? 0) values) in
  let maxEntropy := Num.log2 4 in
  ok (entropy / maxEntropy).

Definition calculatePSRNT (individual : Individual) : Result R :=
  match desiredCategoryDistribution config with
  | None => calculateDiversityBonus individual
  | Some desired =>
      actual ← calculateCategoryDistribution individual;
      let errors :=
        [ (vegetable actual - vegetable desired) ^ 2;
          (medicinal actual - medicinal desired) ^ 2;
          (aromatic actual - aromatic desired) ^ 2;
          (ornamental actual - ornamental desired) ^ 2 ] in
      let mse := sumR errors / 4 in
      ok (Rmax 0 (1 - sqrt mse / 100))
  end.

Definition calculateEH (individual : Individual) : R :=
  let waterUsed := Ind.totalWeeklyWater individual in
  let waterMax := maxWaterWeekly config in
  if waterMax =? 0 then 1.0
  else
    let usage := waterUsed / waterMax in
    if usage >? 1.0 then
      let excess := usage - 1.0 in
      Rmax 0 (1 - excess * 2)
    else if (usage >=? 0.8) && (usage <=? 0.95) then 1.0
    else if usage <? 0.8 then usage / 0.8
    else 1 - (usage - 0.95) * 2.

Definition calculateUE (individual : Individual) : R :=
  let usedArea := Ind.usedArea individual in
  let totalArea := totalArea (dimensions individual) in
  if totalArea =? 0 then 0
  else
    let usage := usedArea / totalArea in
    if (usage >=? 0.7) && (usage <=? 0.85) then 1.0
    else if usage <? 0.7 then usage / 0.7
    else Rmax 0 (1 - (usage - 0.85) * 3).

(** [calculate]: CS and BSN are commented out in the source; the weight row
    still carries their columns. *)
Definition calculate (individual : Individual) : Result Metrics :=
  let CEE := calculateCEE individual in
  PSRNT ← calculatePSRNT individual;
  let EH := calculateEH individual in
  let UE := calculateUE individual in
  let weights := OBJECTIVE_WEIGHTS (objective config) in
  MetricsM.new (mkMetricsData CEE PSRNT EH UE) weights.

Definition getWeights : Weights := OBJECTIVE_WEIGHTS (objective config).

End WithConfig.
End FitnessCalculator.

(** ** Arrays *)

(** [array.sort((a, b) => key(b) - key(a))]: the stable sort by descending
    key.  [insertDesc] puts an element in front of the first element whose key
    is not strictly greater, so equal keys keep their original order. *)
Fixpoint insertDesc {A} (key : A → R) (a : A) (l : list A) : list A :=
  match l with
  | [] => [a]
  | b :: l' => if key a <? key b then b :: insertDesc key a l' else a :: b :: l'
  end.

Definition sortDesc {A} (key : A → R) (l : list A) : list A :=
  foldr (insertDesc key) [] l.

(** ** Plant selector *)

Inductive Season : Type := auto | spring | summer | autumn | winter.

Record PlantSelectionConfig : Type := mkPlantSelectionConfig {
  sel_desiredPlantIds : option (list Z);
  sel_maxSpecies : Z;
  sel_objective : Objective.t;
  sel_season : option Season;
  sel_compatibilityMatrix : Matrix
}.

Record PlantScore : Type := mkPlantScore { ps_plant : Plant; ps_score : R }.

Module PlantSelectorService.
Section WithConfig.
Variable config : PlantSelectionConfig.

Definition filterByUserPreferences (plants : list Plant) : list Plant :=
  match sel_desiredPlantIds config with
  | None => plants
  | Some [] => plants
  | Some desired => List.filter (λ plant, bool_decide (id plant ∈ desired)) plants
  end.

(** The seasonal filter is a stub in the source: both branches return [plants]. *)
Definition filterBySeason (plants : list Plant) : list Plant :=
  match sel_season config with
  | None | Some auto => plants
  | Some _ => plants
  end.

Definition scoreByObjective (plant : Plant) : R :=
  match sel_objective config with
  | Objective.alimenticio => if hasType plant "vegetable" then 1.0 else 0.3
  | Objective.medicinal =>
      if hasType plant "medicinal" then 1.0
      else if hasType plant "aromatic" then 0.6 else 0.2
  | Objective.sostenible => Rmax 0 (1 - weeklyWatering plant / 100)
  | Objective.ornamental =>
      if hasType plant "ornamental" then 1.0
      else if hasType plant "aromatic" then 0.5 else 0.2
  end.

Definition getCompatibility (species1 species2 : string) : R :=
  match matrix_get (sel_compatibilityMatrix config) species1 species2 with
  | Some score1 => score1
  | None =>
      match matrix_get (sel_compatibilityMatrix config) species2 species1 with
      | Some score2 => score2
      | None => 0
      end
  end.

(** Loop body of [scoreByCompatibility] on [(totalCompatibility, count)]. *)
Definition compatStep (plant : Plant) (acc : R * nat) (other : Plant) : R * nat :=
  if bool_decide (species other = species plant) then acc
  else (fst acc + getCompatibility (species plant) (species other), S (snd acc)).

Definition scoreByCompatibility (plant : Plant) (others : list Plant) : R :=
  if bool_decide (length others ≤ 1)%nat then 1.0
  else
    let '(totalCompatibility, count) := foldl (compatStep plant) (0, 0%nat) others in
    if bool_decide (count = 0%nat) then 1.0
    else
      let avgCompat := totalCompatibility / INR count in
      (avgCompat + 1) / 2.

Definition scoreByResourceEfficiency (plant : Plant) : R :=
  let sizeScore := Rmax 0 (1 - size plant / 2) in
  let waterScore := Rmax 0 (1 - weeklyWatering plant / 100) in
  (sizeScore + waterScore) / 2.

Definition scoreByNutritionalDiversity (plant : Plant) : R :=
  let typeCount := INR (length (type plant)) in
  Rmin 1 (typeCount / 3).

(** [scorePlant]; the [reasons] strings are written but never read. *)
Definition scorePlant (plant : Plant) (context : list Plant) : PlantScore :=
  let score := 0 in
  let score := score + scoreByObjective plant * 0.3 in
  let score := score + scoreByCompatibility plant context * 0.4 in
  let score := score + scoreByResourceEfficiency plant * 0.2 in
  let score := score + scoreByNutritionalDiversity plant * 0.1 in
  mkPlantScore plant score.

Definition negativeStep (plant : Plant) (negativeCount : nat) (other : Plant) : nat :=
  if getCompatibility (species plant) (species other) <? -0.3
  then S negativeCount else negativeCount.

Definition checkCompatibilityWithSelected (plant : Plant) (selected : list Plant) : bool :=
  match selected with
  | [] => true
  | _ => bool_decide (foldl (negativeStep plant) 0%nat selected ≤ 1)%nat
  end.

(** First loop of [greedySelection]. *)
Fixpoint greedyGate (scored : list PlantScore) (selected : list Plant) : list Plant :=
  match scored with
  | [] => selected
  | candidate :: rest =>
      if bool_decide (sel_maxSpecies config ≤ Z.of_nat (length selected))%Z then selected
      else if checkCompatibilityWithSelected (ps_plant candidate) selected
      then greedyGate rest (selected ++ [ps_plant candidate])
      else greedyGate rest selected
  end.

(** [selected.includes(plant)] compares object references; a catalogue row is
    identified by its [id]. *)
Definition includes (selected : list Plant) (plant : Plant) : bool :=
  existsb (λ s, bool_decide (id s = id plant)) selected.

(** Second loop of [greedySelection]. *)
Fixpoint greedyFill (scored : list PlantScore) (selected : list Plant) : list Plant :=
  match scored with
  | [] => selected
  | candidate :: rest =>
      if bool_decide (sel_maxSpecies config ≤ Z.of_nat (length selected))%Z then selected
      else if includes selected (ps_plant candidate)
      then greedyFill rest selected
      else greedyFill rest (selected ++ [ps_plant candidate])
  end.

Definition greedySelection (scored : list PlantScore) : list Plant :=
  let selected := greedyGate scored [] in
  if bool_decide (Z.of_nat (length selected) < sel_maxSpecies config)%Z
  then greedyFill scored selected
  else selected.

Definition selectBestPlants (allPlants : list Plant) : list Plant :=
  let candidates := filterByUserPreferences allPlants in
  let candidates := filterBySeason candidates in
  let candidates :=
    if bool_decide (Z.of_nat (length candidates) < sel_maxSpecies config)%Z
    then allPlants else candidates in
  let scored := (λ plant, scorePlant plant candidates) <$> candidates in
  let scored := sortDesc ps_score scored in
  greedySelection scored.

End WithConfig.
End PlantSelectorService.

(** ** Random numbers and the clock *)

(** [this.rng]: with a seed, the closure of [seededRandom] over [state]; without
    one, [Math.random], an arbitrary sequence of doubles in [0, 1) (the
    fractional parts of an arbitrary sequence of reals).  Seeds are natural
    numbers. *)
Inductive RngState : Type :=
| Lcg (state : Z)
| MathRandom (draws : nat → R) (next : nat).

(** [seededRandom(seed)] *)
Definition seededRandom (seed : N) : RngState := Lcg (Z.of_N seed).

Definition lcgNext (state : Z) : Z := Z.rem (state * 9301 + 49297) 233280.

(** One call [this.rng()]. *)
Definition rngCall (s : RngState) : R * RngState :=
  match s with
  | Lcg state => let state' := lcgNext state in (IZR state' / 233280, Lcg state')
  | MathRandom draws next => (frac_part (draws next), MathRandom draws (S next))
  end.

(** [Date.now()]: successive readings of the wall clock, in milliseconds. *)
Record Clock : Type := mkClock { readings : nat → Z; reads : nat }.

Definition dateNow (c : Clock) : Z * Clock :=
  (readings c (reads c), mkClock (readings c) (S (reads c))).

(** Computations of the genetic algorithm: they draw from [this.rng] and may
    throw.  [Diverged] marks a [while] loop cut off by its fuel. *)
Inductive Outcome (A : Type) : Type :=
| Returned (a : A) (s : RngState)
| Raised (e : Error)
| Diverged.
Arguments Returned {A} a s.
Arguments Raised {A} e.
Arguments Diverged {A}.

Definition M (A : Type) : Type := RngState → Outcome A.

#[global] Instance M_ret : MRet M := λ A a s, Returned a s.
#[global] Instance M_bind : MBind M := λ A B k m s,
  match m s with
  | Returned a s' => k a s'
  | Raised e => Raised e
  | Diverged => Diverged
  end.

Definition rng : M R := λ s, let '(r, s') := rngCall s in Returned r s'.

Definition liftR {A} (r : Result A) : M A := λ s,
  match r with
  | inl e => Raised e
  | inr a => Returned a s
  end.

Definition raise {A} (e : Error) : M A := λ _, Raised e.

(** [for (const a of l) body(a)] threading an accumulator. *)
Fixpoint forM {A B} (body : B → A → M B) (l : list A) (acc : B) : M B :=
  match l with
  | [] => mret acc
  | a :: l' => acc' ← body acc a; forM body l' acc'
  end.

(** [for (let i = 0; i < n; i++) body(i)] threading an accumulator. *)
Fixpoint repeatM {B} (body : B → M B) (n : nat) (acc : B) : M B :=
  match n with
  | O => mret acc
  | S n' => acc' ← body acc; repeatM body n' acc'
  end.

(** [array.slice(0, end)] *)
Definition slice0 {A} (l : list A) (e : Z) : list A :=
  if (e <? 0)%Z then take (Z.to_nat (Z.of_nat (length l) + e)) l
  else take (Z.to_nat e) l.

(** [[a[i], a[j]] = [a[j], a[i]]] for indices inside the array. *)
Definition swap {A} (l : list A) (i j : nat) : list A :=
  match l !! i, l !! j with
  | Some ai, Some aj => <[i := aj]> (<[j := ai]> l)
  | _, _ => l
  end.

(** [Math.floor(this.rng() * n)] as an array index. *)
Definition randomIndex (n : nat) : M nat :=
  r ← rng; mret (Z.to_nat (Zfloor (r * INR n))).

(** ** Genetic algorithm *)

Record GAConfig : Type := mkGAConfig {
  populationSize : nat;
  maxGenerations : nat;
  crossoverProbability : R;
  mutationRate : R;
  insertionRate : R;
  deletionRate : R;
  tournamentK : nat;
  eliteCount : nat;
  patience : nat;
  convergenceThreshold : R;
  timeout : option R;
  seed : option N;
  maxSpecies : Z
}.

Record GAConstraints : Type := mkGAConstraints {
  maxArea : R;
  c_maxWaterWeekly : R;
  maxBudget : option R;
  c_desiredCategoryDistribution : option CategoryDistribution;
  desiredPlantIds : option (list Z)
}.

Inductive StoppingReason : Type :=
| convergence | max_generations | timeout_reached | patience_reached.

Record GenerationStat : Type := mkGenerationStat {
  generation : nat;
  bestFitness : option R;
  avgFitness : R;
  diversity : R;
  avgSpeciesCount : R
}.

Record GAResult : Type := mkGAResult {
  topSolutions : list Individual;
  generations : nat;
  convergenceGeneration : nat;
  stoppingReason : StoppingReason;
  executionTimeMs : Z;
  generationStats : list GenerationStat;
  resultSelectedPlants : list Plant
}.

(** Running totals of [createSmartIndividual]. *)
Record Placement : Type := mkPlacement {
  plantInstances : list PlantInstance;
  usedArea : R;
  usedWater : R;
  usedBudget : R
}.

Module GeneticAlgorithm.
Section WithInstance.
Variable allPlants : list Plant.
Variable fitnessConfig : FitnessConfig.
Variable config : GAConfig.

(** [GeneticAlgorithm.getCompatibilityScore] *)
Definition getCompatibilityScore (species1 species2 : string) : R :=
  match compatibilityMatrix fitnessConfig !! species1 with
  | None => 0
  | Some species1Map => default 0 (species1Map !! species2)
  end.

Definition minDistance (compatibility : R) : R :=
  if compatibility <? -0.5 then 2.0
  else if compatibility >? 0.5 then 0.8
  else 1.2.

Definition hasAdequateSpacing (plant1 plant2 : PlantInstance) : bool :=
  let distance := Instance.distanceTo plant1 plant2 in
  let compatibility :=
    getCompatibilityScore (species (plant plant1)) (species (plant plant2)) in
  let radius1 := sqrt (size (plant plant1)) / 2 in
  let radius2 := sqrt (size (plant plant2)) / 2 in
  distance >=? minDistance compatibility + radius1 + radius2.

(** [others.some(existing => inst.overlaps(existing) || !hasAdequateSpacing(inst, existing))] *)
Definition hasCollision (inst : PlantInstance) (others : list PlantInstance) : bool :=
  existsb (λ existing,
    Instance.overlaps inst existing || negb (hasAdequateSpacing inst existing)) others.

Definition selectPlantsIntelligently (constraints : GAConstraints)
    (objective : Objective.t) : list Plant :=
  PlantSelectorService.selectBestPlants
    (mkPlantSelectionConfig (desiredPlantIds constraints) (maxSpecies config)
       objective None (compatibilityMatrix fitnessConfig))
    allPlants.

(** Fisher-Yates loop [for (i = length - 1; i > 0; i--)]; [n] is [i]. *)
Fixpoint shuffleFrom {A} (n : nat) (array : list A) : M (list A) :=
  match n with
  | O => mret array
  | S n' =>
      r ← rng;
      let j := Z.to_nat (Zfloor (r * (INR n + 1))) in
      shuffleFrom n' (swap array n j)
  end.

Definition shuffleArray {A} (array : list A) : M (list A) :=
  shuffleFrom (length array - 1) array.

(** [!constraints.maxBudget || usedBudget + plantCost <= constraints.maxBudget] *)
Definition withinBudget (constraints : GAConstraints) (cost : R) : bool :=
  match maxBudget constraints with
  | None => true
  | Some b => (b =? 0) || (cost <=? b)
  end.

(** The [while (attempts < 50 && !validPosition)] loop; [remaining] counts
    the attempts left.  The result tells whether a position was found. *)
Fixpoint placeAttempts (constraints : GAConstraints) (width height : R)
    (plant : Plant) (remaining : nat) (st : Placement) : M Placement :=
  match remaining with
  | O => mret st
  | S remaining' =>
      let margin := sqrt (size plant) in
      r ← rng;
      let x := margin + r * (width - 2 * margin) in
      r ← rng;
      let y := margin + r * (height - 2 * margin) in
      position ← liftR (newPosition x y);
      tempInstance ← liftR (newPlantInstance plant position None None None);
      let hasCollision := hasCollision tempInstance (plantInstances st) in
      let withinBounds :=
        (x + pi_width tempInstance <=? width)
        && (y + pi_height tempInstance <=? height)
        && (x >=? 0) && (y >=? 0) in
      let plantArea := Instance.totalArea tempInstance in
      let plantWater := Instance.totalWeeklyWater tempInstance in
      let plantCost := Instance.totalCost tempInstance in
      let withinConstraints :=
        (usedArea st + plantArea <=? maxArea constraints * 0.85)
        && (usedWater st + plantWater <=? c_maxWaterWeekly constraints)
        && withinBudget constraints (usedBudget st + plantCost) in
      if negb hasCollision && withinBounds && withinConstraints
      then mret (mkPlacement (plantInstances st ++ [tempInstance])
                   (usedArea st + plantArea) (usedWater st + plantWater)
                   (usedBudget st + plantCost))
      else placeAttempts constraints width height plant remaining' st
  end.

(** Body of [for (const plant of chosenPlants)]. *)
Definition placeSpecies (constraints : GAConstraints) (width height : R)
    (st : Placement) (plant : Plant) : M Placement :=
  r ← rng;
  let plantsOfThisSpecies := Z.to_nat (1 + Zfloor (r * 2)) in
  repeatM (placeAttempts constraints width height plant 50) plantsOfThisSpecies st.

Definition createSmartIndividual (selectedPlants : list Plant)
    (constraints : GAConstraints) : M Individual :=
  let area := maxArea constraints in
  r ← rng;
  let aspectRatio := 0.6 + r * 0.8 in
  let width := sqrt (area * aspectRatio) in
  let height := area / width in
  dimensions ← liftR (newDimensions width height);
  r ← rng;
  let numSpecies :=
    Z.min (Z.of_nat (length selectedPlants))
      (2 + Zfloor (r * IZR (maxSpecies config - 1))) in
  shuffled ← shuffleArray selectedPlants;
  let chosenPlants := slice0 shuffled numSpecies in
  st ← forM (placeSpecies constraints width height) chosenPlants
         (mkPlacement [] 0 0 0);
  mret (Ind.new dimensions [] (plantInstances st)).

Definition initializePopulationHeuristic (selectedPlants : list Plant)
    (constraints : GAConstraints) : M (list Individual) :=
  repeatM (λ population,
             individual ← createSmartIndividual selectedPlants constraints;
             mret (population ++ [individual]))
    (populationSize config) [].

(** [tournament.reduce((best, current) => current.fitness > best.fitness ? current : best)] *)
Definition tournamentWinner (tournament : list Individual) : M Individual :=
  match tournament with
  | [] => raise TypeError
  | first :: rest =>
      mret (foldl (λ best current,
                     if Ind.fitness current >? Ind.fitness best then current else best)
              first rest)
  end.

(** [population[Math.floor(this.rng() * population.length)]] *)
Definition pick (population : list Individual) : M Individual :=
  randomIndex ← randomIndex (length population);
  match population !! randomIndex with
  | Some individual => mret individual
  | None => raise TypeError
  end.

Definition tournamentSelection (population : list Individual) : M (list Individual) :=
  repeatM (λ selected,
             tournament ← repeatM (λ tournament,
                                      individual ← pick population;
                                      mret (tournament ++ [individual]))
                            (tournamentK config) [];
             winner ← tournamentWinner tournament;
             mret (selected ++ [winner]))
    (populationSize config) [].

(** Body of the loop of [uniformCrossover] at index [i]. *)
Definition crossoverStep (parent1 parent2 : Individual)
    (children : list PlantInstance * list PlantInstance) (i : nat)
  : M (list PlantInstance * list PlantInstance) :=
  let '(child1Plants, child2Plants) := children in
  r ← rng;
  if r <? 0.5
  then mret (child1Plants ++ option_list (plants parent1 !! i),
             child2Plants ++ option_list (plants parent2 !! i))
  else mret (child1Plants ++ option_list (plants parent2 !! i),
             child2Plants ++ option_list (plants parent1 !! i)).

Definition uniformCrossover (parent1 parent2 : Individual)
  : M (Individual * Individual) :=
  if bool_decide (length (plants parent1) = 0%nat)
     || bool_decide (length (plants parent2) = 0%nat)
  then mret (Ind.clone parent1, Ind.clone parent2)
  else
    let maxLen := Nat.max (length (plants parent1)) (length (plants parent2)) in
    children ← forM (crossoverStep parent1 parent2) (seq 0 maxLen) ([], []);
    let child1 := Ind.new (dimensions parent1) [] (fst children) in
    let child2 := Ind.new (dimensions parent2) [] (snd children) in
    mret (child1, child2).

(** The loop [while (idx2 === idx1 && length > 1)] of [swapMutation], cut off
    after [fuel] further draws. *)
Fixpoint redraw (fuel : nat) (len idx1 idx2 : nat) : M nat :=
  if bool_decide (idx2 = idx1) && bool_decide (1 < len)%nat
  then match fuel with
       | O => λ _, Diverged
       | S fuel' => idx2' ← randomIndex len; redraw fuel' len idx1 idx2'
       end
  else mret idx2.

Definition swapMutation (fuel : nat) (individual : Individual) : M Individual :=
  let len := length (plants individual) in
  if bool_decide (len < 2)%nat then mret individual
  else
    idx1 ← randomIndex len;
    idx2 ← randomIndex len;
    idx2 ← redraw fuel len idx1 idx2;
    mret (Ind.setPlants individual (swap (plants individual) idx1 idx2)).

(** The [while (attempts < 30)] loop of [insertMutation]. *)
Fixpoint insertAttempts (constraints : GAConstraints) (newPlant : Plant)
    (remaining : nat) (individual : Individual) : M Individual :=
  match remaining with
  | O => mret individual
  | S remaining' =>
      let margin := sqrt (size newPlant) in
      r ← rng;
      let x := margin + r * (width (dimensions individual) - 2 * margin) in
      r ← rng;
      let y := margin + r * (height (dimensions individual) - 2 * margin) in
      position ← liftR (newPosition x y);
      instance ← liftR (newPlantInstance newPlant position None None None);
      let hasCollision := hasCollision instance (plants individual) in
      let withinBounds :=
        (x + pi_width instance <=? width (dimensions individual))
        && (y + pi_height instance <=? height (dimensions individual)) in
      let newUsedArea := Ind.usedArea individual + Instance.totalArea instance in
      let newWater :=
        Ind.totalWeeklyWater individual + Instance.totalWeeklyWater instance in
      if negb hasCollision && withinBounds
         && (newUsedArea <=? maxArea constraints * 0.85)
         && (newWater <=? c_maxWaterWeekly constraints)
      then mret (Ind.setPlants individual (plants individual ++ [instance]))
      else insertAttempts constraints newPlant remaining' individual
  end.

Definition insertMutation (selectedPlants : list Plant) (constraints : GAConstraints)
    (individual : Individual) : M Individual :=
  if bool_decide (maxSpecies config * 3 ≤ Z.of_nat (length (plants individual)))%Z
  then mret individual
  else
    idx ← randomIndex (length selectedPlants);
    match selectedPlants !! idx with
    | None => raise TypeError
    | Some newPlant => insertAttempts constraints newPlant 30 individual
    end.

Definition deleteMutation (individual : Individual) : M Individual :=
  if bool_decide (length (plants individual) ≤ 2)%nat then mret individual
  else
    idx ← randomIndex (length (plants individual));
    mret (Ind.setPlants individual (delete idx (plants individual))).

(** The [while (attempts < 20)] loop of [positionMutation]. *)
Fixpoint moveAttempts (idx : nat) (plantToMove : PlantInstance)
    (remaining : nat) (individual : Individual) : M Individual :=
  match remaining with
  | O => mret individual
  | S remaining' =>
      let margin := sqrt (size (plant plantToMove)) in
      r ← rng;
      let newX := margin + r * (width (dimensions individual) - 2 * margin) in
      r ← rng;
      let newY := margin + r * (height (dimensions individual) - 2 * margin) in
      newPosition ← liftR (newPosition newX newY);
      movedPlant ← liftR (newPlantInstance (plant plantToMove) newPosition
                            (Some (pi_width plantToMove)) (Some (pi_height plantToMove))
                            (Some (rotation plantToMove)));
      let otherPlants := delete idx (plants individual) in
      let hasCollision := hasCollision movedPlant otherPlants in
      let withinBounds :=
        (newX + pi_width movedPlant <=? width (dimensions individual))
        && (newY + pi_height movedPlant <=? height (dimensions individual)) in
      if negb hasCollision && withinBounds
      then mret (Ind.setPlants individual (<[idx := movedPlant]> (plants individual)))
      else moveAttempts idx plantToMove remaining' individual
  end.

Definition positionMutation (individual : Individual) : M Individual :=
  if bool_decide (length (plants individual) = 0%nat) then mret individual
  else
    idx ← randomIndex (length (plants individual));
    match plants individual !! idx with
    | None => raise TypeError
    | Some plantToMove => moveAttempts idx plantToMove 20 individual
    end.

Definition elitistReplacement (parents offspring : list Individual) : list Individual :=
  let combined := parents ++ offspring in
  take (populationSize config) (sortDesc Ind.fitness combined).

Definition calculateVariance (values : list R) : R :=
  match values with
  | [] => 0
  | _ =>
      let mean := sumR values / INR (length values) in
      let squaredDiffs := (λ v, (v - mean) ^ 2) <$> values in
      sumR squaredDiffs / INR (length values)
  end.

Definition calculateDiversity (population : list Individual) : R :=
  calculateVariance (Ind.fitness <$> population).

(** [population.forEach(ind => { ind.metrics = this.fitnessCalculator.calculate(ind) })] *)
Definition evaluate (population : list Individual) : Result (list Individual) :=
  mapM (λ ind, m ← FitnessCalculator.calculate fitnessConfig ind;
               mret (Ind.setMetrics ind m)) population.

(** The reproduction loop of [run] over pairs [selected[i], selected[i + 1]]. *)
Fixpoint reproduce (selected : list Individual) : M (list Individual) :=
  match selected with
  | parent1 :: parent2 :: rest =>
      r ← rng;
      children ← (if r <? crossoverProbability config
                  then uniformCrossover parent1 parent2
                  else mret (Ind.clone parent1, Ind.clone parent2));
      others ← reproduce rest;
      mret (fst children :: snd children :: others)
  | _ => mret []
  end.

(** The four mutations applied to one offspring. *)
Definition mutate (fuel : nat) (selectedPlants : list Plant)
    (constraints : GAConstraints) (ind : Individual) : M Individual :=
  r ← rng;
  ind ← (if r <? mutationRate config then swapMutation fuel ind else mret ind);
  r ← rng;
  ind ← (if r <? insertionRate config
         then insertMutation selectedPlants constraints ind else mret ind);
  r ← rng;
  ind ← (if r <? deletionRate config then deleteMutation ind else mret ind);
  r ← rng;
  if r <? mutationRate config * 0.5 then positionMutation ind else mret ind.

(** Phases 2 to 6 of one generation. *)
Definition nextGeneration (fuel : nat) (selectedPlants : list Plant)
    (constraints : GAConstraints) (population : list Individual)
  : M (list Individual) :=
  selected ← tournamentSelection population;
  offspring ← reproduce selected;
  offspring ← mapM (mutate fuel selectedPlants constraints) offspring;
  offspring ← liftR (evaluate offspring);
  mret (elitistReplacement population offspring).

(** [Math.max(...population.map(ind => ind.fitness))]; [None] is [-Infinity]. *)
Definition maxFitness (population : list Individual) : option R :=
  match population with
  | [] => None
  | first :: rest => Some (foldl (λ m ind, Rmax m (Ind.fitness ind)) (Ind.fitness first) rest)
  end.

(** [currentBest - bestFitness > 0.001] *)
Definition improved (currentBest bestFitness : option R) : bool :=
  match currentBest, bestFitness with
  | Some c, Some b => c - b >? 0.001
  | Some _, None => true
  | None, _ => false
  end.

Record LoopState : Type := mkLoopState {
  population : list Individual;
  best : option R;
  generationsWithoutImprovement : nat;
  stats : list GenerationStat
}.

(** [this.config.timeout && Date.now() - startTime > this.config.timeout] *)
Definition timedOut (startTime : Z) (clock : Clock) : bool * Clock :=
  match timeout config with
  | None => (false, clock)
  | Some t =>
      if t =? 0 then (false, clock)
      else let '(now, clock') := dateNow clock in (IZR (now - startTime) >? t, clock')
  end.

Definition recordStats (generation : nat) (currentBest : option R)
    (population : list Individual) (stats : list GenerationStat)
  : list GenerationStat :=
  if bool_decide (generation mod 10 = 0)%nat
     || bool_decide (generation = maxGenerations config - 1)%nat
  then stats ++ [mkGenerationStat generation currentBest
                   (sumR (Ind.fitness <$> population) / INR (length population))
                   (calculateDiversity population)
                   (sumR ((λ ind, INR (length (plants ind))) <$> population)
                    / INR (length population))]
  else stats.

(** The evolution loop; [remaining] generations are left. *)
Fixpoint evolve (fuel : nat) (selectedPlants : list Plant)
    (constraints : GAConstraints) (startTime : Z) (remaining : nat)
    (ls : LoopState) (clock : Clock) : M (LoopState * StoppingReason * Clock) :=
  match remaining with
  | O => mret (ls, max_generations, clock)
  | S remaining' =>
      let generation := (maxGenerations config - remaining)%nat in
      let '(expired, clock) := timedOut startTime clock in
      if expired then mret (ls, timeout_reached, clock)
      else
        population ← nextGeneration fuel selectedPlants constraints (population ls);
        let currentBest := maxFitness population in
        let '(bestFitness, stalled) :=
          if improved currentBest (best ls) then (currentBest, 0%nat)
          else (best ls, S (generationsWithoutImprovement ls)) in
        let stats := recordStats generation currentBest population (stats ls) in
        let ls := mkLoopState population bestFitness stalled stats in
        if bool_decide (patience config ≤ stalled)%nat
        then mret (ls, patience_reached, clock)
        else if calculateVariance (Ind.fitness <$> population)
                <? convergenceThreshold config
        then mret (ls, convergence, clock)
        else evolve fuel selectedPlants constraints startTime remaining' ls clock
  end.

(** [run] as a computation over [this.rng]. *)
Definition runM (fuel : nat) (constraints : GAConstraints) (objective : Objective.t)
    (clock : Clock) : M GAResult :=
  let '(startTime, clock) := dateNow clock in
  let selectedPlants := selectPlantsIntelligently constraints objective in
  initial ← initializePopulationHeuristic selectedPlants constraints;
  initial ← liftR (evaluate initial);
  let bestFitness := maxFitness initial in
  '(ls, stoppingReason, clock) ←
    evolve fuel selectedPlants constraints startTime (maxGenerations config)
      (mkLoopState initial bestFitness 0 []) clock;
  let sorted := sortDesc Ind.fitness (population ls) in
  let topSolutions := take 3 sorted in
  let '(now, _) := dateNow clock in
  let executionTime := (now - startTime)%Z in
  match topSolutions with
  | [] => raise TypeError
  | _ =>
      mret (mkGAResult topSolutions (length (stats ls) * 10) (length (stats ls) * 10)
              stoppingReason executionTime (stats ls) selectedPlants)
  end.

(** [new GeneticAlgorithm(allPlants, fitnessCalculator, config).run(constraints,
    objective)]: [mathRandom] is what [Math.random] would return and is read
    only when no seed is configured. *)
Definition run (fuel : nat) (mathRandom : nat → R) (clock : Clock)
    (constraints : GAConstraints) (objective : Objective.t) : Outcome GAResult :=
  let rng0 :=
    match seed config with
    | Some seed => seededRandom seed
    | None => MathRandom mathRandom 0
    end in
  runM fuel constraints objective clock rng0.

End WithInstance.
End GeneticAlgorithm.

(** ** Orchestrator *)

Record GenerateGardenRequestDto : Type := mkRequest {
  userId : string;
  rq_desiredPlantIds : option (list Z);
  rq_maxPlantSpecies : option Z;
  rq_dimensions : option (R * R);
  rq_waterLimit : option R;
  rq_userExperience : Z;
  rq_season : option Season;
  rq_location : option (R * R);
  rq_categoryDistribution : option CategoryDistributionData;
  rq_budget : option R;
  rq_objective : option Objective.t;
  rq_maintenanceMinutes : option R
}.

Record NormalizedRequest : Type := mkNormalizedRequest {
  n_userId : string;
  n_desiredPlantIds : list Z;
  n_maxPlantSpecies : Z;
  n_dimensions : R * R;
  n_waterLimit : R;
  n_userExperience : Z;
  n_season : Season;
  n_location : R * R;
  n_categoryDistribution : CategoryDistribution;
  n_budget : R;
  n_objective : Objective.t;
  n_maintenanceMinutes : R
}.

(** [value || fallback] on an optional number: [undefined] and [0] are falsy. *)
Definition orR (value : option R) (fallback : R) : R :=
  match value with
  | Some v => if v =? 0 then fallback else v
  | None => fallback
  end.

Definition orZ (value : option Z) (fallback : Z) : Z :=
  match value with
  | Some v => if bool_decide (v = 0%Z) then fallback else v
  | None => fallback
  end.

Module GenerateGardenUseCase.
Section WithEnvironment.
(** [env.location.defaultLatitude], [env.location.defaultLongitude] *)
Variables defaultLatitude defaultLongitude : R.
(** Successive results of [Math.random()]. *)
Variable mathRandom : nat → R.
(** Steps 2 to 8 of [execute], after normalisation. *)
Variable Response : Type.
Variable pipeline : NormalizedRequest → Result Response.

Definition random (n : nat) : R := frac_part (mathRandom n).

(** [normalizeRequest]; the fourth [Math.random()] is called only when
    [waterLimit] is falsy. *)
Definition normalizeRequest (request : GenerateGardenRequestDto)
  : Result NormalizedRequest :=
  let randomArea := 1 + random 0 * 4 in
  let randomWidth := sqrt (randomArea * (0.5 + random 1)) in
  let randomHeight := randomArea / randomWidth in
  categoryDistribution ←
    match rq_categoryDistribution request with
    | Some data => newCategoryDistribution data
    | None => newCategoryDistribution emptyData
    end;
  mret (mkNormalizedRequest
          (userId request)
          (default [] (rq_desiredPlantIds request))
          (orZ (rq_maxPlantSpecies request) 5)
          (default (randomWidth, randomHeight) (rq_dimensions request))
          (orR (rq_waterLimit request) (randomArea * (50 + random 2 * 30)))
          (orZ (Some (rq_userExperience request)) 2)
          (default auto (rq_season request))
          (default (defaultLatitude, defaultLongitude) (rq_location request))
          categoryDistribution
          (orR (rq_budget request) (randomArea * 200))
          (default Objective.alimenticio (rq_objective request))
          (orR (rq_maintenanceMinutes request)
             (IZR (orZ (Some (rq_userExperience request)) 2) * 60))).

(** [execute]: the [catch] block logs and rethrows. *)
Definition execute (request : GenerateGardenRequestDto) : Result Response :=
  match (normalizedRequest ← normalizeRequest request; pipeline normalizedRequest) with
  | inl error => inl error
  | inr response => inr response
  end.

End WithEnvironment.
End GenerateGardenUseCase.

(** ** The lookup of the specification and example data *)

(** Compatibility Index of the specification: [map[a][b]] if present, else
    [map[b][a]] if present, else 0. *)
Definition specLookup (m : Matrix) (a b : string) : R :=
  match matrix_get m a b with
  | Some s => s
  | None => default 0 (matrix_get m b a)
  end.

(** A matrix as the repository loads it: one directed entry. *)
Definition oneWay : Matrix := {[ "Tomate" := {[ "Hinojo" := -1 ]} ]}.

Definition oneWayConfig : FitnessConfig :=
  mkFitnessConfig oneWay Objective.alimenticio None 100.

(** The request of scenario S1: only [userId] and [userExperience]. *)
Definition minimalRequest (user : string) (experience : Z) : GenerateGardenRequestDto :=
  mkRequest user None None None None experience None None None None None None.

(** A one-square-metre vegetable that drinks 90 litres a week, and a layout
    of 2 m by 2 m holding one such plant. *)
Definition tomate : Plant :=
  mkPlant 2 "Tomate" "Solanum lycopersicum" ["vegetable"] 90 80 "franco" 50 1.

Definition tomateAt (px py : R) : PlantInstance :=
  mkPlantInstance tomate (mkPosition px py) 1 1 0 pending.

Definition oneTomate : Individual :=
  mkIndividual (mkDimensions 2 2) [] [tomateAt 0.5 0.5] None.

Definition waterConfig (limit : R) : FitnessConfig :=
  mkFitnessConfig ∅ Objective.alimenticio None limit.

(** The curve of [calculateEH] as a function of the usage ratio. *)
Definition ehCurve (usage : R) : R :=
  if usage >? 1.0 then Rmax 0 (1 - (usage - 1.0) * 2)
  else if (usage >=? 0.8) && (usage <=? 0.95) then 1.0
  else if usage <? 0.8 then usage / 0.8
  else 1 - (usage - 0.95) * 2.

(** The two metrics that the specification adds to the aggregate; the source
    keeps them only as commented-out code. *)
Module Spec.

(** CS: [max(0, 1 − stdev(harvestDays)/60)]; 1.0 with fewer than two instances. *)
Definition calculateCS (individual : Individual) : R :=
  if bool_decide (length (plants individual) < 2)%nat then 1.0
  else
    let days := (λ p, harvestDays (plant p)) <$> plants individual in
    let avgHarvest := sumR days / INR (length days) in
    let variance := sumR ((λ d, (d - avgHarvest) ^ 2) <$> days) / INR (length days) in
    Rmax 0 (1 - sqrt variance / 60).

(** BSN: with [k] distinct soil types, 1.0 for [k ∈ {2, 3}], 0.6 for [k = 1],
    [max(0.4, 1 − (k − 3)·0.2)] otherwise. *)
Definition calculateBSN (individual : Individual) : R :=
  let k := length (remove_dups ((λ p, soilType (plant p)) <$> plants individual)) in
  if bool_decide (2 ≤ k ≤ 3)%nat then 1.0
  else if bool_decide (k = 1%nat) then 0.6
  else Rmax 0.4 (1 - (INR k - 3) * 0.2).

(** The aggregate of the specification: all six columns of the weight row. *)
Definition fitness (w : Weights) (m : Metrics) (cs bsn : R) : R :=
  wCEE w * CEE m + wPSRNT w * PSRNT m + wEH w * EH m + wUE w * UE m
  + wCS w * cs + wBSN w * bsn.

End Spec.

(** Sum of the weights that [Metrics.calculateFitness] reads. *)
Definition appliedWeights (w : Weights) : R := wCEE w + wPSRNT w + wEH w + wUE w.

(** A second layout, 3 m by 1 m, with one tomato. *)
Definition wideTomate : Individual :=
  mkIndividual (mkDimensions 3 1) [] [tomateAt 1 0] None.

(** A computation that always returns. *)
Definition total {A} (m : M A) : Prop := ∀ s, ∃ a s', m s = Returned a s'.

(** Descending order of the keys. *)
Definition descending {A} (key : A → R) : list A → Prop :=
  StronglySorted (λ a b, key b <= key a).

(** Order on best-fitness values, [None] being [-Infinity]. *)
Definition bestLe (a b : option R) : Prop :=
  match a, b with
  | Some m, Some m' => m <= m'
  | None, _ => True
  | Some _, None => False
  end.

(** A run with one individual, one generation, tournaments of one, and no
    crossover or mutation; seed 42. *)
Definition soloConfig : GAConfig :=
  mkGAConfig 1 1 0 0 0 0 1 0 1 0 None (Some 42%N) 3.

Definition noLimits : GAConstraints := mkGAConstraints 4 100 None None None.

(** A second catalogue row, and selector configurations that pin the tomato. *)
Definition albahaca : Plant :=
  mkPlant 3 "Albahaca" "Ocimum basilicum" ["aromatic"; "medicinal"] 20 60 "franco" 30 0.25.

Definition pinTomate (maxSpecies : Z) : PlantSelectionConfig :=
  mkPlantSelectionConfig (Some [2%Z]) maxSpecies Objective.alimenticio None ∅.

(** The spacing the genetic algorithm enforces when it places [new] next to
    [existing]: base 2.0 m, 0.8 m or 1.2 m from the one-way lookup
    (new species, existing species), plus half the square root of each size. *)
Definition gaMinimumDistance (fc : FitnessConfig) (new existing : PlantInstance) : R :=
  GeneticAlgorithm.minDistance
    (GeneticAlgorithm.getCompatibilityScore fc (species (plant new))
       (species (plant existing)))
  + sqrt (size (plant new)) / 2 + sqrt (size (plant existing)) / 2.

Definition spaced (fc : FitnessConfig) (new existing : PlantInstance) : Prop :=
  gaMinimumDistance fc new existing <= Instance.distanceTo new existing.

(** Instances placed one after the other, each spaced from all those placed
    before it. *)
Inductive PlacedInOrder (fc : FitnessConfig) : list PlantInstance → Prop :=
| placed_nil : PlacedInOrder fc []
| placed_snoc l new :
    PlacedInOrder fc l → Forall (spaced fc new) l → PlacedInOrder fc (l ++ [new]).

(** A 10 m by 10 m layout with one tomato, and the limits of its plot. *)
Definition plot : Individual :=
  mkIndividual (mkDimensions 10 10) [] [tomateAt 5.2 8.5] None.

Definition plotLimits : GAConstraints := mkGAConstraints 100 1000 None None None.

(** The instance that the insert mutation places into [plot] with seed 42:
    the draws after the pool index are 190736/233280 and 223713/233280. *)
Definition inserted : PlantInstance :=
  mkPlantInstance tomate
    (mkPosition (1 + 190736 / 233280 * (10 - 2 * 1)) (1 + 223713 / 233280 * (10 - 2 * 1)))
    1 1 0 pending.

(** The wall clock never shows more than the configured timeout after
    [startTime]: the timeout check of the evolution loop never fires. *)
Definition calm (cfg : GAConfig) (startTime : Z) (clock : Clock) : Prop :=
  match timeout cfg with
  | None => True
  | Some t => t = 0 ∨ ∀ n, IZR (readings clock n - startTime) <= t
  end.

(** The same for a run that reads [startTime] from the clock itself. *)
Definition withinTimeout (cfg : GAConfig) (clock : Clock) : Prop :=
  calm cfg (readings clock (reads clock)) clock.

(** Two runs end alike: same exception, or same solutions, stopping reason,
    statistics, pool and final random state (the execution time may differ). *)
Definition sameRun (o1 o2 : Outcome GAResult) : Prop :=
  match o1, o2 with
  | Returned r1 s1, Returned r2 s2 =>
      topSolutions r1 = topSolutions r2
      ∧ stoppingReason r1 = stoppingReason r2
      ∧ generations r1 = generations r2
      ∧ generationStats r1 = generationStats r2
      ∧ resultSelectedPlants r1 = resultSelectedPlants r2
      ∧ s1 = s2
  | Raised e1, Raised e2 => e1 = e2
  | Diverged, Diverged => True
  | _, _ => False
  end.

(** The value and the successor state of one call of [this.rng]. *)
Definition draw (s : RngState) : R := fst (rngCall s).
Definition advance (s : RngState) : RngState := snd (rngCall s).

(** States from which every draw lies in [0, 1). *)
Definition goodRng (s : RngState) : Prop :=
  match s with
  | Lcg state => (0 ≤ state)%Z
  | MathRandom _ _ => True
  end.

(** The run of the reproducibility counterexample: a catalogue of one tomato
    on 5 m² with 90 l of water, two individuals, one generation, tournaments
    of one, no crossover and no mutation, a timeout of 1 ms, seed 42. *)
Definition duoConfig : GAConfig :=
  mkGAConfig 2 1 0 0 0 0 1 0 1 0 (Some 1) (Some 42%N) 3.

Definition smallPlot : GAConstraints := mkGAConstraints 5 90 None None None.

(** Clocks that stand still (at 0 and at 7 ms) and one that advances 5 ms
    per reading. *)
Definition stillClock : Clock := mkClock (λ _, 0%Z) 0.
Definition steadyClock : Clock := mkClock (λ _, 7%Z) 0.
Definition tickingClock : Clock := mkClock (λ n, (5 * Z.of_nat n)%Z) 0.

(** The two plots of the initial population: the first draw of each
    individual (206659/233280 and 151230/233280) fixes its aspect ratio. *)
Definition width0 : R := sqrt (5 * (0.6 + 206659 / 233280 * 0.8)).
Definition width1 : R := sqrt (5 * (0.6 + 151230 / 233280 * 0.8)).

Definition sown : PlantInstance :=
  mkPlantInstance tomate
    (mkPosition (1 + 91941 / 233280 * (width1 - 2 * 1))
       (1 + 221338 / 233280 * (5 / width1 - 2 * 1)))
    1 1 0 pending.

Definition barePlot : Individual :=
  mkIndividual (mkDimensions width0 (5 / width0)) [] [] None.
Definition sownPlot : Individual :=
  mkIndividual (mkDimensions width1 (5 / width1)) [] [sown] None.

Definition bareMetrics : Metrics := mkMetrics 1 1 0 0 0.55.
Definition sownMetrics : Metrics := mkMetrics 1 0 0.9 (2 / 7) (439 / 1400).

(** The initial population after evaluation. *)
Definition bareScored : Individual := Ind.setMetrics barePlot bareMetrics.
Definition sownScored : Individual := Ind.setMetrics sownPlot sownMetrics.

(** Contribution of one percentage to the Shannon entropy of
    [calculateDiversityBonus]. *)
Definition entropyTerm (v : R) : R :=
  if v >? 0 then - (v / 100 * Num.log2 (v / 100)) else 0.

(** Non-negative counts. *)
Definition countsNonneg (c : Counts) : Prop :=
  0 <= n_vegetable c ∧ 0 <= n_medicinal c ∧ 0 <= n_aromatic c ∧ 0 <= n_ornamental c.

(** An individual on which the evaluator's ratios are well defined:
    instances with non-negative footprint and water need, in a plot of
    non-negative area. *)
Definition evaluable (ind : Individual) : Prop :=
  Forall (λ inst, 0 <= Instance.totalArea inst ∧ 0 <= Instance.totalWeeklyWater inst)
    (plants ind)
  ∧ 0 <= totalArea (dimensions ind).

(** A compatibility matrix whose scores all lie in [-1, 1]. *)
Definition boundedMatrix (m : Matrix) : Prop :=
  ∀ s1 s2 v, matrix_get m s1 s2 = Some v → -1 <= v <= 1.


(** An instance that lies inside a plot of the given dimensions. *)
Definition insidePlot (d : Dimensions) (inst : PlantInstance) : Prop :=
  0 <= x (position inst) ∧ 0 <= y (position inst)
  ∧ x (position inst) + pi_width inst <= width d
  ∧ y (position inst) + pi_height inst <= height d.

(** The running totals of a placement agree with its instances; these lie
    inside a plot of [w] by [h], are instances of [pool] plants and, once
    there is one, respect the limits on area, water and budget. *)
Definition placementOk (constraints : GAConstraints) (w h : R) (pool : list Plant)
    (st : Placement) : Prop :=
  Forall (insidePlot (mkDimensions w h)) (plantInstances st)
  ∧ Forall (λ inst, plant inst ∈ pool) (plantInstances st)
  ∧ usedArea st = sumR (Instance.totalArea <$> plantInstances st)
  ∧ usedWater st = sumR (Instance.totalWeeklyWater <$> plantInstances st)
  ∧ usedBudget st = sumR (Instance.totalCost <$> plantInstances st)
  ∧ (plantInstances st ≠ [] →
     usedArea st <= maxArea constraints * 0.85
     ∧ usedWater st <= c_maxWaterWeekly constraints
     ∧ GeneticAlgorithm.withinBudget constraints (usedBudget st) = true).

(** Computations that, from a state whose draws lie in [0, 1), return a
    value satisfying [post] and leave such a state. *)
Definition safe {A} (m : M A) (post : A → Prop) : Prop :=
  ∀ s, goodRng s → ∃ a s', m s = Returned a s' ∧ goodRng s' ∧ post a.


(** Two instances of the same plant with the same footprint and rotation. *)
Definition sameFootprint (a b : PlantInstance) : Prop :=
  plant a = plant b ∧ pi_width a = pi_width b ∧ pi_height a = pi_height b
  ∧ rotation a = rotation b.


(** An individual that carries the metrics the evaluator computes for its
    own layout. *)
Definition evaluated (fc : FitnessConfig) (ind : Individual) : Prop :=
  ∃ m, metrics ind = Some m ∧ FitnessCalculator.calculate fc ind = inr m.


(** A compatibility matrix that records every pair in both directions. *)
Definition symmetricMatrix (m : Matrix) : Prop :=
  ∀ a b, matrix_get m a b = matrix_get m b a.

(** The minimum distance of the amended claim C2: base 2.0 m, 0.8 m or 1.2 m
    by the compatibility of the two species, plus half the square root of
    each plant's size. *)
Definition placementBase (compatibility : R) : R :=
  if compatibility <? -0.5 then 2.0
  else if compatibility >? 0.5 then 0.8
  else 1.2.

Definition placementMinimum (m : Matrix) (a b : PlantInstance) : R :=
  placementBase (specLookup m (species (plant a)) (species (plant b)))
  + sqrt (size (plant a)) / 2 + sqrt (size (plant b)) / 2.

Definition apart (m : Matrix) (a b : PlantInstance) : Prop :=
  placementMinimum m a b <= Instance.distanceTo a b.

(** Every two instances of a layout are [apart]. *)
Definition pairwiseApart (m : Matrix) (l : list PlantInstance) : Prop :=
  ∀ i j a b, i ≠ j → l !! i = Some a → l !! j = Some b → apart m a b.

(** A fennel of one square metre, and the instance that the insert mutation
    places into [plot] with seed 42 when fennel is the only pool plant: the
    same position as [inserted]. *)
Definition hinojo : Plant :=
  mkPlant 7 "Hinojo" "Foeniculum vulgare" ["aromatic"] 30 90 "franco" 40 1.

Definition insertedHinojo : PlantInstance :=
  mkPlantInstance hinojo (position inserted) 1 1 0 pending.


(** The selector configuration without any pinned plant. *)
Definition unpinned (cfg : PlantSelectionConfig) : PlantSelectionConfig :=
  mkPlantSelectionConfig None (sel_maxSpecies cfg) (sel_objective cfg) (sel_season cfg)
    (sel_compatibilityMatrix cfg).


(** An optional number that JavaScript's [||] treats as missing. *)
Definition falsyR (value : option R) : Prop := value = None ∨ value = Some 0.
Definition falsyZ (value : option Z) : Prop := value = None ∨ value = Some 0%Z.

(** A request that gives only the user, the experience and the category
    distribution. *)
Definition distributionRequest (data : CategoryDistributionData) : GenerateGardenRequestDto :=
  mkRequest "u" None None None None 2 None None (Some data) None None None.


(** * Properties *)

(** ** Comparisons *)

Lemma ltb_lt a b : (a <? b) = true ↔ a < b.
Proof. unfold Num.ltb. destruct (Rlt_dec a b); split; intros; done. Qed.

Lemma ltb_ge a b : (a <? b) = false ↔ b <= a.
Proof. unfold Num.ltb. destruct (Rlt_dec a b); split; intros; try done; lra. Qed.

Lemma leb_le a b : (a <=? b) = true ↔ a <= b.
Proof. unfold Num.leb. destruct (Rle_dec a b); split; intros; done. Qed.

Lemma leb_gt a b : (a <=? b) = false ↔ b < a.
Proof. unfold Num.leb. destruct (Rle_dec a b); split; intros; try done; lra. Qed.

Lemma gtb_gt a b : (a >? b) = true ↔ b < a.
Proof. apply ltb_lt. Qed.

Lemma gtb_le a b : (a >? b) = false ↔ a <= b.
Proof. apply ltb_ge. Qed.

Lemma geb_ge a b : (a >=? b) = true ↔ b <= a.
Proof. apply leb_le. Qed.

Lemma geb_lt a b : (a >=? b) = false ↔ a < b.
Proof. apply leb_gt. Qed.

Lemma eqb_eq a b : (a =? b) = true ↔ a = b.
Proof. unfold Num.eqb. destruct (Req_dec_T a b); split; intros; done. Qed.

Lemma eqb_neq a b : (a =? b) = false ↔ a ≠ b.
Proof. unfold Num.eqb. destruct (Req_dec_T a b); split; intros; done. Qed.

(** Case analysis on every comparison of the goal. *)
Ltac cases_cmp :=
  repeat match goal with
  | |- context [?a <? ?b] =>
      let H := fresh "Hc" in
      destruct (a <? b) eqn:H; [apply ltb_lt in H | apply ltb_ge in H]
  | |- context [?a <=? ?b] =>
      let H := fresh "Hc" in
      destruct (a <=? b) eqn:H; [apply leb_le in H | apply leb_gt in H]
  | |- context [?a =? ?b] =>
      let H := fresh "Hc" in
      destruct (a =? b) eqn:H; [apply eqb_eq in H | apply eqb_neq in H]
  end.

(** Decide the comparisons of the goal whose outcome linear arithmetic knows. *)
Ltac decide_cmp :=
  repeat match goal with
  | |- context [?a <? ?b] =>
      first [ rewrite (proj2 (ltb_lt a b)) by lra
            | rewrite (proj2 (ltb_ge a b)) by lra ]
  | |- context [?a <=? ?b] =>
      first [ rewrite (proj2 (leb_le a b)) by lra
            | rewrite (proj2 (leb_gt a b)) by lra ]
  | |- context [?a =? ?b] =>
      first [ rewrite (proj2 (eqb_eq a b)) by lra
            | rewrite (proj2 (eqb_neq a b)) by lra ]
  end.

(** ** Compatibility lookups (C7) *)

Lemma fitness_lookup_spec (cfg : FitnessConfig) (a b : string) :
  FitnessCalculator.getCompatibilityScore cfg a b
  = specLookup (compatibilityMatrix cfg) a b.
Proof.
  unfold FitnessCalculator.getCompatibilityScore, specLookup.
  destruct (matrix_get _ a b); [done|]. by destruct (matrix_get _ b a).
Qed.

Lemma validation_lookup_spec (m : Matrix) (a b : string) :
  ValidationService.getCompatibilityScore m a b = specLookup m a b.
Proof.
  unfold ValidationService.getCompatibilityScore, specLookup.
  destruct (matrix_get _ a b); [done|]. by destruct (matrix_get _ b a).
Qed.

Lemma selector_lookup_spec (cfg : PlantSelectionConfig) (a b : string) :
  PlantSelectorService.getCompatibility cfg a b
  = specLookup (sel_compatibilityMatrix cfg) a b.
Proof.
  unfold PlantSelectorService.getCompatibility, specLookup.
  destruct (matrix_get _ a b); [done|]. by destruct (matrix_get _ b a).
Qed.

(** C7 (code defect).  The lookups of the fitness evaluator and of the
    validator follow the specification in both directions, but those of the
    genetic algorithm and of the spacing service read only [map[a][b]]: on a
    matrix that stores the pair as (Tomate, Hinojo), the lookup of
    (Hinojo, Tomate) yields 0 there although the specified result is -1. *)
Theorem C7_one_way_lookups :
  specLookup oneWay "Hinojo" "Tomate" = -1
  ∧ FitnessCalculator.getCompatibilityScore oneWayConfig "Hinojo" "Tomate" = -1
  ∧ ValidationService.getCompatibilityScore oneWay "Hinojo" "Tomate" = -1
  ∧ GeneticAlgorithm.getCompatibilityScore oneWayConfig "Hinojo" "Tomate" = 0
  ∧ PlantSpacingService.getCompatibilityScore oneWay "Hinojo" "Tomate" = 0.
Proof. repeat split; reflexivity. Qed.

(** ** Request normalisation (C4) *)

Lemma empty_distribution_throws :
  newCategoryDistribution emptyData = throw "Category distribution must sum to 100".
Proof.
  unfold newCategoryDistribution, emptyData, Num.gtb. simpl.
  replace (0 + 0 + 0 + 0 - 100) with (-100) by lra.
  rewrite Rabs_left by lra. by decide_cmp.
Qed.

(** C4 (code defect).  For a request that supplies only [userId] and
    [userExperience], [normalizeRequest] builds [new CategoryDistribution()],
    whose percentages default to 0 and fail the sum-to-100 check: the
    normalisation throws and [execute] rethrows, whatever the rest of the
    pipeline would do; no solution is returned. *)
Theorem C4_minimal_request_rejected (lat lon : R) (rnd : nat → R) (Response : Type)
    (pipeline : NormalizedRequest → Result Response) (user : string) (experience : Z) :
  GenerateGardenUseCase.normalizeRequest lat lon rnd (minimalRequest user experience)
  = inl (Thrown "Category distribution must sum to 100")
  ∧ GenerateGardenUseCase.execute lat lon rnd Response pipeline
      (minimalRequest user experience)
    = inl (Thrown "Category distribution must sum to 100").
Proof.
  unfold GenerateGardenUseCase.execute, GenerateGardenUseCase.normalizeRequest.
  simpl. rewrite empty_distribution_throws. done.
Qed.

(** ** Water efficiency (C6) *)

Lemma calculateEH_curve (cfg : FitnessConfig) (ind : Individual) :
  maxWaterWeekly cfg ≠ 0 →
  FitnessCalculator.calculateEH cfg ind
  = ehCurve (Ind.totalWeeklyWater ind / maxWaterWeekly cfg).
Proof.
  intros Hm. unfold FitnessCalculator.calculateEH, ehCurve.
  by rewrite (proj2 (eqb_neq _ _) Hm).
Qed.

Lemma ehCurve_doubling (u : R) :
  ehCurve u <= ehCurve (u / 2) ↔ u <= 0 ∨ 8 / 7 <= u.
Proof.
  unfold ehCurve, Num.gtb, Num.geb.
  cases_cmp; simpl; unfold Rmax; repeat destruct (Rle_dec _ _); split; intros; lra.
Qed.

Lemma sumR_cons (a : R) (l : list R) : sumR (a :: l) = a + sumR l.
Proof.
  unfold sumR. simpl. rewrite Rplus_0_l.
  assert (H : ∀ l b, foldl Rplus b l = b + foldl Rplus 0 l).
  { clear. induction l as [|c l IH]; intros b; simpl; [lra|].
    rewrite (IH (b + c)), (IH (0 + c)). lra. }
  apply H.
Qed.

Lemma sumR_nil : sumR [] = 0.
Proof. reflexivity. Qed.

(** C6 (amended).  For a positive [maxWaterWeekly], doubling the limit with
    everything else fixed does not decrease EH exactly when the layout uses no
    water or at least 8/7 of the original limit; for a usage in between, the
    under-use penalty of the curve makes EH strictly smaller. *)
Theorem C6_doubling_limit (m : Matrix) (o : Objective.t)
    (d : option CategoryDistribution) (limit : R) (ind : Individual) :
  0 < limit →
  FitnessCalculator.calculateEH (mkFitnessConfig m o d limit) ind
    <= FitnessCalculator.calculateEH (mkFitnessConfig m o d (2 * limit)) ind
  ↔ Ind.totalWeeklyWater ind <= 0 ∨ 8 / 7 * limit <= Ind.totalWeeklyWater ind.
Proof.
  intros Hl. rewrite !calculateEH_curve by (simpl; lra). simpl.
  replace (Ind.totalWeeklyWater ind / (2 * limit))
    with (Ind.totalWeeklyWater ind / limit / 2) by (field; lra).
  rewrite ehCurve_doubling.
  assert (Hdiv : ∀ c, c <= Ind.totalWeeklyWater ind / limit
                      ↔ c * limit <= Ind.totalWeeklyWater ind).
  { intros c. split; intros H.
    - apply (Rmult_le_compat_r limit) in H; [|lra].
      replace (Ind.totalWeeklyWater ind / limit * limit)
        with (Ind.totalWeeklyWater ind) in H by (field; lra). done.
    - apply (Rmult_le_reg_r limit); [lra|].
      replace (Ind.totalWeeklyWater ind / limit * limit)
        with (Ind.totalWeeklyWater ind) by (field; lra). done. }
  assert (Hneg : Ind.totalWeeklyWater ind / limit <= 0
                 ↔ Ind.totalWeeklyWater ind <= 0).
  { split; intros H.
    - apply (Rmult_le_compat_r limit) in H; [|lra].
      replace (Ind.totalWeeklyWater ind / limit * limit)
        with (Ind.totalWeeklyWater ind) in H by (field; lra). lra.
    - apply (Rmult_le_reg_r limit); [lra|].
      replace (Ind.totalWeeklyWater ind / limit * limit)
        with (Ind.totalWeeklyWater ind) by (field; lra). lra. }
  rewrite Hneg, Hdiv. done.
Qed.

Lemma C6_doubling_limit_witness :
  0 < 100
  ∧ (FitnessCalculator.calculateEH (waterConfig 100) oneTomate
       <= FitnessCalculator.calculateEH (waterConfig (2 * 100)) oneTomate
     ↔ Ind.totalWeeklyWater oneTomate <= 0
       ∨ 8 / 7 * 100 <= Ind.totalWeeklyWater oneTomate).
Proof.
  split; [lra|].
  apply (C6_doubling_limit ∅ Objective.alimenticio None 100 oneTomate); lra.
Defined.

(** C6, counterexample: one plant drinking 90 l under a limit of 100 l has
    EH = 1; with the limit doubled to 200 l its EH drops to 0.5625. *)
Lemma C6_counterexample :
  FitnessCalculator.calculateEH (waterConfig (2 * 100)) oneTomate
  < FitnessCalculator.calculateEH (waterConfig 100) oneTomate.
Proof.
  rewrite !calculateEH_curve by (simpl; lra).
  unfold Ind.totalWeeklyWater, oneTomate, waterConfig. simpl.
  rewrite sumR_cons, sumR_nil. unfold Instance.totalWeeklyWater. simpl.
  unfold ehCurve, Num.gtb, Num.geb.
  decide_cmp. simpl. lra.
Qed.

(** ** Fitness aggregation (C1, C9) *)

Lemma newCategoryDistribution_ok (v m o a : R) :
  v + m + o + a = 100 →
  newCategoryDistribution (mkCategoryDistributionData (Some v) (Some m) (Some o) (Some a))
  = inr (mkCategoryDistribution v m o a).
Proof.
  intros H. unfold newCategoryDistribution, Num.gtb. simpl.
  rewrite H. replace (100 - 100) with 0 by lra. rewrite Rabs_R0.
  by decide_cmp.
Qed.

Lemma distribution_single_vegetable (ind : Individual) (inst : PlantInstance) :
  plants ind = [inst] → type (plant inst) = ["vegetable"] →
  FitnessCalculator.calculateCategoryDistribution ind
  = inr (mkCategoryDistribution 100 0 0 0).
Proof.
  intros Hp Ht. unfold FitnessCalculator.calculateCategoryDistribution.
  rewrite Hp. cbn [foldl]. unfold FitnessCalculator.countInstance. rewrite Ht.
  cbn [foldl]. unfold FitnessCalculator.countType.
  rewrite bool_decide_true by done.
  cbn [n_vegetable n_medicinal n_aromatic n_ornamental].
  rewrite !sumR_cons, sumR_nil.
  replace (0 + 1 + (0 + (0 + (0 + 0)))) with 1 by lra.
  decide_cmp.
  rewrite newCategoryDistribution_ok by lra.
  do 2 f_equal; lra.
Qed.

Lemma diversity_single_vegetable (ind : Individual) (inst : PlantInstance) :
  plants ind = [inst] → type (plant inst) = ["vegetable"] →
  FitnessCalculator.calculateDiversityBonus ind = inr 0.
Proof.
  intros Hp Ht. unfold FitnessCalculator.calculateDiversityBonus.
  rewrite (distribution_single_vegetable ind inst Hp Ht).
  change (inr ?d ≫= ?f) with (f d). cbv beta.
  cbn [vegetable medicinal aromatic ornamental List.filter].
  unfold Num.gtb. decide_cmp. cbn [foldl].
  unfold FitnessCalculator.entropyStep, Num.log2.
  replace (100 / 100) with 1 by lra. rewrite ln_1.
  unfold ok. f_equal. lra.
Qed.

Lemma diversity_oneTomate :
  FitnessCalculator.calculateDiversityBonus oneTomate = inr 0.
Proof. by apply (diversity_single_vegetable oneTomate (tomateAt 0.5 0.5)). Qed.

Lemma validateMetric_ok (v : R) (name : string) :
  0 <= v <= 1 → MetricsM.validateMetric v name = inr v.
Proof.
  intros H. unfold MetricsM.validateMetric, Num.gtb. by decide_cmp.
Qed.

Lemma Metrics_new_ok (d : MetricsData) (w : Weights) :
  0 <= dCEE d <= 1 → 0 <= dPSRNT d <= 1 → 0 <= dEH d <= 1 → 0 <= dUE d <= 1 →
  MetricsM.new d w
  = inr (mkMetrics (dCEE d) (dPSRNT d) (dEH d) (dUE d)
           (MetricsM.calculateFitness (dCEE d) (dPSRNT d) (dEH d) (dUE d) w)).
Proof.
  intros. unfold MetricsM.new. by rewrite !validateMetric_ok.
Qed.

Lemma calculateEH_oneTomate : FitnessCalculator.calculateEH (waterConfig 100) oneTomate = 1.
Proof.
  rewrite calculateEH_curve by (simpl; lra).
  unfold Ind.totalWeeklyWater, oneTomate, waterConfig. simpl.
  rewrite sumR_cons, sumR_nil. unfold Instance.totalWeeklyWater. simpl.
  unfold ehCurve, Num.gtb, Num.geb. decide_cmp. simpl. lra.
Qed.

Lemma calculateUE_oneTomate : FitnessCalculator.calculateUE oneTomate = 5 / 14.
Proof.
  unfold FitnessCalculator.calculateUE, Ind.usedArea, totalArea, oneTomate. simpl.
  rewrite sumR_cons, sumR_nil. unfold Instance.totalArea. simpl.
  unfold Num.geb. decide_cmp. simpl. decide_cmp. lra.
Qed.

Lemma calculate_oneTomate :
  FitnessCalculator.calculate (waterConfig 100) oneTomate
  = inr (mkMetrics 1 0 1 (5 / 14) (47 / 140)).
Proof.
  unfold FitnessCalculator.calculate.
  unfold FitnessCalculator.calculatePSRNT.
  cbn [desiredCategoryDistribution waterConfig].
  rewrite diversity_oneTomate.
  change (inr 0 ≫= ?f) with (f 0). cbv beta.
  rewrite calculateEH_oneTomate, calculateUE_oneTomate.
  assert (Hc : FitnessCalculator.calculateCEE (waterConfig 100) oneTomate = 1).
  { unfold FitnessCalculator.calculateCEE. simpl. lra. }
  rewrite Hc.
  rewrite Metrics_new_ok by (simpl; lra).
  unfold MetricsM.calculateFitness. simpl. do 2 f_equal. lra.
Qed.

Lemma validateMetric_inv (v : R) (name : string) (r : R) :
  MetricsM.validateMetric v name = inr r → r = v ∧ 0 <= v <= 1.
Proof.
  unfold MetricsM.validateMetric, Num.gtb. cases_cmp; simpl; intros H; try done.
  inversion H. lra.
Qed.

Lemma Metrics_new_inv (d : MetricsData) (w : Weights) (m : Metrics) :
  MetricsM.new d w = inr m →
  m = mkMetrics (dCEE d) (dPSRNT d) (dEH d) (dUE d)
        (MetricsM.calculateFitness (dCEE d) (dPSRNT d) (dEH d) (dUE d) w)
  ∧ 0 <= dCEE d <= 1 ∧ 0 <= dPSRNT d <= 1 ∧ 0 <= dEH d <= 1 ∧ 0 <= dUE d <= 1.
Proof.
  unfold MetricsM.new. intros H.
  destruct (MetricsM.validateMetric (dCEE d) "CEE") as [|c] eqn:H1; [done|].
  destruct (MetricsM.validateMetric (dPSRNT d) "PSRNT") as [|p] eqn:H2; [done|].
  destruct (MetricsM.validateMetric (dEH d) "EH") as [|e] eqn:H3; [done|].
  destruct (MetricsM.validateMetric (dUE d) "UE") as [|u] eqn:H4; [done|].
  apply validateMetric_inv in H1 as [-> ?], H2 as [-> ?], H3 as [-> ?], H4 as [-> ?].
  simpl in H. inversion H. done.
Qed.

Lemma calculate_inv (cfg : FitnessConfig) (ind : Individual) (m : Metrics) :
  FitnessCalculator.calculate cfg ind = inr m →
  ∃ psrnt, FitnessCalculator.calculatePSRNT cfg ind = inr psrnt
    ∧ MetricsM.new (mkMetricsData (FitnessCalculator.calculateCEE cfg ind) psrnt
                      (FitnessCalculator.calculateEH cfg ind)
                      (FitnessCalculator.calculateUE ind))
        (OBJECTIVE_WEIGHTS (objective cfg)) = inr m.
Proof.
  unfold FitnessCalculator.calculate. intros H.
  destruct (FitnessCalculator.calculatePSRNT cfg ind) as [|psrnt]; [done|].
  by exists psrnt.
Qed.

Lemma appliedWeights_row (o : Objective.t) :
  appliedWeights (OBJECTIVE_WEIGHTS o)
  = match o with Objective.alimenticio => 0.80 | _ => 0.75 end.
Proof. destruct o; unfold appliedWeights; simpl; lra. Qed.

Lemma calculateCS_nonneg (ind : Individual) : 0 <= Spec.calculateCS ind.
Proof.
  unfold Spec.calculateCS. case_bool_decide; [lra|]. apply Rmax_l.
Qed.

Lemma calculateBSN_lower (ind : Individual) : 0.4 <= Spec.calculateBSN ind.
Proof.
  unfold Spec.calculateBSN. repeat case_bool_decide; try lra. apply Rmax_l.
Qed.

Lemma weights_row_total (o : Objective.t) :
  wCEE (OBJECTIVE_WEIGHTS o) + wPSRNT (OBJECTIVE_WEIGHTS o) + wEH (OBJECTIVE_WEIGHTS o)
  + wUE (OBJECTIVE_WEIGHTS o) + wCS (OBJECTIVE_WEIGHTS o) + wBSN (OBJECTIVE_WEIGHTS o) = 1
  ∧ 0.10 <= wCS (OBJECTIVE_WEIGHTS o) ∧ 0.10 <= wBSN (OBJECTIVE_WEIGHTS o).
Proof. destruct o; simpl; lra. Qed.

(** C1 (code defect).  The evaluator announces six metrics and every weight
    row totals 1 over its six columns, but for every evaluated individual
    the stored fitness is the sum of the four terms CEE, PSRNT, EH and UE
    only.  The CS and BSN columns are never applied: the weights in use total
    0.80 (alimenticio) or 0.75 (the other objectives), and the stored fitness
    is strictly below the six-metric weighted sum. *)
Theorem C1_fitness_omits_CS_BSN (cfg : FitnessConfig) (ind : Individual) (m : Metrics) :
  FitnessCalculator.calculate cfg ind = inr m →
  fitness m
  = wCEE (OBJECTIVE_WEIGHTS (objective cfg)) * CEE m
    + wPSRNT (OBJECTIVE_WEIGHTS (objective cfg)) * PSRNT m
    + wEH (OBJECTIVE_WEIGHTS (objective cfg)) * EH m
    + wUE (OBJECTIVE_WEIGHTS (objective cfg)) * UE m
  ∧ CEE m = FitnessCalculator.calculateCEE cfg ind
  ∧ EH m = FitnessCalculator.calculateEH cfg ind
  ∧ UE m = FitnessCalculator.calculateUE ind
  ∧ wCEE (OBJECTIVE_WEIGHTS (objective cfg)) + wPSRNT (OBJECTIVE_WEIGHTS (objective cfg))
    + wEH (OBJECTIVE_WEIGHTS (objective cfg)) + wUE (OBJECTIVE_WEIGHTS (objective cfg))
    + wCS (OBJECTIVE_WEIGHTS (objective cfg)) + wBSN (OBJECTIVE_WEIGHTS (objective cfg))
    = 1
  ∧ appliedWeights (OBJECTIVE_WEIGHTS (objective cfg))
    = match objective cfg with Objective.alimenticio => 0.80 | _ => 0.75 end
  ∧ fitness m
    < Spec.fitness (OBJECTIVE_WEIGHTS (objective cfg)) m
        (Spec.calculateCS ind) (Spec.calculateBSN ind).
Proof.
  intros H. apply calculate_inv in H as (psrnt & _ & H).
  apply Metrics_new_inv in H as [-> _]. cbn [fitness CEE PSRNT EH UE dCEE dPSRNT dEH dUE].
  destruct (weights_row_total (objective cfg)) as (Hrow & Hcs & Hbsn).
  split; [reflexivity|]. split; [reflexivity|]. split; [reflexivity|].
  split; [reflexivity|]. split; [exact Hrow|]. split; [apply appliedWeights_row|].
  unfold Spec.fitness, MetricsM.calculateFitness.
  cbn [fitness CEE PSRNT EH UE].
  pose proof (calculateCS_nonneg ind). pose proof (calculateBSN_lower ind). nra.
Qed.

Lemma C1_fitness_omits_CS_BSN_witness :
  FitnessCalculator.calculate (waterConfig 100) oneTomate
  = inr (mkMetrics 1 0 1 (5 / 14) (47 / 140))
  ∧ 47 / 140
    < Spec.fitness (OBJECTIVE_WEIGHTS Objective.alimenticio)
        (mkMetrics 1 0 1 (5 / 14) (47 / 140))
        (Spec.calculateCS oneTomate) (Spec.calculateBSN oneTomate).
Proof.
  split; [exact calculate_oneTomate|].
  exact (proj2 (proj2 (proj2 (proj2 (proj2 (proj2
    (C1_fitness_omits_CS_BSN (waterConfig 100) oneTomate _ calculate_oneTomate))))))).
Defined.

(** C9.  Whenever the evaluator returns the metrics of an individual, each
    stored sub-metric and the aggregated fitness lie in [0, 1]. *)
Theorem C9_metrics_in_unit_interval (cfg : FitnessConfig) (ind : Individual) (m : Metrics) :
  FitnessCalculator.calculate cfg ind = inr m →
  0 <= CEE m <= 1 ∧ 0 <= PSRNT m <= 1 ∧ 0 <= EH m <= 1 ∧ 0 <= UE m <= 1
  ∧ 0 <= fitness m <= 1.
Proof.
  intros H. apply calculate_inv in H as (psrnt & _ & H).
  apply Metrics_new_inv in H as (-> & Hc & Hp & He & Hu). simpl in *.
  repeat split; try lra;
    unfold MetricsM.calculateFitness; destruct (objective cfg); simpl; nra.
Qed.

Lemma C9_metrics_in_unit_interval_witness :
  FitnessCalculator.calculate (waterConfig 100) oneTomate
  = inr (mkMetrics 1 0 1 (5 / 14) (47 / 140))
  ∧ 0 <= 47 / 140 <= 1.
Proof.
  split; [exact calculate_oneTomate|].
  exact (proj2 (proj2 (proj2 (proj2
    (C9_metrics_in_unit_interval (waterConfig 100) oneTomate _ calculate_oneTomate))))).
Defined.

(** ** Computations over the random stream *)

Lemma bind_run {A B} (m : M A) (k : A → M B) (s : RngState) :
  (m ≫= k) s
  = match m s with
    | Returned a s' => k a s'
    | Raised e => Raised e
    | Diverged => Diverged
    end.
Proof. reflexivity. Qed.

Lemma bind_returned {A B} (m : M A) (k : A → M B) s b s' :
  (m ≫= k) s = Returned b s' ↔ ∃ a s1, m s = Returned a s1 ∧ k a s1 = Returned b s'.
Proof.
  rewrite bind_run. split.
  - destruct (m s) as [a s1| |]; try done. intros H. by exists a, s1.
  - intros (a & s1 & -> & H). done.
Qed.

Lemma ret_returned {A} (a b : A) s s' :
  (mret a : M A) s = Returned b s' ↔ b = a ∧ s' = s.
Proof. split; [by inversion 1 | by intros [-> ->]]. Qed.

Lemma rng_returns s : ∃ r s', rng s = Returned r s'.
Proof. unfold rng. destruct (rngCall s) as [r s']. by exists r, s'. Qed.

Lemma total_ret {A} (a : A) : total (mret a : M A).
Proof. intros s. by exists a, s. Qed.

Lemma total_bind {A B} (m : M A) (k : A → M B) :
  total m → (∀ a, total (k a)) → total (m ≫= k).
Proof.
  intros Hm Hk s. destruct (Hm s) as (a & s1 & Ha). destruct (Hk a s1) as (b & s2 & Hb).
  exists b, s2. rewrite bind_run, Ha. done.
Qed.

Lemma total_rng : total rng.
Proof. intros s. apply rng_returns. Qed.

Lemma total_forM {A B} (body : B → A → M B) (l : list A) (acc : B) :
  (∀ acc a, total (body acc a)) → total (forM body l acc).
Proof.
  intros Hb. revert acc. induction l as [|a l IH]; intros acc; simpl.
  - apply total_ret.
  - apply total_bind; [apply Hb | intros acc'; apply IH].
Qed.

(** ** Uniform crossover (C5) *)

Lemma total_crossoverStep parent1 parent2 children i :
  total (GeneticAlgorithm.crossoverStep parent1 parent2 children i).
Proof.
  unfold GeneticAlgorithm.crossoverStep. destruct children as [c1 c2].
  apply total_bind; [apply total_rng|]. intros r.
  destruct (r <? 0.5); apply total_ret.
Qed.

Lemma uniformCrossover_dimensions (parent1 parent2 : Individual) (s : RngState) :
  ∃ child1 child2 s',
    GeneticAlgorithm.uniformCrossover parent1 parent2 s = Returned (child1, child2) s'
    ∧ dimensions child1 = dimensions parent1
    ∧ dimensions child2 = dimensions parent2.
Proof.
  unfold GeneticAlgorithm.uniformCrossover.
  destruct (bool_decide _ || bool_decide _).
  - by exists (Ind.clone parent1), (Ind.clone parent2), s.
  - rewrite bind_run.
    destruct (total_forM (GeneticAlgorithm.crossoverStep parent1 parent2)
                (seq 0 (Nat.max (length (plants parent1)) (length (plants parent2))))
                ([], []) (total_crossoverStep parent1 parent2) s) as (ch & s' & ->).
    by eexists _, _, s'.
Qed.

(** C5 (amended).  Uniform crossover always returns two children; the first
    has the dimensions of the first parent and the second has the dimensions
    of the second parent. *)
Theorem C5_children_dimensions (parent1 parent2 : Individual) (s : RngState) :
  ∃ child1 child2 s',
    GeneticAlgorithm.uniformCrossover parent1 parent2 s = Returned (child1, child2) s'
    ∧ dimensions child1 = dimensions parent1
    ∧ dimensions child2 = dimensions parent2.
Proof. apply uniformCrossover_dimensions. Qed.

(** C5, counterexample: crossing a 2 m × 2 m layout with a 3 m × 1 m layout
    (seed 42) returns a second child of 3 m × 1 m, not of the first parent's
    2 m × 2 m. *)
Lemma C5_counterexample :
  ∃ child1 child2 s',
    GeneticAlgorithm.uniformCrossover oneTomate wideTomate (seededRandom 42)
    = Returned (child1, child2) s'
    ∧ dimensions child2 ≠ dimensions oneTomate.
Proof.
  destruct (uniformCrossover_dimensions oneTomate wideTomate (seededRandom 42))
    as (c1 & c2 & s' & H & _ & H2).
  exists c1, c2, s'. split; [done|]. rewrite H2. simpl.
  intros Heq. injection Heq as Hw _. lra.
Qed.

(** ** Sorting and elitist replacement (C10) *)

Lemma insertDesc_perm {A} (key : A → R) (a : A) (l : list A) :
  insertDesc key a l ≡ₚ a :: l.
Proof.
  induction l as [|b l IH]; simpl; [done|].
  destruct (key a <? key b); [|done].
  rewrite IH. apply Permutation_swap.
Qed.

Lemma sortDesc_perm {A} (key : A → R) (l : list A) : sortDesc key l ≡ₚ l.
Proof.
  induction l as [|a l IH]; simpl; [done|].
  unfold sortDesc in *. simpl. rewrite insertDesc_perm. by rewrite IH.
Qed.

Lemma insertDesc_descending {A} (key : A → R) (a : A) (l : list A) :
  descending key l → descending key (insertDesc key a l).
Proof.
  unfold descending. induction 1 as [|b l Hl IH Hb]; simpl.
  - repeat constructor.
  - destruct (key a <? key b) eqn:Hc.
    + apply ltb_lt in Hc. constructor; [done|].
      rewrite insertDesc_perm. constructor; [lra | done].
    + apply ltb_ge in Hc. constructor; [by constructor|].
      constructor; [done|]. eapply Forall_impl; [exact Hb|]. simpl. intros; lra.
Qed.

Lemma sortDesc_descending {A} (key : A → R) (l : list A) :
  descending key (sortDesc key l).
Proof.
  induction l as [|a l IH]; [constructor|].
  apply insertDesc_descending, IH.
Qed.

Lemma foldl_Rmax_upper (l : list Individual) (m : R) :
  Forall (λ b, Ind.fitness b <= m) l →
  foldl (λ m ind, Rmax m (Ind.fitness ind)) m l = m.
Proof.
  induction l as [|b l IH] using rev_ind; [done|].
  rewrite Forall_app, Forall_singleton. intros [H1 H2].
  rewrite foldl_snoc, IH by done. apply Rmax_left. exact H2.
Qed.

Lemma maxFitness_head (a : Individual) (l' : list Individual) :
  Forall (λ b, Ind.fitness b <= Ind.fitness a) l' →
  GeneticAlgorithm.maxFitness (a :: l') = Some (Ind.fitness a).
Proof.
  unfold GeneticAlgorithm.maxFitness. intros H. f_equal. by apply foldl_Rmax_upper.
Qed.

Lemma maxFitness_attained (l : list Individual) (m : R) :
  GeneticAlgorithm.maxFitness l = Some m → ∃ ind, ind ∈ l ∧ Ind.fitness ind = m.
Proof.
  destruct l as [|a l]; [done|]. simpl. intros [= <-].
  induction l as [|b l IH] using rev_ind.
  - exists a. split; [left | done].
  - rewrite foldl_snoc. destruct IH as (ind & Hin & Hm).
    unfold Rmax. destruct (Rle_dec _ _).
    + exists b. split; [|done]. rewrite app_comm_cons. apply elem_of_app. right. left.
    + exists ind. split; [|done]. rewrite app_comm_cons. apply elem_of_app. by left.
Qed.

Lemma maxFitness_upper (l : list Individual) (ind : Individual) :
  ind ∈ l → ∃ m, GeneticAlgorithm.maxFitness l = Some m ∧ Ind.fitness ind <= m.
Proof.
  destruct l as [|a l]; [by intros ?%elem_of_nil|]. intros Hin.
  eexists. split; [reflexivity|].
  revert a ind Hin. induction l as [|b l IH] using rev_ind; intros a ind Hin.
  - apply list_elem_of_singleton in Hin as ->. simpl. lra.
  - rewrite foldl_snoc. rewrite app_comm_cons in Hin.
    apply elem_of_app in Hin as [Hin|Hin].
    + specialize (IH a ind Hin). etrans; [exact IH|]. apply Rmax_l.
    + apply list_elem_of_singleton in Hin as ->. apply Rmax_r.
Qed.

Lemma elitistReplacement_max (cfg : GAConfig) (parents offspring : list Individual) :
  length parents = populationSize cfg →
  bestLe (GeneticAlgorithm.maxFitness parents)
    (GeneticAlgorithm.maxFitness (GeneticAlgorithm.elitistReplacement cfg parents offspring)).
Proof.
  intros Hlen. unfold bestLe, GeneticAlgorithm.elitistReplacement. rewrite <- Hlen.
  destruct parents as [|a parents]; [done|].
  pose proof (sortDesc_perm Ind.fitness ((a :: parents) ++ offspring)) as Hperm.
  pose proof (sortDesc_descending Ind.fitness ((a :: parents) ++ offspring)) as Hdesc.
  destruct (sortDesc Ind.fitness ((a :: parents) ++ offspring)) as [|h t] eqn:Hs.
  { apply Permutation_nil_l in Hperm. done. }
  apply StronglySorted_inv in Hdesc as [_ Hall].
  cbn [length take].
  rewrite (maxFitness_head h (take (length parents) t)) by by apply Forall_take.
  destruct (GeneticAlgorithm.maxFitness (a :: parents)) as [m|] eqn:Hm; [|done].
  apply maxFitness_attained in Hm as (ind & Hin & <-).
  assert (Hin' : ind ∈ h :: t).
  { rewrite Hperm. apply elem_of_app. by left. }
  apply elem_of_cons in Hin' as [->|Hin']; [lra|].
  rewrite Forall_forall in Hall. by apply Hall.
Qed.

Lemma nextGeneration_inv (fc : FitnessConfig) (cfg : GAConfig)
    (fuel : nat) (pool : list Plant) (constraints : GAConstraints)
    (population population' : list Individual) (s s' : RngState) :
  GeneticAlgorithm.nextGeneration fc cfg fuel pool constraints population s
  = Returned population' s' →
  ∃ offspring, population' = GeneticAlgorithm.elitistReplacement cfg population offspring.
Proof.
  unfold GeneticAlgorithm.nextGeneration. intros H.
  apply bind_returned in H as (selected & s1 & _ & H).
  apply bind_returned in H as (off1 & s2 & _ & H).
  apply bind_returned in H as (off2 & s3 & _ & H).
  apply bind_returned in H as (off3 & s4 & _ & H).
  apply ret_returned in H as [-> _]. by exists off3.
Qed.

Lemma Zfloor_draw_Z (a z : Z) :
  Zfloor (IZR a / 233280 * IZR z) = (a * z / 233280)%Z.
Proof.
  apply Zfloor_eq.
  pose proof (Z.div_mod (a * z) 233280 ltac:(lia)) as Hdm.
  pose proof (Z.mod_pos_bound (a * z) 233280 ltac:(lia)) as [Hlo Hhi].
  set (q := (a * z / 233280)%Z) in *. set (r := (a * z mod 233280)%Z) in *.
  replace (IZR a / 233280 * IZR z) with (IZR (a * z) / 233280)
    by (rewrite mult_IZR; field).
  rewrite Hdm, plus_IZR, mult_IZR.
  apply IZR_le in Hlo. apply IZR_lt in Hhi.
  split.
  - apply (Rmult_le_reg_r 233280); [lra|].
    replace ((233280 * IZR q + IZR r) / 233280 * 233280)
      with (233280 * IZR q + IZR r) by field. lra.
  - apply (Rmult_lt_reg_r 233280); [lra|].
    replace ((233280 * IZR q + IZR r) / 233280 * 233280)
      with (233280 * IZR q + IZR r) by field. lra.
Qed.

Lemma Zfloor_draw (a : Z) (n : nat) :
  Zfloor (IZR a / 233280 * INR n) = (a * Z.of_nat n / 233280)%Z.
Proof. rewrite INR_IZR_INZ. apply Zfloor_draw_Z. Qed.

(** Normalise the integer parts of a goal: LCG states and array indices. *)
Ltac compute_lcg :=
  repeat match goal with
  | |- context [lcgNext ?k] =>
      let v := eval vm_compute in (lcgNext k) in change (lcgNext k) with v
  end.

Ltac compute_index :=
  repeat match goal with
  | |- context [Z.to_nat ?z] =>
      let v := eval vm_compute in (Z.to_nat z) in
      progress change (Z.to_nat z) with v
  end.

Lemma mret_run {A} (a : A) (s : RngState) : (mret a : M A) s = Returned a s.
Proof. reflexivity. Qed.

(** Run the binds of a computation whose draws are already decided. *)
Ltac mrun := repeat (progress (rewrite ?bind_run; cbn)).

(** C10.  In a generation of the run (the population has [populationSize]
    members), the maximum fitness of the population returned by the
    generation is at least the maximum fitness of the population it started
    from: elitist replacement keeps the best of parents and offspring. *)
Theorem C10_best_fitness_never_decreases (fc : FitnessConfig) (cfg : GAConfig)
    (fuel : nat) (pool : list Plant) (constraints : GAConstraints)
    (population population' : list Individual) (s s' : RngState) :
  length population = populationSize cfg →
  GeneticAlgorithm.nextGeneration fc cfg fuel pool constraints population s
  = Returned population' s' →
  bestLe (GeneticAlgorithm.maxFitness population)
    (GeneticAlgorithm.maxFitness population')
  ∧ length population' = populationSize cfg.
Proof.
  intros Hlen H. apply nextGeneration_inv in H as [offspring ->].
  split; [by apply elitistReplacement_max|].
  unfold GeneticAlgorithm.elitistReplacement.
  rewrite length_take, sortDesc_perm, length_app. lia.
Qed.


(** ** Plant selector (C3) *)

Lemma select_single (cfg : PlantSelectionConfig) (p : Plant) :
  (1 ≤ sel_maxSpecies cfg)%Z →
  PlantSelectorService.selectBestPlants cfg [p] = [p].
Proof.
  intros Hmax. unfold PlantSelectorService.selectBestPlants.
  assert (Hc : (if bool_decide
                   (Z.of_nat (length (PlantSelectorService.filterBySeason cfg
                      (PlantSelectorService.filterByUserPreferences cfg [p])))
                    < sel_maxSpecies cfg)%Z
                then [p]
                else PlantSelectorService.filterBySeason cfg
                       (PlantSelectorService.filterByUserPreferences cfg [p])) = [p]).
  { case_bool_decide as Hlt; [done|].
    unfold PlantSelectorService.filterBySeason, PlantSelectorService.filterByUserPreferences in *.
    destruct (sel_season cfg) as [[]|]; destruct (sel_desiredPlantIds cfg) as [[|d ds]|];
      try done; simpl in *; case_bool_decide; simpl in *; try done; try lia. }
  rewrite Hc. simpl.
  unfold PlantSelectorService.greedySelection. simpl.
  rewrite !(bool_decide_false (sel_maxSpecies cfg ≤ Z.of_nat 0)%Z) by lia. simpl.
  rewrite (bool_decide_true (id p = id p)) by done. simpl.
  repeat case_bool_decide; done.
Qed.

Lemma filter_unique_id (catalogue : list Plant) (p : Plant) :
  NoDup (id <$> catalogue) → p ∈ catalogue →
  List.filter (λ plant, bool_decide (id plant ∈ [id p])) catalogue = [p].
Proof.
  induction catalogue as [|q l IH]; [by intros _ ?%elem_of_nil|].
  rewrite fmap_cons, NoDup_cons. intros [Hq Hl] Hin. simpl.
  apply elem_of_cons in Hin as [->|Hin].
  - rewrite bool_decide_true by (apply list_elem_of_singleton; done). f_equal.
    clear IH Hl. induction l as [|r l IH]; [done|]. simpl.
    rewrite fmap_cons in Hq.
    rewrite bool_decide_false.
    + apply IH. intros H. apply Hq. by right.
    + rewrite list_elem_of_singleton. intros Heq. apply Hq. rewrite Heq. left.
  - rewrite bool_decide_false; [by apply IH|].
    rewrite list_elem_of_singleton. intros Heq. apply Hq. rewrite Heq.
    apply list_elem_of_fmap. by exists p.
Qed.

Lemma select_max_one (cfg : PlantSelectionConfig) (catalogue : list Plant) (p : Plant) :
  NoDup (id <$> catalogue) → p ∈ catalogue →
  sel_desiredPlantIds cfg = Some [id p] → sel_maxSpecies cfg = 1%Z →
  PlantSelectorService.selectBestPlants cfg catalogue = [p].
Proof.
  intros Hnd Hin Hd Hmax. unfold PlantSelectorService.selectBestPlants.
  assert (Hf : PlantSelectorService.filterBySeason cfg
                 (PlantSelectorService.filterByUserPreferences cfg catalogue) = [p]).
  { unfold PlantSelectorService.filterBySeason, PlantSelectorService.filterByUserPreferences.
    rewrite Hd, filter_unique_id by done. by destruct (sel_season cfg) as [[]|]. }
  rewrite Hf, Hmax. simpl.
  unfold PlantSelectorService.greedySelection. simpl. rewrite Hmax. simpl. done.
Qed.

Lemma greedy_pair (cfg : PlantSelectionConfig) (a b : PlantScore) :
  (2 ≤ sel_maxSpecies cfg)%Z →
  PlantSelectorService.greedySelection cfg [a; b] = [ps_plant a; ps_plant b].
Proof.
  intros Hmax. unfold PlantSelectorService.greedySelection.
  assert (Hgate : PlantSelectorService.greedyGate cfg [a; b] [] = [ps_plant a; ps_plant b]).
  { simpl. rewrite bool_decide_false by (simpl; lia). simpl.
    rewrite bool_decide_false by (simpl; lia).
    unfold PlantSelectorService.negativeStep.
    destruct (_ <? _); by rewrite bool_decide_true by lia. }
  rewrite Hgate. case_bool_decide; [|done]. simpl.
  rewrite bool_decide_false by (simpl in *; lia).
  unfold PlantSelectorService.includes. simpl.
  rewrite (bool_decide_true (id (ps_plant a) = id (ps_plant a))) by done. simpl.
  rewrite (bool_decide_true (id (ps_plant b) = id (ps_plant b))) by done.
  by rewrite orb_true_r.
Qed.

(** C3, counterexample: with the catalogue {Tomate, Albahaca}, [maxSpecies = 3]
    and [desiredPlantIds = {2}] (Tomate), one candidate remains after the
    filter, the selector falls back to the full catalogue, and the returned
    pool has two plants. *)
Lemma C3_counterexample :
  tomate ∈ [tomate; albahaca]
  ∧ sel_desiredPlantIds (pinTomate 3) = Some [id tomate]
  ∧ length (PlantSelectorService.selectBestPlants (pinTomate 3) [tomate; albahaca]) = 2%nat
  ∧ PlantSelectorService.selectBestPlants (pinTomate 3) [tomate; albahaca] ≠ [tomate].
Proof.
  split; [left|]. split; [reflexivity|].
  assert (Hlen : length (PlantSelectorService.selectBestPlants (pinTomate 3)
                           [tomate; albahaca]) = 2%nat).
  { unfold PlantSelectorService.selectBestPlants.
    change (PlantSelectorService.filterBySeason (pinTomate 3)
              (PlantSelectorService.filterByUserPreferences (pinTomate 3)
                 [tomate; albahaca])) with [tomate].
    rewrite bool_decide_true by (simpl; lia).
    unfold sortDesc. simpl.
    destruct (_ <? _); by rewrite greedy_pair by (simpl; lia). }
  split; [exact Hlen|]. intros Heq. rewrite Heq in Hlen. done.
Qed.

(** ** Spacing at placement (C2) *)

Lemma liftR_returned {A} (r : Result A) (s : RngState) (a : A) (s' : RngState) :
  liftR r s = Returned a s' ↔ r = inr a ∧ s' = s.
Proof.
  unfold liftR. destruct r as [e|b]; split; try done.
  - by intros [? _].
  - by intros [= -> ->].
  - by intros [[= ->] ->].
Qed.

Lemma hasAdequateSpacing_spaced (fc : FitnessConfig) (new existing : PlantInstance) :
  GeneticAlgorithm.hasAdequateSpacing fc new existing = true ↔ spaced fc new existing.
Proof.
  unfold GeneticAlgorithm.hasAdequateSpacing, spaced, gaMinimumDistance, Num.geb.
  by rewrite leb_le.
Qed.

Lemma hasCollision_false (fc : FitnessConfig) (new : PlantInstance)
    (others : list PlantInstance) :
  GeneticAlgorithm.hasCollision fc new others = false →
  Forall (spaced fc new) others
  ∧ Forall (λ existing, Instance.overlaps new existing = false) others.
Proof.
  unfold GeneticAlgorithm.hasCollision. induction others as [|e l IH]; simpl; [done|].
  intros [[Ho Hs]%orb_false_iff Hl]%orb_false_iff.
  apply negb_false_iff, hasAdequateSpacing_spaced in Hs.
  destruct (IH Hl). split; by constructor.
Qed.

Lemma repeatM_invariant {B} (I : B → Prop) (body : B → M B) (n : nat) :
  (∀ acc s acc' s', I acc → body acc s = Returned acc' s' → I acc') →
  ∀ acc s acc' s', I acc → repeatM body n acc s = Returned acc' s' → I acc'.
Proof.
  intros Hbody. induction n as [|n IH]; intros acc s acc' s' Hacc; simpl.
  - by intros [-> _]%ret_returned.
  - intros (mid & s1 & H1 & H2)%bind_returned. eapply IH; [|exact H2]. eauto.
Qed.

Lemma forM_invariant {A B} (I : B → Prop) (body : B → A → M B) (l : list A) :
  (∀ acc a s acc' s', I acc → body acc a s = Returned acc' s' → I acc') →
  ∀ acc s acc' s', I acc → forM body l acc s = Returned acc' s' → I acc'.
Proof.
  intros Hbody. induction l as [|a l IH]; intros acc s acc' s' Hacc; simpl.
  - by intros [-> _]%ret_returned.
  - intros (mid & s1 & H1 & H2)%bind_returned. eapply IH; [|exact H2]. eauto.
Qed.

Lemma placeAttempts_spaced (fc : FitnessConfig) (constraints : GAConstraints)
    (w h : R) (p : Plant) (remaining : nat) (st st' : Placement) (s s' : RngState) :
  PlacedInOrder fc (plantInstances st) →
  GeneticAlgorithm.placeAttempts fc constraints w h p remaining st s = Returned st' s' →
  PlacedInOrder fc (plantInstances st').
Proof.
  intros Hst. revert s. induction remaining as [|n IH]; intros s; simpl.
  - by intros [-> _]%ret_returned.
  - intros (r1 & s1 & _ & H)%bind_returned.
    apply bind_returned in H as (r2 & s2 & _ & H).
    apply bind_returned in H as (pos & s3 & _ & H).
    apply bind_returned in H as (inst & s4 & _ & H).
    destruct (negb (GeneticAlgorithm.hasCollision fc inst (plantInstances st)) && _ && _)
      eqn:Hok.
    + apply ret_returned in H as [-> _]. simpl.
      apply andb_true_iff in Hok as [[Hc%negb_true_iff _]%andb_true_iff _].
      constructor; [done|]. by apply hasCollision_false.
    + by eapply IH.
Qed.

Lemma createSmartIndividual_spaced (fc : FitnessConfig) (cfg : GAConfig)
    (pool : list Plant) (constraints : GAConstraints) (s : RngState)
    (ind : Individual) (s' : RngState) :
  GeneticAlgorithm.createSmartIndividual fc cfg pool constraints s = Returned ind s' →
  PlacedInOrder fc (plants ind).
Proof.
  unfold GeneticAlgorithm.createSmartIndividual.
  intros (r1 & s1 & _ & H)%bind_returned.
  apply bind_returned in H as (dims & s2 & _ & H).
  apply bind_returned in H as (r2 & s3 & _ & H).
  apply bind_returned in H as (shuffled & s4 & _ & H).
  apply bind_returned in H as (st & s5 & Hloop & H).
  apply ret_returned in H as [-> _]. simpl.
  eapply (forM_invariant (λ st, PlacedInOrder fc (plantInstances st))); [| |exact Hloop].
  - intros acc p t acc' t' Hacc. unfold GeneticAlgorithm.placeSpecies.
    intros (r & t1 & _ & Hrep)%bind_returned.
    eapply (repeatM_invariant (λ st, PlacedInOrder fc (plantInstances st)));
      [|exact Hacc|exact Hrep].
    intros ? ? ? ? ? ?. by eapply placeAttempts_spaced.
  - constructor.
Qed.

Lemma insertAttempts_spaced (fc : FitnessConfig) (constraints : GAConstraints)
    (p : Plant) (remaining : nat) (ind ind' : Individual) (s s' : RngState) :
  GeneticAlgorithm.insertAttempts fc constraints p remaining ind s = Returned ind' s' →
  plants ind' = plants ind
  ∨ ∃ new, plants ind' = plants ind ++ [new] ∧ plant new = p
           ∧ Forall (spaced fc new) (plants ind).
Proof.
  revert s. induction remaining as [|n IH]; intros s; simpl.
  - intros [-> _]%ret_returned. by left.
  - intros (r1 & s1 & _ & H)%bind_returned.
    apply bind_returned in H as (r2 & s2 & _ & H).
    apply bind_returned in H as (pos & s3 & _ & H).
    apply bind_returned in H as (inst & s4 & Hinst & H).
    destruct (negb (GeneticAlgorithm.hasCollision fc inst (plants ind)) && _ && _ && _)
      eqn:Hok.
    + apply ret_returned in H as [-> _]. simpl. right. exists inst.
      apply andb_true_iff in Hok as [[[Hc%negb_true_iff _]%andb_true_iff _]%andb_true_iff _].
      apply liftR_returned in Hinst as [Hinst _].
      unfold newPlantInstance in Hinst. simpl in Hinst. injection Hinst as <-.
      split; [done|]. split; [done|]. by apply hasCollision_false.
    + by eapply IH.
Qed.

Lemma insertMutation_spaced (fc : FitnessConfig) (cfg : GAConfig) (pool : list Plant)
    (constraints : GAConstraints) (ind ind' : Individual) (s s' : RngState) :
  GeneticAlgorithm.insertMutation fc cfg pool constraints ind s = Returned ind' s' →
  plants ind' = plants ind
  ∨ ∃ new, plants ind' = plants ind ++ [new] ∧ plant new ∈ pool
           ∧ Forall (spaced fc new) (plants ind).
Proof.
  unfold GeneticAlgorithm.insertMutation. case_bool_decide as Hfull.
  - intros [-> _]%ret_returned. by left.
  - intros (idx & s1 & _ & H)%bind_returned.
    destruct (pool !! idx) as [p|] eqn:Hp; [|done].
    apply insertAttempts_spaced in H as [H|(new & H1 & H2 & H3)]; [by left|].
    right. exists new. split; [done|]. split; [|done].
    rewrite H2. by eapply list_elem_of_lookup_2.
Qed.

Lemma moveAttempts_spaced (fc : FitnessConfig) (idx : nat) (plantToMove : PlantInstance)
    (remaining : nat) (ind ind' : Individual) (s s' : RngState) :
  GeneticAlgorithm.moveAttempts fc idx plantToMove remaining ind s = Returned ind' s' →
  plants ind' = plants ind
  ∨ ∃ moved, plants ind' = <[idx := moved]> (plants ind)
             ∧ plant moved = plant plantToMove
             ∧ Forall (spaced fc moved) (delete idx (plants ind)).
Proof.
  revert s. induction remaining as [|n IH]; intros s; simpl.
  - intros [-> _]%ret_returned. by left.
  - intros (r1 & s1 & _ & H)%bind_returned.
    apply bind_returned in H as (r2 & s2 & _ & H).
    apply bind_returned in H as (pos & s3 & _ & H).
    apply bind_returned in H as (inst & s4 & Hinst & H).
    destruct (negb (GeneticAlgorithm.hasCollision fc inst (delete idx (plants ind))) && _)
      eqn:Hok.
    + apply ret_returned in H as [-> _]. simpl. right. exists inst.
      apply andb_true_iff in Hok as [Hc%negb_true_iff _].
      apply liftR_returned in Hinst as [Hinst _].
      unfold newPlantInstance in Hinst. simpl in Hinst.
      case_bool_decide as Hrot; [|done]. injection Hinst as <-.
      split; [done|]. split; [done|]. by apply hasCollision_false.
    + by eapply IH.
Qed.

Lemma positionMutation_spaced (fc : FitnessConfig) (ind ind' : Individual)
    (s s' : RngState) :
  GeneticAlgorithm.positionMutation fc ind s = Returned ind' s' →
  plants ind' = plants ind
  ∨ ∃ idx old moved, plants ind !! idx = Some old
             ∧ plants ind' = <[idx := moved]> (plants ind)
             ∧ plant moved = plant old
             ∧ Forall (spaced fc moved) (delete idx (plants ind)).
Proof.
  unfold GeneticAlgorithm.positionMutation. case_bool_decide as Hempty.
  - intros [-> _]%ret_returned. by left.
  - intros (idx & s1 & _ & H)%bind_returned.
    destruct (plants ind !! idx) as [old|] eqn:Hold; [|done].
    apply moveAttempts_spaced in H as [H|(moved & H1 & H2 & H3)]; [by left|].
    right. by exists idx, old, moved.
Qed.

Lemma rng_lcg (state : Z) :
  rng (Lcg state) = Returned (IZR (lcgNext state) / 233280) (Lcg (lcgNext state)).
Proof. reflexivity. Qed.

Lemma newPosition_ok (px py : R) :
  0 <= px → 0 <= py → newPosition px py = inr (mkPosition px py).
Proof. intros. unfold newPosition. by decide_cmp. Qed.

(** An attempt of the insert mutation that succeeds at once. *)
Lemma insertAttempts_first (fc : FitnessConfig) (constraints : GAConstraints)
    (p : Plant) (n : nat) (ind : Individual) (s s1 s2 : RngState) (r1 r2 : R) :
  rng s = Returned r1 s1 → rng s1 = Returned r2 s2 →
  let margin := sqrt (size p) in
  let px := margin + r1 * (width (dimensions ind) - 2 * margin) in
  let py := margin + r2 * (height (dimensions ind) - 2 * margin) in
  let inst := mkPlantInstance p (mkPosition px py) margin margin 0 pending in
  0 <= px → 0 <= py →
  GeneticAlgorithm.hasCollision fc inst (plants ind) = false →
  px + margin <= width (dimensions ind) → py + margin <= height (dimensions ind) →
  Ind.usedArea ind + margin * margin <= maxArea constraints * 0.85 →
  Ind.totalWeeklyWater ind + weeklyWatering p <= c_maxWaterWeekly constraints →
  GeneticAlgorithm.insertAttempts fc constraints p (S n) ind s
  = Returned (Ind.setPlants ind (plants ind ++ [inst])) s2.
Proof.
  intros Hr1 Hr2 margin px py inst Hx Hy Hcol Hw Hh Harea Hwater.
  cbn [GeneticAlgorithm.insertAttempts].
  rewrite bind_run, Hr1, bind_run, Hr2, bind_run.
  fold margin. fold px. fold py.
  rewrite newPosition_ok by done. cbn [liftR]. rewrite bind_run.
  unfold newPlantInstance. cbn [default]. rewrite bool_decide_true by set_solver.
  cbn [liftR ok]. fold margin. fold inst.
  rewrite Hcol.
  cbn [pi_width pi_height inst Instance.totalArea Instance.totalWeeklyWater plant negb andb].
  rewrite (proj2 (leb_le _ _) Hw), (proj2 (leb_le _ _) Hh).
  change (Instance.totalArea inst) with (margin * margin).
  change (Instance.totalWeeklyWater inst) with (weeklyWatering p).
  rewrite (proj2 (leb_le _ _) Harea), (proj2 (leb_le _ _) Hwater).
  reflexivity.
Qed.

Lemma leb_sqrt (a v : R) : 0 <= a → a ^ 2 <= v → (a <=? sqrt v) = true.
Proof.
  intros Ha Hv. apply leb_le. rewrite <- (sqrt_pow2 a Ha). by apply sqrt_le_1_alt.
Qed.

Lemma sqrt_lt_bound (v b : R) : 0 < b → v < b ^ 2 → sqrt v < b.
Proof.
  intros Hb Hv.
  destruct (Rle_dec 0 v) as [Hv0|Hv0].
  - rewrite <- (sqrt_pow2 b) by lra. apply sqrt_lt_1_alt. lra.
  - rewrite sqrt_neg_0 by lra. done.
Qed.

Lemma inserted_distance :
  2.2 <= Instance.distanceTo inserted (tomateAt 5.2 8.5) < 2.5.
Proof.
  unfold Instance.distanceTo, distanceTo, inserted, tomateAt. simpl. split.
  - apply leb_le, leb_sqrt; lra.
  - apply sqrt_lt_bound; lra.
Qed.

Lemma inserted_no_collision :
  GeneticAlgorithm.hasCollision (waterConfig 100) inserted [tomateAt 5.2 8.5] = false.
Proof.
  unfold GeneticAlgorithm.hasCollision. cbn [existsb].
  assert (Ho : Instance.overlaps inserted (tomateAt 5.2 8.5) = false).
  { unfold Instance.overlaps, inserted, tomateAt. simpl. by decide_cmp. }
  assert (Hs : GeneticAlgorithm.hasAdequateSpacing (waterConfig 100) inserted
                 (tomateAt 5.2 8.5) = true).
  { apply hasAdequateSpacing_spaced. unfold spaced, gaMinimumDistance.
    change (GeneticAlgorithm.getCompatibilityScore _ _ _) with 0.
    unfold GeneticAlgorithm.minDistance, Num.gtb. decide_cmp.
    pose proof inserted_distance as [Hd _].
    change (size (plant inserted)) with 1. change (size (plant (tomateAt 5.2 8.5))) with 1.
    rewrite sqrt_1. lra. }
  by rewrite Ho, Hs.
Qed.

Lemma insertMutation_plot :
  GeneticAlgorithm.insertMutation (waterConfig 100) soloConfig [tomate] plotLimits plot
    (seededRandom 42)
  = Returned (Ind.setPlants plot [tomateAt 5.2 8.5; inserted]) (Lcg 223713).
Proof.
  unfold GeneticAlgorithm.insertMutation, seededRandom.
  rewrite bool_decide_false by (simpl; lia).
  unfold randomIndex. rewrite !bind_run, rng_lcg.
  rewrite Zfloor_draw. compute_lcg. compute_index.
  cbn [mret M_ret lookup list_lookup].
  erewrite insertAttempts_first; [| apply rng_lcg | apply rng_lcg | ..].
  - compute_lcg. unfold inserted, plot, tomate. simpl. rewrite sqrt_1. reflexivity.
  - compute_lcg. simpl. rewrite sqrt_1. lra.
  - compute_lcg. simpl. rewrite sqrt_1. lra.
  - compute_lcg. cbn [plot plants dimensions width height size tomate].
    rewrite !sqrt_1. exact inserted_no_collision.
  - compute_lcg. simpl. rewrite sqrt_1. lra.
  - compute_lcg. simpl. rewrite sqrt_1. lra.
  - unfold Ind.usedArea. simpl. rewrite sumR_cons, sumR_nil, sqrt_1.
    unfold Instance.totalArea. simpl. lra.
  - unfold Ind.totalWeeklyWater. simpl. rewrite sumR_cons, sumR_nil.
    unfold Instance.totalWeeklyWater. simpl. lra.
Qed.

Lemma ga_lookup_symmetric (fc : FitnessConfig) (a b : string) :
  symmetricMatrix (compatibilityMatrix fc) →
  GeneticAlgorithm.getCompatibilityScore fc a b = specLookup (compatibilityMatrix fc) a b.
Proof.
  intros Hsym. unfold specLookup. rewrite <- (Hsym a b).
  unfold GeneticAlgorithm.getCompatibilityScore, matrix_get.
  destruct (compatibilityMatrix fc !! a) as [row|]; simpl; [|done].
  by destruct (row !! b).
Qed.

Lemma specLookup_symmetric (m : Matrix) (a b : string) :
  symmetricMatrix m → specLookup m a b = specLookup m b a.
Proof. intros Hsym. unfold specLookup. by rewrite (Hsym a b). Qed.

Lemma spaced_apart (fc : FitnessConfig) (new existing : PlantInstance) :
  symmetricMatrix (compatibilityMatrix fc) →
  spaced fc new existing → apart (compatibilityMatrix fc) new existing.
Proof.
  intros Hsym. unfold spaced, gaMinimumDistance, apart, placementMinimum.
  by rewrite ga_lookup_symmetric.
Qed.

Lemma apart_symmetric (m : Matrix) (a b : PlantInstance) :
  symmetricMatrix m → apart m a b → apart m b a.
Proof.
  intros Hsym. unfold apart, placementMinimum.
  rewrite (specLookup_symmetric m (species (plant a)) (species (plant b)) Hsym).
  unfold Instance.distanceTo, distanceTo.
  replace ((x (position b) - x (position a)) ^ 2 + (y (position b) - y (position a)) ^ 2)
    with ((x (position a) - x (position b)) ^ 2 + (y (position a) - y (position b)) ^ 2)
    by ring.
  lra.
Qed.

Lemma placed_pairwise (fc : FitnessConfig) (l : list PlantInstance) :
  symmetricMatrix (compatibilityMatrix fc) →
  PlacedInOrder fc l → pairwiseApart (compatibilityMatrix fc) l.
Proof.
  intros Hsym. induction 1 as [|l new Hl IH Hnew]; intros i j a b Hne Hi Hj.
  - by rewrite lookup_nil in Hi.
  - rewrite Forall_forall in Hnew.
    apply lookup_snoc_Some in Hi as [[Hil Hi]|[-> <-]];
      apply lookup_snoc_Some in Hj as [[Hjl Hj]|[-> <-]].
    + by eapply IH.
    + apply apart_symmetric; [done|]. apply spaced_apart; [done|].
      apply Hnew. by eapply list_elem_of_lookup_2.
    + apply spaced_apart; [done|]. apply Hnew. by eapply list_elem_of_lookup_2.
    + done.
Qed.

(** C2 (amended).  When the compatibility matrix records every pair in both
    directions, every two instances of a layout built by the initializer,
    and every instance placed by the insert or the relocate mutation together
    with each instance then present (for relocation: each other instance),
    are at centre distance at least base 2.0 m (compatibility < -0.5), 0.8 m
    (compatibility > 0.5) or 1.2 m (otherwise) plus half the square root of
    each plant's size. *)
Theorem C2_placement_spacing (fc : FitnessConfig) (cfg : GAConfig) (pool : list Plant)
    (constraints : GAConstraints) :
  symmetricMatrix (compatibilityMatrix fc) →
  (∀ s ind s',
     GeneticAlgorithm.createSmartIndividual fc cfg pool constraints s = Returned ind s' →
     pairwiseApart (compatibilityMatrix fc) (plants ind))
  ∧ (∀ ind s ind' s',
       GeneticAlgorithm.insertMutation fc cfg pool constraints ind s = Returned ind' s' →
       plants ind' = plants ind
       ∨ ∃ new, plants ind' = plants ind ++ [new] ∧ plant new ∈ pool
                ∧ Forall (apart (compatibilityMatrix fc) new) (plants ind))
  ∧ (∀ ind s ind' s',
       GeneticAlgorithm.positionMutation fc ind s = Returned ind' s' →
       plants ind' = plants ind
       ∨ ∃ idx old moved, plants ind !! idx = Some old
                ∧ plants ind' = <[idx := moved]> (plants ind)
                ∧ plant moved = plant old
                ∧ Forall (apart (compatibilityMatrix fc) moved)
                    (delete idx (plants ind))).
Proof.
  intros Hsym. split; [|split].
  - intros s ind s' Hrun. apply placed_pairwise; [done|].
    by eapply createSmartIndividual_spaced.
  - intros ind s ind' s' Hrun.
    apply insertMutation_spaced in Hrun as [H|(new & H1 & H2 & H3)]; [by left|].
    right. exists new. split; [done|]. split; [done|].
    eapply Forall_impl; [exact H3|]. intros e. by apply spaced_apart.
  - intros ind s ind' s' Hrun.
    apply positionMutation_spaced in Hrun as [H|(idx & old & moved & H1 & H2 & H3 & H4)];
      [by left|].
    right. exists idx, old, moved. split; [done|]. split; [done|]. split; [done|].
    eapply Forall_impl; [exact H4|]. intros e. by apply spaced_apart.
Qed.

Lemma symmetric_empty : symmetricMatrix ∅.
Proof. intros a b. unfold matrix_get. by rewrite !lookup_empty. Qed.

Lemma C2_placement_spacing_witness :
  symmetricMatrix (compatibilityMatrix (waterConfig 100))
  ∧ GeneticAlgorithm.insertMutation (waterConfig 100) soloConfig [tomate] plotLimits plot
      (seededRandom 42)
    = Returned (Ind.setPlants plot [tomateAt 5.2 8.5; inserted]) (Lcg 223713)
  ∧ (plants (Ind.setPlants plot [tomateAt 5.2 8.5; inserted]) = plants plot
     ∨ ∃ new, plants (Ind.setPlants plot [tomateAt 5.2 8.5; inserted]) = plants plot ++ [new]
              ∧ plant new ∈ [tomate]
              ∧ Forall (apart (compatibilityMatrix (waterConfig 100)) new) (plants plot)).
Proof.
  split; [exact symmetric_empty|]. split; [exact insertMutation_plot|].
  exact (proj1 (proj2 (C2_placement_spacing (waterConfig 100) soloConfig [tomate] plotLimits
                         symmetric_empty))
           plot (seededRandom 42) _ _ insertMutation_plot).
Defined.

Lemma hinojo_no_collision :
  GeneticAlgorithm.hasCollision oneWayConfig insertedHinojo [tomateAt 5.2 8.5] = false.
Proof.
  unfold GeneticAlgorithm.hasCollision. cbn [existsb].
  assert (Ho : Instance.overlaps insertedHinojo (tomateAt 5.2 8.5) = false).
  { unfold Instance.overlaps, insertedHinojo, inserted, tomateAt. simpl. by decide_cmp. }
  assert (Hs : GeneticAlgorithm.hasAdequateSpacing oneWayConfig insertedHinojo
                 (tomateAt 5.2 8.5) = true).
  { apply hasAdequateSpacing_spaced. unfold spaced, gaMinimumDistance.
    change (GeneticAlgorithm.getCompatibilityScore _ _ _) with 0.
    unfold GeneticAlgorithm.minDistance, Num.gtb. decide_cmp.
    pose proof inserted_distance as [Hd _].
    change (Instance.distanceTo insertedHinojo (tomateAt 5.2 8.5))
      with (Instance.distanceTo inserted (tomateAt 5.2 8.5)).
    change (size (plant insertedHinojo)) with 1.
    change (size (plant (tomateAt 5.2 8.5))) with 1.
    rewrite sqrt_1. lra. }
  by rewrite Ho, Hs.
Qed.

Lemma insertMutation_hinojo :
  GeneticAlgorithm.insertMutation oneWayConfig soloConfig [hinojo] plotLimits plot
    (seededRandom 42)
  = Returned (Ind.setPlants plot [tomateAt 5.2 8.5; insertedHinojo]) (Lcg 223713).
Proof.
  unfold GeneticAlgorithm.insertMutation, seededRandom.
  rewrite bool_decide_false by (simpl; lia).
  unfold randomIndex. rewrite !bind_run, rng_lcg.
  rewrite Zfloor_draw. compute_lcg. compute_index.
  cbn [mret M_ret lookup list_lookup].
  erewrite insertAttempts_first; [| apply rng_lcg | apply rng_lcg | ..].
  - compute_lcg. unfold insertedHinojo, inserted, plot, hinojo. simpl. rewrite sqrt_1.
    reflexivity.
  - compute_lcg. simpl. rewrite sqrt_1. lra.
  - compute_lcg. simpl. rewrite sqrt_1. lra.
  - compute_lcg. cbn [plot plants dimensions width height size hinojo].
    rewrite !sqrt_1. exact hinojo_no_collision.
  - compute_lcg. simpl. rewrite sqrt_1. lra.
  - compute_lcg. simpl. rewrite sqrt_1. lra.
  - unfold Ind.usedArea. simpl. rewrite sumR_cons, sumR_nil, sqrt_1.
    unfold Instance.totalArea. simpl. lra.
  - unfold Ind.totalWeeklyWater. simpl. rewrite sumR_cons, sumR_nil.
    unfold Instance.totalWeeklyWater. simpl. lra.
Qed.

(** C2, counterexample: with seed 42 the insert mutation places a tomato
    (size 1 m², neutral compatibility) about 2.35 m from the tomato already at
    (5.2, 8.5): closer than the Spacing Policy's minimum distance
    1.5 + 0.5 + 0.5 = 2.5 m.  With the matrix that records only
    (Tomate, Hinojo) = -1 it places a fennel at the same spot, although the
    pair is incompatible and even the base 2.0 m asks for 3 m. *)
Lemma C2_counterexample :
  (GeneticAlgorithm.insertMutation (waterConfig 100) soloConfig [tomate] plotLimits plot
     (seededRandom 42)
   = Returned (Ind.setPlants plot [tomateAt 5.2 8.5; inserted]) (Lcg 223713)
   ∧ Instance.distanceTo inserted (tomateAt 5.2 8.5)
     < PlantSpacingService.calculateMinimumDistance
         (compatibilityMatrix (waterConfig 100)) (plant inserted)
         (plant (tomateAt 5.2 8.5)))
  ∧ (GeneticAlgorithm.insertMutation oneWayConfig soloConfig [hinojo] plotLimits plot
       (seededRandom 42)
     = Returned (Ind.setPlants plot [tomateAt 5.2 8.5; insertedHinojo]) (Lcg 223713)
     ∧ ¬ symmetricMatrix (compatibilityMatrix oneWayConfig)
     ∧ Instance.distanceTo insertedHinojo (tomateAt 5.2 8.5)
       < placementMinimum (compatibilityMatrix oneWayConfig) insertedHinojo
           (tomateAt 5.2 8.5)).
Proof.
  split; [split|split; [|split]].
  - exact insertMutation_plot.
  - unfold PlantSpacingService.calculateMinimumDistance.
    change (PlantSpacingService.getCompatibilityScore _ _ _) with 0.
    unfold Num.gtb. decide_cmp.
    change (size (plant inserted)) with 1. change (size (plant (tomateAt 5.2 8.5))) with 1.
    rewrite sqrt_1. pose proof inserted_distance. lra.
  - exact insertMutation_hinojo.
  - intros Hsym. specialize (Hsym "Tomate" "Hinojo"). vm_compute in Hsym. discriminate Hsym.
  - unfold placementMinimum.
    change (specLookup _ _ _) with (-1).
    unfold placementBase. decide_cmp.
    change (Instance.distanceTo insertedHinojo (tomateAt 5.2 8.5))
      with (Instance.distanceTo inserted (tomateAt 5.2 8.5)).
    change (size (plant insertedHinojo)) with 1.
    change (size (plant (tomateAt 5.2 8.5))) with 1.
    rewrite sqrt_1. pose proof inserted_distance. lra.
Qed.

(** ** Reproducibility (C8) *)

Lemma timedOut_calm (cfg : GAConfig) (startTime : Z) (clock : Clock) :
  calm cfg startTime clock →
  ∃ clock', GeneticAlgorithm.timedOut cfg startTime clock = (false, clock')
            ∧ calm cfg startTime clock'.
Proof.
  unfold calm, GeneticAlgorithm.timedOut. destruct (timeout cfg) as [t|].
  - intros [->|Hn].
    + rewrite (proj2 (eqb_eq 0 0)) by done. exists clock. split; [done|]. by left.
    + destruct (t =? 0); [exists clock; split; [done|by right]|].
      exists (mkClock (readings clock) (S (reads clock))). simpl.
      split; [|by right]. f_equal. apply gtb_le, Hn.
  - intros _. by exists clock.
Qed.

Lemma evolve_calm (fc : FitnessConfig) (cfg : GAConfig) (fuel : nat) (pool : list Plant)
    (constraints : GAConstraints) (start1 start2 : Z) (remaining : nat) :
  ∀ (ls : GeneticAlgorithm.LoopState) (clock1 clock2 : Clock) (s : RngState),
  calm cfg start1 clock1 → calm cfg start2 clock2 →
  match GeneticAlgorithm.evolve fc cfg fuel pool constraints start1 remaining ls clock1 s,
        GeneticAlgorithm.evolve fc cfg fuel pool constraints start2 remaining ls clock2 s
  with
  | Returned (ls1, reason1, _) s1, Returned (ls2, reason2, _) s2 =>
      ls1 = ls2 ∧ reason1 = reason2 ∧ s1 = s2
  | Raised e1, Raised e2 => e1 = e2
  | Diverged, Diverged => True
  | _, _ => False
  end.
Proof.
  induction remaining as [|n IH]; intros ls clock1 clock2 s H1 H2.
  - simpl. done.
  - cbn [GeneticAlgorithm.evolve].
    destruct (timedOut_calm cfg start1 clock1 H1) as (c1 & -> & Hc1).
    destruct (timedOut_calm cfg start2 clock2 H2) as (c2 & -> & Hc2).
    rewrite !bind_run.
    destruct (GeneticAlgorithm.nextGeneration fc cfg fuel pool constraints
                (GeneticAlgorithm.population ls) s) as [population s'| |]; [|done..].
    destruct (if GeneticAlgorithm.improved _ _ then _ else _) as [bestFitness stalled].
    case_bool_decide; [done|].
    destruct (_ <? _); [done|].
    by apply IH.
Qed.

Lemma runM_calm (allPlants : list Plant) (fc : FitnessConfig) (cfg : GAConfig)
    (fuel : nat) (constraints : GAConstraints) (objective : Objective.t)
    (clock1 clock2 : Clock) (s : RngState) :
  withinTimeout cfg clock1 → withinTimeout cfg clock2 →
  sameRun (GeneticAlgorithm.runM allPlants fc cfg fuel constraints objective clock1 s)
    (GeneticAlgorithm.runM allPlants fc cfg fuel constraints objective clock2 s).
Proof.
  intros H1 H2. unfold GeneticAlgorithm.runM, dateNow. rewrite !bind_run.
  destruct (GeneticAlgorithm.initializePopulationHeuristic fc cfg _ constraints s)
    as [initial s1| |]; [|done..].
  rewrite !bind_run.
  destruct (liftR (GeneticAlgorithm.evaluate fc initial) s1) as [evaluated s2| |]; [|done..].
  rewrite !bind_run.
  pose proof (evolve_calm fc cfg fuel
                (GeneticAlgorithm.selectPlantsIntelligently allPlants fc cfg constraints objective)
                constraints (readings clock1 (reads clock1)) (readings clock2 (reads clock2))
                (maxGenerations cfg)
                (GeneticAlgorithm.mkLoopState evaluated
                   (GeneticAlgorithm.maxFitness evaluated) 0 [])
                (mkClock (readings clock1) (S (reads clock1)))
                (mkClock (readings clock2) (S (reads clock2))) s2 H1 H2) as Hev.
  destruct (GeneticAlgorithm.evolve fc cfg fuel _ constraints (readings clock1 _) _ _ _ s2)
    as [[[ls1 reason1] c1] t1| |];
  destruct (GeneticAlgorithm.evolve fc cfg fuel _ constraints (readings clock2 _) _ _ _ s2)
    as [[[ls2 reason2] c2] t2| |]; try done.
  destruct Hev as (-> & -> & ->).
  destruct (take 3 (sortDesc Ind.fitness (GeneticAlgorithm.population ls2))); simpl; done.
Qed.

(** C8 (amended).  With a seed configured, a run never reads [Math.random]:
    every draw comes from the LCG closure created from the seed.  Two runs on
    identical inputs whose wall clocks never exceed the configured timeout (in
    particular when no timeout is configured) end alike: the same exception,
    or identical [topSolutions], stopping reason, statistics and pool. *)
Theorem C8_seeded_runs_agree (allPlants : list Plant) (fc : FitnessConfig)
    (cfg : GAConfig) (fuel : nat) (constraints : GAConstraints)
    (objective : Objective.t) (seed0 : N) (random1 random2 : nat → R)
    (clock1 clock2 : Clock) :
  seed cfg = Some seed0 →
  withinTimeout cfg clock1 → withinTimeout cfg clock2 →
  sameRun
    (GeneticAlgorithm.run allPlants fc cfg fuel random1 clock1 constraints objective)
    (GeneticAlgorithm.run allPlants fc cfg fuel random2 clock2 constraints objective).
Proof.
  intros Hseed H1 H2. unfold GeneticAlgorithm.run. rewrite Hseed.
  by apply runM_calm.
Qed.

Lemma rng_draw (s : RngState) : rng s = Returned (draw s) (advance s).
Proof. unfold rng, draw, advance. by destruct (rngCall s). Qed.

Lemma draw_range (s : RngState) : goodRng s → 0 <= draw s < 1 ∧ goodRng (advance s).
Proof.
  destruct s as [state|draws next]; unfold draw, advance; simpl.
  - intros Hs. unfold lcgNext.
    pose proof (Z.rem_bound_pos (state * 9301 + 49297) 233280 ltac:(lia) ltac:(lia))
      as [Hlo Hhi].
    split; [|done]. apply IZR_le in Hlo. apply IZR_lt in Hhi. split.
    + apply Rmult_le_reg_r with 233280; [lra|].
      replace (IZR (Z.rem (state * 9301 + 49297) 233280) / 233280 * 233280)
        with (IZR (Z.rem (state * 9301 + 49297) 233280)) by field. lra.
    + apply Rmult_lt_reg_r with 233280; [lra|].
      replace (IZR (Z.rem (state * 9301 + 49297) 233280) / 233280 * 233280)
        with (IZR (Z.rem (state * 9301 + 49297) 233280)) by field. lra.
  - intros _. split; [|done]. destruct (base_fp (draws next)). lra.
Qed.

Lemma goodRng_iter (n : nat) (s : RngState) : goodRng s → goodRng (Nat.iter n advance s).
Proof.
  intros Hs. induction n as [|n IH]; [done|]. simpl. by apply draw_range.
Qed.

(** Attempts of the initializer in a plot too narrow or too low for the
    plant: every one fails the bounds check and two draws are consumed. *)
Lemma placeAttempts_no_room (fc : FitnessConfig) (constraints : GAConstraints)
    (w h : R) (p : Plant) (n : nat) (st : Placement) (s : RngState) :
  goodRng s →
  sqrt (size p) <= w → sqrt (size p) <= h →
  w < 2 * sqrt (size p) ∨ h < 2 * sqrt (size p) →
  GeneticAlgorithm.placeAttempts fc constraints w h p n st s
  = Returned st (Nat.iter (2 * n) advance s).
Proof.
  intros Hs Hw Hh Hroom. revert s Hs. induction n as [|n IH]; intros s Hs; [done|].
  replace (2 * S n)%nat with (S (S (2 * n))) by lia.
  rewrite !Nat.iter_succ_r.
  cbn [GeneticAlgorithm.placeAttempts].
  destruct (draw_range s Hs) as [Hr1 Hs1].
  destruct (draw_range (advance s) Hs1) as [Hr2 Hs2].
  pose proof (sqrt_pos (size p)) as Hm.
  set (m := sqrt (size p)) in *.
  rewrite bind_run, rng_draw, bind_run, rng_draw, bind_run.
  rewrite newPosition_ok by nra. cbn [liftR]. rewrite bind_run.
  unfold newPlantInstance. cbn [default]. rewrite bool_decide_true by left.
  cbn [liftR ok pi_width pi_height]. fold m.
  assert (Hb : (m + draw s * (w - 2 * m) + m <=? w)
               && (m + draw (advance s) * (h - 2 * m) + m <=? h) = false).
  { apply andb_false_iff. destruct Hroom; [left|right]; apply leb_gt; nra. }
  rewrite Hb. cbn [andb]. rewrite andb_false_r. cbn [andb]. by apply IH.
Qed.

(** An attempt of the initializer that succeeds at once. *)
Lemma placeAttempts_first (fc : FitnessConfig) (constraints : GAConstraints)
    (w h : R) (p : Plant) (n : nat) (st : Placement) (s : RngState) :
  let m := sqrt (size p) in
  let px := m + draw s * (w - 2 * m) in
  let py := m + draw (advance s) * (h - 2 * m) in
  let inst := mkPlantInstance p (mkPosition px py) m m 0 pending in
  0 <= px → 0 <= py →
  GeneticAlgorithm.hasCollision fc inst (plantInstances st) = false →
  px + m <= w → py + m <= h →
  usedArea st + m * m <= maxArea constraints * 0.85 →
  usedWater st + weeklyWatering p <= c_maxWaterWeekly constraints →
  maxBudget constraints = None →
  GeneticAlgorithm.placeAttempts fc constraints w h p (S n) st s
  = Returned (mkPlacement (plantInstances st ++ [inst]) (usedArea st + m * m)
                (usedWater st + weeklyWatering p) (usedBudget st + size p * 50))
      (advance (advance s)).
Proof.
  intros m px py inst Hx Hy Hcol Hw Hh Harea Hwater Hbudget.
  cbn [GeneticAlgorithm.placeAttempts].
  rewrite bind_run, rng_draw, bind_run, rng_draw, bind_run.
  fold m. fold px. fold py.
  rewrite newPosition_ok by done. cbn [liftR]. rewrite bind_run.
  unfold newPlantInstance. cbn [default]. rewrite bool_decide_true by left.
  cbn [liftR ok]. fold m. fold inst.
  rewrite Hcol. unfold GeneticAlgorithm.withinBudget. rewrite Hbudget.
  change (Instance.totalArea inst) with (m * m).
  change (Instance.totalWeeklyWater inst) with (weeklyWatering p).
  change (Instance.totalCost inst) with (size p * 50).
  cbn [pi_width pi_height inst negb andb]. unfold Num.geb.
  rewrite (proj2 (leb_le _ _) Hw), (proj2 (leb_le _ _) Hh).
  rewrite (proj2 (leb_le _ _) Hx), (proj2 (leb_le _ _) Hy).
  rewrite (proj2 (leb_le _ _) Harea), (proj2 (leb_le _ _) Hwater).
  reflexivity.
Qed.

Lemma sqrt_bounds (v lo hi : R) :
  0 <= lo → lo ^ 2 <= v → v <= hi ^ 2 → 0 <= hi → lo <= sqrt v <= hi.
Proof.
  intros Hlo Hv1 Hv2 Hhi. split.
  - rewrite <- (sqrt_pow2 lo Hlo). by apply sqrt_le_1_alt.
  - rewrite <- (sqrt_pow2 hi Hhi). by apply sqrt_le_1_alt.
Qed.


Lemma width0_bounds : 2.5 < width0 < 2.6.
Proof.
  unfold width0.
  destruct (sqrt_bounds (5 * (0.6 + 206659 / 233280 * 0.8)) 2.55 2.56) as [H1 H2]; lra.
Qed.

Lemma width1_bounds : 2.3 < width1 < 2.4.
Proof.
  unfold width1.
  destruct (sqrt_bounds (5 * (0.6 + 151230 / 233280 * 0.8)) 2.36 2.37) as [H1 H2]; lra.
Qed.

Lemma draw_lcg (state : Z) : draw (Lcg state) = IZR (lcgNext state) / 233280.
Proof. reflexivity. Qed.

Lemma advance_lcg (state : Z) : advance (Lcg state) = Lcg (lcgNext state).
Proof. reflexivity. Qed.

Lemma newDimensions_ok (w h : R) :
  0 < w → 0 < h → newDimensions w h = inr (mkDimensions w h).
Proof. intros. unfold newDimensions. by decide_cmp. Qed.

Lemma iter_advance_lcg (n : nat) (state : Z) :
  Nat.iter n advance (Lcg state) = Lcg (Nat.iter n lcgNext state).
Proof.
  induction n as [|n IH]; [done|]. simpl. by rewrite IH.
Qed.

Ltac compute_iter :=
  repeat match goal with
  | |- context [Nat.iter ?n lcgNext ?k] =>
      let v := eval vm_compute in (Nat.iter n lcgNext k) in
      change (Nat.iter n lcgNext k) with v
  end.

Lemma createSmartIndividual_bare :
  GeneticAlgorithm.createSmartIndividual (waterConfig 90) duoConfig [tomate] smallPlot
    (Lcg 42)
  = Returned barePlot (Lcg 54713).
Proof.
  unfold GeneticAlgorithm.createSmartIndividual.
  rewrite bind_run, rng_lcg. compute_lcg. cbn [maxArea smallPlot].
  fold width0. pose proof width0_bounds as Hw.
  assert (Hh : 1.9 < 5 / width0 < 2).
  { assert (5 / width0 * width0 = 5) by (field; lra). nra. }
  rewrite bind_run, newDimensions_ok by lra. cbn [liftR].
  rewrite bind_run, rng_lcg. compute_lcg.
  cbn [maxSpecies duoConfig]. rewrite Zfloor_draw_Z.
  unfold GeneticAlgorithm.shuffleArray. cbn [length Nat.sub GeneticAlgorithm.shuffleFrom].
  rewrite bind_run, mret_run.
  change (slice0 [tomate] _) with [tomate].
  cbn [forM]. unfold GeneticAlgorithm.placeSpecies.
  rewrite !bind_run, rng_lcg. compute_lcg.
  rewrite Zfloor_draw_Z. compute_index. cbn [repeatM].
  assert (Hm : sqrt (size tomate) = 1) by (simpl; apply sqrt_1).
  assert (Hfail : ∀ st s, goodRng s →
            GeneticAlgorithm.placeAttempts (waterConfig 90) smallPlot width0 (5 / width0)
              tomate 50 st s = Returned st (Nat.iter (2 * 50) advance s)).
  { intros st s Hs. apply placeAttempts_no_room; rewrite ?Hm; try done; lra. }
  rewrite bind_run, Hfail by (simpl; lia).
  rewrite bind_run, Hfail by (apply goodRng_iter; simpl; lia).
  rewrite !iter_advance_lcg. compute_iter. rewrite !mret_run. reflexivity.
Qed.

Lemma createSmartIndividual_sown :
  GeneticAlgorithm.createSmartIndividual (waterConfig 90) duoConfig [tomate] smallPlot
    (Lcg 54713)
  = Returned sownPlot (Lcg 221338).
Proof.
  unfold GeneticAlgorithm.createSmartIndividual.
  rewrite bind_run, rng_lcg. compute_lcg. cbn [maxArea smallPlot].
  fold width1. pose proof width1_bounds as Hw.
  assert (Hh : 2 < 5 / width1 < 2.2).
  { assert (5 / width1 * width1 = 5) by (field; lra). nra. }
  rewrite bind_run, newDimensions_ok by lra. cbn [liftR].
  rewrite bind_run, rng_lcg. compute_lcg.
  cbn [maxSpecies duoConfig]. rewrite Zfloor_draw_Z.
  unfold GeneticAlgorithm.shuffleArray. cbn [length Nat.sub GeneticAlgorithm.shuffleFrom].
  rewrite bind_run, mret_run.
  change (slice0 [tomate] _) with [tomate].
  cbn [forM]. unfold GeneticAlgorithm.placeSpecies.
  rewrite !bind_run, rng_lcg. compute_lcg.
  rewrite Zfloor_draw_Z. compute_index. cbn [repeatM].
  assert (Hm : sqrt (size tomate) = 1) by (simpl; apply sqrt_1).
  rewrite bind_run, placeAttempts_first.
  - rewrite !advance_lcg, !draw_lcg. compute_lcg. rewrite !mret_run.
    rewrite Hm. reflexivity.
  - rewrite draw_lcg, Hm. compute_lcg. lra.
  - rewrite advance_lcg, draw_lcg, Hm. compute_lcg. lra.
  - reflexivity.
  - rewrite draw_lcg, Hm. compute_lcg. lra.
  - rewrite advance_lcg, draw_lcg, Hm. compute_lcg. lra.
  - rewrite Hm. simpl. lra.
  - simpl. lra.
  - reflexivity.
Qed.

Lemma initialize_duo :
  GeneticAlgorithm.initializePopulationHeuristic (waterConfig 90) duoConfig [tomate]
    smallPlot (Lcg 42)
  = Returned [barePlot; sownPlot] (Lcg 221338).
Proof.
  unfold GeneticAlgorithm.initializePopulationHeuristic.
  cbn [populationSize duoConfig repeatM].
  rewrite !bind_run, createSmartIndividual_bare, mret_run.
  rewrite !bind_run, createSmartIndividual_sown, mret_run.
  reflexivity.
Qed.

Lemma ln_quarter : ln (25 / 100) = - (2 * ln 2).
Proof.
  replace (25 / 100) with (/ (2 * 2)) by lra.
  rewrite ln_Rinv by lra. rewrite ln_mult by lra. lra.
Qed.

Lemma ln_four : ln 4 = 2 * ln 2.
Proof. replace 4 with (2 * 2) by lra. rewrite ln_mult by lra. lra. Qed.

Lemma ln_two_pos : 0 < ln 2.
Proof. pose proof ln_lt_2. lra. Qed.

Lemma diversity_empty (ind : Individual) :
  plants ind = [] → FitnessCalculator.calculateDiversityBonus ind = inr 1.
Proof.
  intros Hp. unfold FitnessCalculator.calculateDiversityBonus,
    FitnessCalculator.calculateCategoryDistribution.
  rewrite Hp. cbn [foldl n_vegetable n_medicinal n_aromatic n_ornamental].
  rewrite !sumR_cons, sumR_nil.
  decide_cmp. rewrite newCategoryDistribution_ok by lra.
  change (inr ?d ≫= ?f) with (f d). cbv beta.
  cbn [vegetable medicinal aromatic ornamental List.filter].
  unfold Num.gtb. decide_cmp. cbn [foldl].
  unfold FitnessCalculator.entropyStep, Num.log2. rewrite ln_quarter, ln_four.
  pose proof ln_two_pos. unfold ok. f_equal. field. lra.
Qed.

Lemma calculate_bare :
  FitnessCalculator.calculate (waterConfig 90) barePlot = inr bareMetrics.
Proof.
  unfold FitnessCalculator.calculate, FitnessCalculator.calculatePSRNT.
  cbn [desiredCategoryDistribution waterConfig].
  rewrite diversity_empty by done.
  change (inr 1 ≫= ?f) with (f 1). cbv beta.
  assert (Hc : FitnessCalculator.calculateCEE (waterConfig 90) barePlot = 1).
  { unfold FitnessCalculator.calculateCEE. simpl. lra. }
  assert (He : FitnessCalculator.calculateEH (waterConfig 90) barePlot = 0).
  { rewrite calculateEH_curve by (simpl; lra).
    unfold Ind.totalWeeklyWater. simpl. rewrite sumR_nil.
    unfold ehCurve, Num.gtb, Num.geb. decide_cmp. simpl. lra. }
  assert (Hu : FitnessCalculator.calculateUE barePlot = 0).
  { unfold FitnessCalculator.calculateUE, Ind.usedArea, totalArea. simpl.
    rewrite sumR_nil. pose proof width0_bounds.
    replace (width0 * (5 / width0)) with 5 by (field; lra).
    unfold Num.geb. decide_cmp. simpl. decide_cmp. lra. }
  rewrite Hc, He, Hu.
  rewrite Metrics_new_ok by (simpl; lra).
  unfold MetricsM.calculateFitness, bareMetrics. simpl. do 2 f_equal. lra.
Qed.

Lemma calculate_sown :
  FitnessCalculator.calculate (waterConfig 90) sownPlot = inr sownMetrics.
Proof.
  unfold FitnessCalculator.calculate, FitnessCalculator.calculatePSRNT.
  cbn [desiredCategoryDistribution waterConfig].
  rewrite (diversity_single_vegetable sownPlot sown) by done.
  change (inr 0 ≫= ?f) with (f 0). cbv beta.
  assert (Hc : FitnessCalculator.calculateCEE (waterConfig 90) sownPlot = 1).
  { unfold FitnessCalculator.calculateCEE. simpl. lra. }
  assert (He : FitnessCalculator.calculateEH (waterConfig 90) sownPlot = 0.9).
  { rewrite calculateEH_curve by (simpl; lra).
    unfold Ind.totalWeeklyWater. simpl. rewrite sumR_cons, sumR_nil.
    unfold Instance.totalWeeklyWater. simpl.
    unfold ehCurve, Num.gtb, Num.geb. decide_cmp. simpl. decide_cmp. lra. }
  assert (Hu : FitnessCalculator.calculateUE sownPlot = 2 / 7).
  { unfold FitnessCalculator.calculateUE, Ind.usedArea, totalArea. simpl.
    rewrite sumR_cons, sumR_nil. unfold Instance.totalArea. simpl.
    pose proof width1_bounds.
    replace (width1 * (5 / width1)) with 5 by (field; lra).
    unfold Num.geb. decide_cmp. simpl. decide_cmp. lra. }
  rewrite Hc, He, Hu.
  rewrite Metrics_new_ok by (simpl; lra).
  unfold MetricsM.calculateFitness, sownMetrics. simpl. do 2 f_equal. lra.
Qed.

Lemma calculate_ext (fc : FitnessConfig) (i j : Individual) :
  dimensions i = dimensions j → plants i = plants j →
  FitnessCalculator.calculate fc i = FitnessCalculator.calculate fc j.
Proof.
  destruct i as [d g ps m], j as [d' g' ps' m']. simpl. intros -> ->. reflexivity.
Qed.

Lemma evaluate_initial :
  GeneticAlgorithm.evaluate (waterConfig 90) [barePlot; sownPlot]
  = inr [bareScored; sownScored].
Proof.
  unfold GeneticAlgorithm.evaluate. cbn [mapM].
  rewrite calculate_bare, calculate_sown. reflexivity.
Qed.

Lemma evaluate_clones :
  GeneticAlgorithm.evaluate (waterConfig 90) [Ind.clone bareScored; Ind.clone bareScored]
  = inr [bareScored; bareScored].
Proof.
  unfold GeneticAlgorithm.evaluate. cbn [mapM].
  rewrite (calculate_ext _ (Ind.clone bareScored) barePlot) by done.
  rewrite calculate_bare. reflexivity.
Qed.

Lemma fitness_bare : Ind.fitness bareScored = 0.55.
Proof. reflexivity. Qed.

Lemma fitness_sown : Ind.fitness sownScored = 439 / 1400.
Proof. reflexivity. Qed.

Lemma tournament_duo :
  GeneticAlgorithm.tournamentSelection duoConfig [bareScored; sownScored] (Lcg 221338)
  = Returned [bareScored; bareScored] (Lcg 64512).
Proof.
  unfold GeneticAlgorithm.tournamentSelection.
  cbn [populationSize tournamentK duoConfig repeatM].
  unfold GeneticAlgorithm.pick, randomIndex.
  rewrite !bind_run, rng_lcg, Zfloor_draw. compute_lcg. compute_index.
  rewrite !mret_run. cbn [lookup list_lookup]. rewrite !mret_run.
  cbn [app GeneticAlgorithm.tournamentWinner foldl]. rewrite !bind_run, !mret_run.
  rewrite !bind_run, rng_lcg, Zfloor_draw. compute_lcg. compute_index.
  rewrite !mret_run. cbn [lookup list_lookup]. rewrite !mret_run.
  cbn [app GeneticAlgorithm.tournamentWinner foldl]. rewrite !bind_run, !mret_run.
  reflexivity.
Qed.


(** Run the binds and returns at the head of a computation. *)
Ltac mreturn := repeat first [rewrite bind_run | progress cbn [mret M_ret]].

Lemma reproduce_duo :
  GeneticAlgorithm.reproduce duoConfig [bareScored; bareScored] (Lcg 64512)
  = Returned [Ind.clone bareScored; Ind.clone bareScored] (Lcg 79249).
Proof.
  cbn [GeneticAlgorithm.reproduce crossoverProbability duoConfig].
  rewrite !bind_run, rng_lcg. compute_lcg. decide_cmp.
  mreturn. reflexivity.
Qed.

(** With every rate at 0 a mutation pass changes nothing and draws four times. *)
Lemma mutate_none (fc : FitnessConfig) (fuel : nat) (pool : list Plant)
    (constraints : GAConstraints) (ind : Individual) (s : RngState) :
  goodRng s →
  GeneticAlgorithm.mutate fc duoConfig fuel pool constraints ind s
  = Returned ind (Nat.iter 4 advance s).
Proof.
  intros Hs. unfold GeneticAlgorithm.mutate.
  cbn [mutationRate insertionRate deletionRate duoConfig Nat.iter].
  destruct (draw_range s Hs) as [H1 Hs1].
  destruct (draw_range _ Hs1) as [H2 Hs2].
  destruct (draw_range _ Hs2) as [H3 Hs3].
  destruct (draw_range _ Hs3) as [H4 Hs4].
  rewrite bind_run, rng_draw, (proj2 (ltb_ge _ _)) by lra.
  mreturn. rewrite rng_draw, (proj2 (ltb_ge _ _)) by lra.
  mreturn. rewrite rng_draw, (proj2 (ltb_ge _ _)) by lra.
  mreturn. rewrite rng_draw, (proj2 (ltb_ge _ _)) by lra.
  reflexivity.
Qed.

Lemma sort_after_generation :
  sortDesc Ind.fitness [bareScored; sownScored; bareScored; bareScored]
  = [bareScored; bareScored; bareScored; sownScored].
Proof.
  unfold sortDesc.
  repeat (cbn [insertDesc foldr]; rewrite ?fitness_bare, ?fitness_sown; decide_cmp).
  reflexivity.
Qed.

Lemma sort_initial :
  sortDesc Ind.fitness [bareScored; sownScored] = [bareScored; sownScored].
Proof.
  unfold sortDesc.
  repeat (cbn [insertDesc foldr]; rewrite ?fitness_bare, ?fitness_sown; decide_cmp).
  reflexivity.
Qed.

Lemma sort_final :
  sortDesc Ind.fitness [bareScored; bareScored] = [bareScored; bareScored].
Proof.
  unfold sortDesc.
  repeat (cbn [insertDesc foldr]; rewrite ?fitness_bare, ?fitness_sown; decide_cmp).
  reflexivity.
Qed.

Lemma nextGeneration_duo :
  GeneticAlgorithm.nextGeneration (waterConfig 90) duoConfig 0 [tomate] smallPlot
    [bareScored; sownScored] (Lcg 221338)
  = Returned [bareScored; bareScored] (Lcg 212265).
Proof.
  unfold GeneticAlgorithm.nextGeneration.
  rewrite bind_run, tournament_duo, bind_run, reproduce_duo.
  cbn [mapM]. rewrite !bind_run, mutate_none by (simpl; lia).
  rewrite !bind_run, mutate_none by (apply goodRng_iter; simpl; lia).
  mreturn. rewrite evaluate_clones. cbn [liftR]. mreturn.
  rewrite <- !Nat.iter_add, iter_advance_lcg. compute_iter. f_equal.
  unfold GeneticAlgorithm.elitistReplacement. cbn [app].
  rewrite sort_after_generation. reflexivity.
Qed.

Lemma select_duo :
  GeneticAlgorithm.selectPlantsIntelligently [tomate] (waterConfig 90) duoConfig smallPlot
    Objective.alimenticio = [tomate].
Proof.
  unfold GeneticAlgorithm.selectPlantsIntelligently. apply select_single. simpl. lia.
Qed.

Lemma maxFitness_initial :
  GeneticAlgorithm.maxFitness [bareScored; sownScored] = Some 0.55.
Proof.
  rewrite maxFitness_head; [done|]. constructor; [|constructor].
  rewrite fitness_bare, fitness_sown. lra.
Qed.

Lemma maxFitness_final :
  GeneticAlgorithm.maxFitness [bareScored; bareScored] = Some 0.55.
Proof.
  rewrite maxFitness_head; [done|]. constructor; [|constructor]. lra.
Qed.

Lemma run_ticking :
  GeneticAlgorithm.run [tomate] (waterConfig 90) duoConfig 0 (λ _, 0) tickingClock
    smallPlot Objective.alimenticio
  = Returned (mkGAResult [bareScored; sownScored] 0 0 timeout_reached 10 [] [tomate])
      (Lcg 221338).
Proof.
  unfold GeneticAlgorithm.run, GeneticAlgorithm.runM.
  cbn [seed duoConfig seededRandom Z.of_N dateNow tickingClock readings reads].
  rewrite select_duo. change (seededRandom 42) with (Lcg 42).
  rewrite bind_run, initialize_duo, bind_run, evaluate_initial. cbn [liftR].
  rewrite bind_run. cbn [maxGenerations duoConfig GeneticAlgorithm.evolve].
  unfold GeneticAlgorithm.timedOut. cbn [timeout duoConfig dateNow readings reads].
  decide_cmp.
  change (IZR (5 * Z.of_nat 1 - 5 * Z.of_nat 0)) with 5.
  unfold Num.gtb. decide_cmp. mreturn.
  cbn [GeneticAlgorithm.population GeneticAlgorithm.stats readings reads].
  rewrite sort_initial. reflexivity.
Qed.

Lemma run_still :
  ∃ stat,
    GeneticAlgorithm.run [tomate] (waterConfig 90) duoConfig 0 (λ _, 0) stillClock
      smallPlot Objective.alimenticio
    = Returned (mkGAResult [bareScored; bareScored] 10 10 patience_reached 0 [stat]
                  [tomate])
        (Lcg 212265).
Proof.
  eexists.
  unfold GeneticAlgorithm.run, GeneticAlgorithm.runM.
  cbn [seed duoConfig dateNow stillClock readings reads].
  rewrite select_duo. change (seededRandom 42) with (Lcg 42).
  rewrite bind_run, initialize_duo, bind_run, evaluate_initial. cbn [liftR].
  rewrite bind_run. cbn [maxGenerations duoConfig GeneticAlgorithm.evolve].
  unfold GeneticAlgorithm.timedOut. cbn [timeout duoConfig dateNow readings reads].
  decide_cmp.
  change (IZR (0 - 0)) with 0.
  unfold Num.gtb. decide_cmp.
  cbn [GeneticAlgorithm.population GeneticAlgorithm.best
         GeneticAlgorithm.generationsWithoutImprovement GeneticAlgorithm.stats].
  rewrite bind_run, nextGeneration_duo.
  rewrite maxFitness_initial, maxFitness_final.
  unfold GeneticAlgorithm.improved, Num.gtb. decide_cmp.
  rewrite bool_decide_true by (simpl; lia).
  unfold GeneticAlgorithm.recordStats. rewrite (bool_decide_true ((1 - 1) mod 10 = 0)%nat) by done.
  cbn [orb]. mreturn.
  cbn [GeneticAlgorithm.population GeneticAlgorithm.stats readings reads].
  rewrite sort_final. reflexivity.
Qed.

(** C8, counterexample: seed 42, identical catalogue, matrix, constraints,
    objective and configuration (timeout 1 ms).  With a clock that stands
    still the run completes its generation and returns two empty layouts;
    with a clock that advances 5 ms per reading the loop stops on the timeout
    before the first generation and returns the initial population, whose
    second layout holds a plant. *)
Lemma C8_counterexample :
  ∃ rA sA rB sB,
    GeneticAlgorithm.run [tomate] (waterConfig 90) duoConfig 0 (λ _, 0) stillClock
      smallPlot Objective.alimenticio = Returned rA sA
    ∧ GeneticAlgorithm.run [tomate] (waterConfig 90) duoConfig 0 (λ _, 0) tickingClock
        smallPlot Objective.alimenticio = Returned rB sB
    ∧ topSolutions rA = [bareScored; bareScored]
    ∧ topSolutions rB = [bareScored; sownScored]
    ∧ topSolutions rA ≠ topSolutions rB.
Proof.
  destruct run_still as [stat HA].
  eexists _, _, _, _. split; [exact HA|]. split; [exact run_ticking|].
  cbn [topSolutions]. split; [done|]. split; [done|].
  intros Heq. apply (f_equal (fmap (λ ind, length (plants ind)))) in Heq.
  discriminate Heq.
Qed.

Lemma C8_seeded_runs_agree_witness :
  seed duoConfig = Some 42%N
  ∧ withinTimeout duoConfig stillClock ∧ withinTimeout duoConfig steadyClock
  ∧ sameRun
      (GeneticAlgorithm.run [tomate] (waterConfig 90) duoConfig 0 (λ _, 0) stillClock
         smallPlot Objective.alimenticio)
      (GeneticAlgorithm.run [tomate] (waterConfig 90) duoConfig 0 (λ n, INR n)
         steadyClock smallPlot Objective.alimenticio).
Proof.
  assert (H1 : withinTimeout duoConfig stillClock).
  { right. intros n. cbn [readings reads stillClock steadyClock]. rewrite Z.sub_diag. lra. }
  assert (H2 : withinTimeout duoConfig steadyClock).
  { right. intros n. cbn [readings reads stillClock steadyClock]. rewrite Z.sub_diag. lra. }
  split; [reflexivity|]. split; [exact H1|]. split; [exact H2|].
  exact (C8_seeded_runs_agree [tomate] (waterConfig 90) duoConfig 0 smallPlot
           Objective.alimenticio 42%N (λ _, 0) (λ n, INR n) stillClock steadyClock
           eq_refl H1 H2).
Defined.

Lemma C10_best_fitness_never_decreases_witness :
  length [bareScored; sownScored] = populationSize duoConfig
  ∧ GeneticAlgorithm.nextGeneration (waterConfig 90) duoConfig 0 [tomate] smallPlot
      [bareScored; sownScored] (Lcg 221338)
    = Returned [bareScored; bareScored] (Lcg 212265)
  ∧ bestLe (GeneticAlgorithm.maxFitness [bareScored; sownScored])
      (GeneticAlgorithm.maxFitness [bareScored; bareScored])
  ∧ length [bareScored; bareScored] = populationSize duoConfig.
Proof.
  split; [reflexivity|]. split; [exact nextGeneration_duo|].
  exact (C10_best_fitness_never_decreases (waterConfig 90) duoConfig 0 [tomate]
           smallPlot [bareScored; sownScored] [bareScored; bareScored]
           (Lcg 221338) (Lcg 212265) eq_refl nextGeneration_duo).
Defined.

(** * Further properties of the code *)

(** ** Positions and instances *)

(** X1.  [Position.distanceTo] is symmetric and non-negative, and it is zero
    exactly between equal coordinates. *)
Theorem distanceTo_symmetric_zero (a b : Position) :
  distanceTo a b = distanceTo b a
  ∧ 0 <= distanceTo a b
  ∧ (distanceTo a b = 0 ↔ x a = x b ∧ y a = y b).
Proof.
  unfold distanceTo. split; [|split].
  - f_equal. ring.
  - apply sqrt_pos.
  - split.
    + intros H. apply sqrt_eq_0 in H;
        [|apply Rplus_le_le_0_compat; apply pow2_ge_0].
      destruct (Rplus_sqr_eq_0 (x a - x b) (y a - y b)) as [H1 H2];
        [unfold Rsqr; rewrite <- H; ring|]. split; lra.
    + intros [-> ->]. replace ((x b - x b) ^ 2 + (y b - y b) ^ 2) with 0 by ring.
      apply sqrt_0.
Qed.

(** X2.  [PlantInstance.overlaps] is symmetric, and two boxes that only touch
    along an edge do not overlap. *)
Theorem overlaps_symmetric_touching (a b : PlantInstance) :
  Instance.overlaps a b = Instance.overlaps b a
  ∧ (x (position a) + pi_width a = x (position b) → Instance.overlaps a b = false)
  ∧ (y (position a) + pi_height a = y (position b) → Instance.overlaps a b = false).
Proof.
  unfold Instance.overlaps. split; [|split].
  - repeat match goal with |- context [?u <=? ?v] => destruct (u <=? v) end;
      reflexivity.
  - intros H. rewrite (proj2 (leb_le _ _)) by lra. reflexivity.
  - intros H. rewrite (proj2 (leb_le (y (position a) + pi_height a) _)) by lra.
    by rewrite !orb_true_r.
Qed.

Lemma overlaps_symmetric_touching_witness :
  x (position (tomateAt 0 0)) + pi_width (tomateAt 0 0) = x (position (tomateAt 1 0))
  ∧ Instance.overlaps (tomateAt 0 0) (tomateAt 1 0) = false.
Proof.
  assert (H : x (position (tomateAt 0 0)) + pi_width (tomateAt 0 0)
              = x (position (tomateAt 1 0))) by (simpl; lra).
  split; [exact H|].
  exact (proj1 (proj2 (overlaps_symmetric_touching (tomateAt 0 0) (tomateAt 1 0))) H).
Defined.

(** X3.  [new PlantInstance] accepts exactly the rotations 0, 90, 180 and 270
    (0 by default); without explicit dimensions the instance is a square of
    side [√size] whose footprint area is the plant's size. *)
Theorem newPlantInstance_footprint (p : Plant) (pos : Position) (rot : option Z) :
  0 <= size p →
  (default 0%Z rot ∈ [0; 90; 180; 270]%Z →
   ∃ inst, newPlantInstance p pos None None rot = inr inst
           ∧ plant inst = p ∧ position inst = pos
           ∧ pi_width inst = sqrt (size p) ∧ pi_height inst = sqrt (size p)
           ∧ Instance.totalArea inst = size p
           ∧ Instance.totalCost inst = size p * 50
           ∧ status inst = pending)
  ∧ (default 0%Z rot ∉ [0; 90; 180; 270]%Z →
     newPlantInstance p pos None None rot
     = inl (Thrown "Rotation must be 0, 90, 180, or 270 degrees")).
Proof.
  intros Hs. unfold newPlantInstance. split; intros Hr.
  - rewrite bool_decide_true by done. eexists. split; [reflexivity|].
    repeat split. unfold Instance.totalArea. simpl. by apply sqrt_sqrt.
  - by rewrite bool_decide_false.
Qed.

Lemma newPlantInstance_footprint_witness :
  0 <= size tomate
  ∧ ∃ inst, newPlantInstance tomate (mkPosition 1 1) None None (Some 90%Z) = inr inst
            ∧ Instance.totalArea inst = size tomate.
Proof.
  assert (Hs : 0 <= size tomate) by (simpl; lra).
  split; [exact Hs|].
  destruct (proj1 (newPlantInstance_footprint tomate (mkPosition 1 1) (Some 90%Z) Hs))
    as (inst & H1 & _ & _ & _ & _ & H2 & _).
  - simpl. set_solver.
  - by exists inst.
Defined.

(** ** Spacing policy *)

(** X4.  The minimum distance of the spacing service is at least 1 m, and the
    proximity penalty is 0 exactly when the plants can be adjacent; for a
    non-negative actual distance it lies in [0, 1]. *)
Theorem proximityPenalty_range (m : Matrix) (plant1 plant2 : Plant) (d : R) :
  0 <= d →
  1 <= PlantSpacingService.calculateMinimumDistance m plant1 plant2
  ∧ 0 <= PlantSpacingService.calculateProximityPenalty m plant1 plant2 d <= 1
  ∧ (PlantSpacingService.calculateProximityPenalty m plant1 plant2 d = 0
     ↔ PlantSpacingService.canBeAdjacent m plant1 plant2 d = true).
Proof.
  intros Hd.
  assert (Hmin : 1 <= PlantSpacingService.calculateMinimumDistance m plant1 plant2).
  { unfold PlantSpacingService.calculateMinimumDistance, Num.gtb.
    pose proof (sqrt_pos (size plant1)). pose proof (sqrt_pos (size plant2)).
    cases_cmp; lra. }
  split; [exact Hmin|].
  unfold PlantSpacingService.calculateProximityPenalty, PlantSpacingService.canBeAdjacent.
  set (md := PlantSpacingService.calculateMinimumDistance m plant1 plant2) in *.
  unfold Num.geb. destruct (md <=? d) eqn:Hc.
  - split; [lra|]. done.
  - apply leb_gt in Hc.
    assert (Hr : 0 <= d / md < 1).
    { split.
      - apply Rmult_le_reg_r with md; [lra|].
        replace (d / md * md) with d by (field; lra). lra.
      - apply Rmult_lt_reg_r with md; [lra|].
        replace (d / md * md) with d by (field; lra). lra. }
    split; [simpl; nra|]. split; [|done].
    simpl. intros H. nra.
Qed.

Lemma proximityPenalty_range_witness :
  0 <= 2
  ∧ 0 <= PlantSpacingService.calculateProximityPenalty ∅ tomate albahaca 2 <= 1.
Proof.
  assert (H : 0 <= 2) by lra. split; [exact H|].
  exact (proj1 (proj2 (proximityPenalty_range ∅ tomate albahaca 2 H))).
Defined.

(** ** Category distribution *)



(** ** Fitness evaluator: ranges and totality *)

Lemma countType_nonneg (c : Counts) (t : string) :
  countsNonneg c → countsNonneg (FitnessCalculator.countType c t).
Proof.
  unfold countsNonneg, FitnessCalculator.countType. intros (? & ? & ? & ?).
  repeat case_bool_decide; simpl; repeat split; lra.
Qed.

Lemma counts_nonneg (ps : list PlantInstance) (c : Counts) :
  countsNonneg c → countsNonneg (foldl FitnessCalculator.countInstance c ps).
Proof.
  revert c. induction ps as [|p ps IH]; intros c Hc; [done|]. simpl. apply IH.
  unfold FitnessCalculator.countInstance.
  generalize (type (plant p)). intros ts. revert c Hc.
  induction ts as [|t ts IHt]; intros c Hc; [done|]. simpl.
  by apply IHt, countType_nonneg.
Qed.

Lemma distribution_ok (ind : Individual) :
  ∃ dist, FitnessCalculator.calculateCategoryDistribution ind = inr dist
          ∧ 0 <= vegetable dist ∧ 0 <= medicinal dist
          ∧ 0 <= aromatic dist ∧ 0 <= ornamental dist
          ∧ vegetable dist + medicinal dist + aromatic dist + ornamental dist = 100.
Proof.
  unfold FitnessCalculator.calculateCategoryDistribution.
  destruct (counts_nonneg (plants ind) (mkCounts 0 0 0 0)) as (Hv & Hm & Ha & Ho).
  { unfold countsNonneg. simpl. lra. }
  set (c := foldl FitnessCalculator.countInstance (mkCounts 0 0 0 0) (plants ind)) in *.
  rewrite !sumR_cons, sumR_nil.
  set (total := n_vegetable c + (n_medicinal c + (n_aromatic c + (n_ornamental c + 0)))).
  destruct (total =? 0) eqn:Ht.
  - rewrite newCategoryDistribution_ok by lra. eexists. split; [reflexivity|]. simpl. lra.
  - apply eqb_neq in Ht.
    assert (Htot : total = n_vegetable c + n_medicinal c + n_aromatic c + n_ornamental c)
      by (unfold total; lra).
    clearbody total.
    assert (Hpos : 0 < total) by lra.
    assert (Hq : ∀ n, 0 <= n → 0 <= n / total * 100).
    { intros n Hn. apply Rmult_le_pos; [|lra].
      apply Rmult_le_pos; [done|]. left. by apply Rinv_0_lt_compat. }
    assert (Hsum : n_vegetable c / total * 100 + n_medicinal c / total * 100
                   + n_ornamental c / total * 100 + n_aromatic c / total * 100 = 100).
    { replace 100 with (total / total * 100) at 5 by (field; lra).
      rewrite Htot at 5. field. lra. }
    rewrite newCategoryDistribution_ok by exact Hsum.
    eexists. split; [reflexivity|]. simpl. repeat split; try by apply Hq. lra.
Qed.

Lemma ln_le_minus_one (t : R) : 0 < t → ln t <= t - 1.
Proof.
  intros Ht. pose proof (exp_ineq1_le (ln t)) as H. rewrite exp_ln in H by done. lra.
Qed.

Lemma entropyTerm_bounds (v : R) :
  0 <= v <= 100 →
  0 <= entropyTerm v * ln 2 ∧ entropyTerm v * ln 2 <= v / 100 * ln 4 + / 4 - v / 100.
Proof.
  intros [Hlo Hhi]. unfold entropyTerm, Num.gtb, Num.log2.
  pose proof ln_two_pos as H2. pose proof ln_four as H4.
  destruct (0 <? v) eqn:Hv.
  - apply ltb_lt in Hv.
    set (p := v / 100).
    assert (Hp : 0 < p <= 1).
    { unfold p. split; [apply Rdiv_lt_0_compat; lra|].
      apply Rmult_le_reg_r with 100; [lra|]. unfold Rdiv.
      rewrite Rmult_assoc, Rinv_l by lra. lra. }
    replace (- (p * (ln p / ln 2)) * ln 2) with (- (p * ln p)) by (field; lra).
    assert (Hn : ln p <= 0).
    { destruct (Req_dec p 1) as [->|Hne]; [rewrite ln_1; lra|].
      left. rewrite <- ln_1. apply ln_increasing; lra. }
    split; [nra|].
    pose proof (ln_le_minus_one (/ (4 * p))) as Hl.
    rewrite ln_Rinv, ln_mult in Hl by lra.
    assert (Hinv : 0 < / (4 * p)) by (apply Rinv_0_lt_compat; lra).
    specialize (Hl Hinv).
    assert (Hmul : p * / (4 * p) = / 4) by (field; lra).
    assert (Hk : p * (- (ln 4 + ln p)) <= p * (/ (4 * p) - 1)).
    { apply Rmult_le_compat_l; lra. }
    rewrite Rmult_minus_distr_l, Hmul in Hk. lra.
  - apply ltb_ge in Hv. assert (v = 0) as -> by lra. lra.
Qed.

Lemma entropy_fold (l : list R) (acc : R) :
  foldl FitnessCalculator.entropyStep acc (List.filter (λ v, v >? 0) l)
  = acc + foldr (λ v s, entropyTerm v + s) 0 l.
Proof.
  revert acc. induction l as [|v l IH]; intros acc; simpl; [lra|].
  unfold entropyTerm at 1. destruct (v >? 0); simpl; rewrite IH.
  - unfold FitnessCalculator.entropyStep. lra.
  - lra.
Qed.

Lemma diversity_ok (ind : Individual) :
  ∃ bonus, FitnessCalculator.calculateDiversityBonus ind = inr bonus ∧ 0 <= bonus <= 1.
Proof.
  unfold FitnessCalculator.calculateDiversityBonus.
  destruct (distribution_ok ind) as (dist & -> & Hv & Hm & Ha & Ho & Hsum).
  change (inr dist ≫= ?f) with (f dist). cbv beta.
  eexists. split; [reflexivity|].
  rewrite entropy_fold. simpl.
  pose proof ln_two_pos as H2. pose proof ln_four as H4.
  destruct (entropyTerm_bounds (vegetable dist)) as [Lv Uv]; [lra|].
  destruct (entropyTerm_bounds (medicinal dist)) as [Lm Um]; [lra|].
  destruct (entropyTerm_bounds (aromatic dist)) as [La Ua]; [lra|].
  destruct (entropyTerm_bounds (ornamental dist)) as [Lo Uo]; [lra|].
  unfold Num.log2. rewrite H4.
  set (e := 0 + (entropyTerm (vegetable dist) + (entropyTerm (medicinal dist)
              + (entropyTerm (aromatic dist) + (entropyTerm (ornamental dist) + 0))))).
  assert (He : 0 <= e * ln 2 <= 2 * ln 2) by (unfold e; nra).
  replace (e / (2 * ln 2 / ln 2)) with (e / 2) by (field; lra).
  split; nra.
Qed.

(** X6.  [calculateCategoryDistribution] never throws: it returns non-negative
    percentages that sum to 100. *)
Theorem categoryDistribution_total (ind : Individual) :
  ∃ dist, FitnessCalculator.calculateCategoryDistribution ind = inr dist
          ∧ 0 <= vegetable dist ∧ 0 <= medicinal dist
          ∧ 0 <= aromatic dist ∧ 0 <= ornamental dist
          ∧ vegetable dist + medicinal dist + aromatic dist + ornamental dist = 100.
Proof. exact (distribution_ok ind). Qed.

(** X7.  The diversity bonus (normalised Shannon entropy of the category
    percentages) is always returned and lies in [0, 1]. *)
Theorem diversityBonus_range (ind : Individual) :
  ∃ bonus, FitnessCalculator.calculateDiversityBonus ind = inr bonus ∧ 0 <= bonus <= 1.
Proof. exact (diversity_ok ind). Qed.

Lemma ehCurve_range (u : R) : 0 <= u → 0 <= ehCurve u <= 1.
Proof.
  intros Hu. unfold ehCurve, Num.gtb, Num.geb.
  cases_cmp; simpl; unfold Rmax; repeat destruct (Rle_dec _ _); lra.
Qed.

Lemma sumR_nonneg (l : list R) : Forall (λ v, 0 <= v) l → 0 <= sumR l.
Proof.
  induction 1 as [|v l Hv Hl IH]; [rewrite sumR_nil; lra|]. rewrite sumR_cons. lra.
Qed.

Lemma ratio_nonneg (a b : R) : 0 <= a → 0 < b → 0 <= a / b.
Proof.
  intros Ha Hb. apply Rmult_le_pos; [done|]. left. by apply Rinv_0_lt_compat.
Qed.

Lemma ratio_ge (a b c : R) : 0 < b → c * b <= a → c <= a / b.
Proof.
  intros Hb H. apply Rmult_le_reg_r with b; [done|].
  replace (a / b * b) with a by (field; lra). done.
Qed.

Lemma ratio_le (a b c : R) : 0 < b → a <= c * b → a / b <= c.
Proof.
  intros Hb H. apply Rmult_le_reg_r with b; [done|].
  replace (a / b * b) with a by (field; lra). done.
Qed.

Lemma calculateEH_bounds (cfg : FitnessConfig) (ind : Individual) :
  0 <= maxWaterWeekly cfg → 0 <= Ind.totalWeeklyWater ind →
  0 <= FitnessCalculator.calculateEH cfg ind <= 1.
Proof.
  intros Hm Hw. destruct (Req_dec (maxWaterWeekly cfg) 0) as [H0|H0].
  - unfold FitnessCalculator.calculateEH. rewrite (proj2 (eqb_eq _ _) H0). lra.
  - rewrite calculateEH_curve by done. apply ehCurve_range, ratio_nonneg; lra.
Qed.

Lemma calculateUE_bounds (ind : Individual) :
  0 <= totalArea (dimensions ind) → 0 <= Ind.usedArea ind →
  0 <= FitnessCalculator.calculateUE ind <= 1.
Proof.
  intros Ht Hu. unfold FitnessCalculator.calculateUE.
  destruct (totalArea (dimensions ind) =? 0) eqn:H0; [lra|].
  apply eqb_neq in H0. assert (Hpos : 0 < totalArea (dimensions ind)) by lra.
  pose proof (ratio_nonneg _ _ Hu Hpos) as Hr.
  unfold Num.geb. cases_cmp; simpl; unfold Rmax; repeat destruct (Rle_dec _ _); lra.
Qed.

(** X8.  Water efficiency: with a non-negative limit and non-negative use, EH
    lies in [0, 1]; it is 1 when the use is between 80 % and 95 % of the limit
    (or the limit is 0) and 0 when the use reaches 150 % of the limit. *)
Theorem calculateEH_range (cfg : FitnessConfig) (ind : Individual) :
  0 <= maxWaterWeekly cfg → 0 <= Ind.totalWeeklyWater ind →
  0 <= FitnessCalculator.calculateEH cfg ind <= 1
  ∧ (maxWaterWeekly cfg = 0 → FitnessCalculator.calculateEH cfg ind = 1)
  ∧ (0 < maxWaterWeekly cfg →
     0.8 * maxWaterWeekly cfg <= Ind.totalWeeklyWater ind <= 0.95 * maxWaterWeekly cfg →
     FitnessCalculator.calculateEH cfg ind = 1)
  ∧ (0 < maxWaterWeekly cfg →
     1.5 * maxWaterWeekly cfg <= Ind.totalWeeklyWater ind →
     FitnessCalculator.calculateEH cfg ind = 0).
Proof.
  intros Hm Hw. split; [|split; [|split]].
  - by apply calculateEH_bounds.
  - intros H0. unfold FitnessCalculator.calculateEH. rewrite (proj2 (eqb_eq _ _) H0). lra.
  - intros Hpos [H1 H2]. rewrite calculateEH_curve by lra.
    pose proof (ratio_ge _ _ _ Hpos H1). pose proof (ratio_le _ _ _ Hpos H2).
    unfold ehCurve, Num.gtb, Num.geb. decide_cmp. simpl. lra.
  - intros Hpos H1. rewrite calculateEH_curve by lra.
    pose proof (ratio_ge _ _ _ Hpos H1).
    unfold ehCurve, Num.gtb. decide_cmp. apply Rmax_left. lra.
Qed.

Lemma calculateEH_range_witness :
  0 <= maxWaterWeekly (waterConfig 100) ∧ 0 <= Ind.totalWeeklyWater oneTomate
  ∧ 0 <= FitnessCalculator.calculateEH (waterConfig 100) oneTomate <= 1.
Proof.
  assert (H1 : 0 <= maxWaterWeekly (waterConfig 100)) by (simpl; lra).
  assert (H2 : 0 <= Ind.totalWeeklyWater oneTomate).
  { unfold Ind.totalWeeklyWater. simpl. rewrite sumR_cons, sumR_nil.
    unfold Instance.totalWeeklyWater. simpl. lra. }
  split; [exact H1|]. split; [exact H2|].
  exact (proj1 (calculateEH_range (waterConfig 100) oneTomate H1 H2)).
Defined.

(** X9.  Space utilisation: for a non-negative used area in a plot of
    non-negative area, UE lies in [0, 1]; it is 1 between 70 % and 85 % of
    the plot and 0 for an empty layout or an empty plot. *)
Theorem calculateUE_range (ind : Individual) :
  0 <= totalArea (dimensions ind) → 0 <= Ind.usedArea ind →
  0 <= FitnessCalculator.calculateUE ind <= 1
  ∧ (totalArea (dimensions ind) = 0 ∨ Ind.usedArea ind = 0 →
     FitnessCalculator.calculateUE ind = 0)
  ∧ (0 < totalArea (dimensions ind) →
     0.7 * totalArea (dimensions ind) <= Ind.usedArea ind
       <= 0.85 * totalArea (dimensions ind) →
     FitnessCalculator.calculateUE ind = 1).
Proof.
  intros Ht Hu. pose proof (calculateUE_bounds ind Ht Hu) as Hb. revert Hb.
  unfold FitnessCalculator.calculateUE.
  destruct (totalArea (dimensions ind) =? 0) eqn:H0; intros Hb.
  - apply eqb_eq in H0. split; [lra|]. split; [done|]. lra.
  - apply eqb_neq in H0. assert (Hpos : 0 < totalArea (dimensions ind)) by lra.
    pose proof (ratio_nonneg _ _ Hu Hpos) as Hr.
    split; [|split].
    + exact Hb.
    + intros [?|Hz]; [lra|]. rewrite Hz. unfold Num.geb.
      replace (0 / totalArea (dimensions ind)) with 0 by (field; lra).
      decide_cmp. simpl. decide_cmp. lra.
    + intros _ [H1 H2].
      pose proof (ratio_ge _ _ _ Hpos H1). pose proof (ratio_le _ _ _ Hpos H2).
      unfold Num.geb. decide_cmp. simpl. lra.
Qed.

Lemma calculateUE_range_witness :
  0 <= totalArea (dimensions oneTomate) ∧ 0 <= Ind.usedArea oneTomate
  ∧ 0 <= FitnessCalculator.calculateUE oneTomate <= 1.
Proof.
  assert (H1 : 0 <= totalArea (dimensions oneTomate)) by (unfold totalArea; simpl; lra).
  assert (H2 : 0 <= Ind.usedArea oneTomate).
  { unfold Ind.usedArea. simpl. rewrite sumR_cons, sumR_nil.
    unfold Instance.totalArea. simpl. lra. }
  split; [exact H1|]. split; [exact H2|].
  exact (proj1 (calculateUE_range oneTomate H1 H2)).
Defined.

Lemma calculateCEE_bounds (cfg : FitnessConfig) (ind : Individual) :
  0 <= FitnessCalculator.calculateCEE cfg ind <= 1.
Proof.
  unfold FitnessCalculator.calculateCEE.
  case_bool_decide; [lra|].
  destruct (FitnessCalculator.ceeLoop cfg (plants ind) (0, 0)) as [s w].
  destruct (w =? 0); [lra|].
  split; [apply Rmax_l|]. apply Rmax_lub; [lra|apply Rmin_l].
Qed.

Lemma fitness_lookup_empty (cfg : FitnessConfig) (s1 s2 : string) :
  compatibilityMatrix cfg = ∅ → FitnessCalculator.getCompatibilityScore cfg s1 s2 = 0.
Proof.
  intros He. unfold FitnessCalculator.getCompatibilityScore, matrix_get. rewrite He.
  by rewrite !lookup_empty.
Qed.

Lemma ceeStep_empty (cfg : FitnessConfig) (p q : PlantInstance) (w : R) :
  compatibilityMatrix cfg = ∅ →
  ∃ w', FitnessCalculator.ceeStep cfg p (0, w) q = (0, w') ∧ w < w'.
Proof.
  intros He. unfold FitnessCalculator.ceeStep. rewrite fitness_lookup_empty by done.
  eexists. split.
  - f_equal. repeat match goal with |- context [if ?b then _ else _] => destruct b end; lra.
  - pose proof (exp_pos (- distanceTo (position p) (position q) / 2)). lra.
Qed.

Lemma ceeFold_empty (cfg : FitnessConfig) (p : PlantInstance)
    (qs : list PlantInstance) (w : R) :
  compatibilityMatrix cfg = ∅ →
  ∃ w', foldl (FitnessCalculator.ceeStep cfg p) (0, w) qs = (0, w')
        ∧ w <= w' ∧ (qs ≠ [] → w < w').
Proof.
  intros He. revert w. induction qs as [|q qs IH]; intros w.
  - exists w. simpl. split; [done|]. split; [lra|done].
  - cbn [foldl]. destruct (ceeStep_empty cfg p q w He) as (w1 & -> & Hw1).
    destruct (IH w1) as (w2 & -> & Hw2 & _). exists w2. split; [done|]. split; [lra|].
    intros _. lra.
Qed.

Lemma ceeLoop_empty (cfg : FitnessConfig) (ps : list PlantInstance) (w : R) :
  compatibilityMatrix cfg = ∅ →
  ∃ w', FitnessCalculator.ceeLoop cfg ps (0, w) = (0, w')
        ∧ w <= w' ∧ ((2 <= length ps)%nat → w < w').
Proof.
  intros He. revert w. induction ps as [|p ps IH]; intros w.
  - exists w. simpl. split; [done|]. split; [lra|lia].
  - cbn [FitnessCalculator.ceeLoop].
    destruct (ceeFold_empty cfg p ps w He) as (w1 & -> & Hw1 & Hne).
    destruct (IH w1) as (w2 & -> & Hw2 & _). exists w2. split; [done|]. split; [lra|].
    intros Hlen. assert (ps ≠ []) as Hps by (destruct ps; [simpl in Hlen; lia|done]).
    specialize (Hne Hps). lra.
Qed.

(** X10.  Companion-planting score: CEE always lies in [0, 1]; a layout with fewer
    than two plants scores 1, and when the compatibility matrix holds no data
    every layout of two or more plants scores 0.5 wherever the plants stand. *)
Theorem calculateCEE_range_neutral (cfg : FitnessConfig) (ind : Individual) :
  0 <= FitnessCalculator.calculateCEE cfg ind <= 1
  ∧ ((length (plants ind) < 2)%nat → FitnessCalculator.calculateCEE cfg ind = 1)
  ∧ (compatibilityMatrix cfg = ∅ → (2 <= length (plants ind))%nat →
     FitnessCalculator.calculateCEE cfg ind = 0.5).
Proof.
  split; [apply calculateCEE_bounds|]. split.
  - intros Hlt. unfold FitnessCalculator.calculateCEE.
    rewrite bool_decide_true by done. lra.
  - intros He Hlen. unfold FitnessCalculator.calculateCEE.
    rewrite bool_decide_false by lia.
    destruct (ceeLoop_empty cfg (plants ind) 0 He) as (w & -> & _ & Hw).
    specialize (Hw Hlen). rewrite (proj2 (eqb_neq _ _)) by lra.
    replace (0 / w) with 0 by (unfold Rdiv; ring).
    rewrite Rmin_right by lra. rewrite Rmax_right by lra. lra.
Qed.

Lemma calculatePSRNT_ok (cfg : FitnessConfig) (ind : Individual) :
  ∃ p, FitnessCalculator.calculatePSRNT cfg ind = inr p ∧ 0 <= p <= 1.
Proof.
  unfold FitnessCalculator.calculatePSRNT.
  destruct (desiredCategoryDistribution cfg) as [desired|]; [|apply diversity_ok].
  destruct (distribution_ok ind) as (dist & -> & _).
  change (inr dist ≫= ?f) with (f dist). cbv beta.
  eexists. split; [reflexivity|].
  split; [apply Rmax_l|]. apply Rmax_lub; [lra|].
  match goal with |- 1 - sqrt ?m / 100 <= 1 => pose proof (sqrt_pos m) end. lra.
Qed.

Lemma psrnt_one (e : R) : 0 <= e → Rmax 0 (1 - sqrt e / 100) = 1 ↔ e = 0.
Proof.
  intros He. pose proof (sqrt_pos e) as Hs. split.
  - intros H1. apply sqrt_eq_0; [done|].
    revert H1 Hs. generalize (sqrt e). intros s H1 Hs.
    unfold Rmax in H1. destruct (Rle_dec 0 (1 - s / 100)); lra.
  - intros ->. rewrite sqrt_0. rewrite Rmax_right by lra. lra.
Qed.

(** X11.  The category score PSRNT is always returned and lies in [0, 1]; against
    a desired distribution it is 1 exactly when the layout's percentages are
    the desired ones. *)
Theorem calculatePSRNT_range (cfg : FitnessConfig) (ind : Individual) :
  ∃ p, FitnessCalculator.calculatePSRNT cfg ind = inr p ∧ 0 <= p <= 1
       ∧ ∀ desired actual,
           desiredCategoryDistribution cfg = Some desired →
           FitnessCalculator.calculateCategoryDistribution ind = inr actual →
           (p = 1 ↔ vegetable actual = vegetable desired
                    ∧ medicinal actual = medicinal desired
                    ∧ aromatic actual = aromatic desired
                    ∧ ornamental actual = ornamental desired).
Proof.
  destruct (calculatePSRNT_ok cfg ind) as (p & Hp & Hr). exists p.
  split; [done|]. split; [done|].
  intros desired actual Hd Ha.
  set (a := vegetable actual - vegetable desired).
  set (b := medicinal actual - medicinal desired).
  set (c := aromatic actual - aromatic desired).
  set (d := ornamental actual - ornamental desired).
  assert (Hp' : p = Rmax 0 (1 - sqrt ((a ^ 2 + b ^ 2 + c ^ 2 + d ^ 2) / 4) / 100)).
  { revert Hp. unfold FitnessCalculator.calculatePSRNT. rewrite Hd, Ha.
    change (inr actual ≫= ?f) with (f actual). cbv beta.
    rewrite !sumR_cons, sumR_nil. intros Heq. injection Heq as <-.
    match goal with
    | |- Rmax 0 (1 - sqrt ?e / 100) = _ =>
        replace e with ((a ^ 2 + b ^ 2 + c ^ 2 + d ^ 2) / 4) by (unfold a, b, c, d; lra)
    end.
    reflexivity. }
  rewrite Hp'. clear Hp Hr Hp'.
  pose proof (pow2_ge_0 a). pose proof (pow2_ge_0 b).
  pose proof (pow2_ge_0 c). pose proof (pow2_ge_0 d).
  assert (Hz0 : ∀ t, t ^ 2 = 0 → t = 0).
  { intros t Ht. apply Rsqr_0_uniq. unfold Rsqr. lra. }
  rewrite psrnt_one by lra. split.
  - intros He.
    assert (a ^ 2 = 0 ∧ b ^ 2 = 0 ∧ c ^ 2 = 0 ∧ d ^ 2 = 0) as (Ha2 & Hb2 & Hc2 & Hd2)
      by (repeat split; lra).
    apply Hz0 in Ha2, Hb2, Hc2, Hd2. unfold a, b, c, d in *. repeat split; lra.
  - intros (E1 & E2 & E3 & E4).
    assert (a = 0 ∧ b = 0 ∧ c = 0 ∧ d = 0) as (Ea & Eb & Ec & Ed)
      by (unfold a, b, c, d; repeat split; lra).
    rewrite Ea, Eb, Ec, Ed. lra.
Qed.

Lemma evaluable_sums (ind : Individual) :
  evaluable ind → 0 <= Ind.usedArea ind ∧ 0 <= Ind.totalWeeklyWater ind.
Proof.
  intros [Hall _]. unfold Ind.usedArea, Ind.totalWeeklyWater.
  split; apply sumR_nonneg; rewrite Forall_fmap; eapply Forall_impl; try exact Hall;
    simpl; intros ? [? ?]; done.
Qed.

(** X12.  The evaluator never throws on a layout whose instances have
    non-negative areas and water needs, in a plot of non-negative area and
    under a non-negative water limit: it returns the four metrics with a
    fitness between 0 and 0.8. *)
Theorem calculate_total (cfg : FitnessConfig) (ind : Individual) :
  evaluable ind → 0 <= maxWaterWeekly cfg →
  ∃ m, FitnessCalculator.calculate cfg ind = inr m
       ∧ CEE m = FitnessCalculator.calculateCEE cfg ind
       ∧ EH m = FitnessCalculator.calculateEH cfg ind
       ∧ UE m = FitnessCalculator.calculateUE ind
       ∧ 0 <= fitness m <= 0.8.
Proof.
  intros Hev Hmax. destruct (evaluable_sums ind Hev) as [Hu Hw].
  destruct Hev as [_ Ht].
  destruct (calculatePSRNT_ok cfg ind) as (p & Hp & Hpr).
  pose proof (calculateCEE_bounds cfg ind) as Hc.
  pose proof (calculateEH_bounds cfg ind Hmax Hw) as He.
  pose proof (calculateUE_bounds ind Ht Hu) as Hue.
  unfold FitnessCalculator.calculate. rewrite Hp.
  change (inr p ≫= ?f) with (f p). cbv beta.
  rewrite Metrics_new_ok by (simpl; lra).
  eexists. split; [reflexivity|]. simpl. repeat split; try reflexivity;
    unfold MetricsM.calculateFitness; destruct (objective cfg); simpl; lra.
Qed.

Lemma calculate_total_witness :
  evaluable oneTomate ∧ 0 <= maxWaterWeekly (waterConfig 100)
  ∧ ∃ m, FitnessCalculator.calculate (waterConfig 100) oneTomate = inr m.
Proof.
  assert (H1 : evaluable oneTomate).
  { split.
    - constructor; [|constructor]. unfold Instance.totalArea, Instance.totalWeeklyWater.
      simpl. lra.
    - unfold totalArea. simpl. lra. }
  assert (H2 : 0 <= maxWaterWeekly (waterConfig 100)) by (simpl; lra).
  split; [exact H1|]. split; [exact H2|].
  destruct (calculate_total (waterConfig 100) oneTomate H1 H2) as (m & Hm & _).
  exists m. exact Hm.
Defined.

(** ** Plant selector *)

Lemma List_filter_sublist {A} (f : A → bool) (l : list A) : List.filter f l `sublist_of` l.
Proof.
  induction l as [|a l IH]; simpl; [done|].
  destruct (f a); [by apply sublist_skip|by apply sublist_cons].
Qed.

Lemma preferences_sublist (cfg : PlantSelectionConfig) (l : list Plant) :
  PlantSelectorService.filterBySeason cfg
    (PlantSelectorService.filterByUserPreferences cfg l) `sublist_of` l.
Proof.
  unfold PlantSelectorService.filterBySeason, PlantSelectorService.filterByUserPreferences.
  destruct (sel_season cfg) as [[]|]; destruct (sel_desiredPlantIds cfg) as [[|d ds]|];
    try done; apply List_filter_sublist.
Qed.

Lemma includes_spec (sel : list Plant) (p : Plant) :
  PlantSelectorService.includes sel p = true ↔ id p ∈ id <$> sel.
Proof.
  unfold PlantSelectorService.includes. induction sel as [|s sel IH]; simpl.
  - split; [done|]. by intros ?%elem_of_nil.
  - rewrite orb_true_iff, IH, bool_decide_eq_true, elem_of_cons.
    split; (intros [H|H]; [left; congruence|by right]).
Qed.

Lemma greedyGate_members (cfg : PlantSelectionConfig) (scored : list PlantScore)
    (sel : list Plant) (bound : Z) :
  (sel_maxSpecies cfg ≤ bound)%Z → (Z.of_nat (length sel) ≤ bound)%Z →
  (∀ p, p ∈ PlantSelectorService.greedyGate cfg scored sel →
        p ∈ sel ∨ p ∈ ps_plant <$> scored)
  ∧ (Z.of_nat (length (PlantSelectorService.greedyGate cfg scored sel)) ≤ bound)%Z.
Proof.
  intros Hb. revert sel. induction scored as [|c rest IH]; intros sel Hlen; simpl.
  - split; [by left|done].
  - case_bool_decide as Hfull; [split; [by left|done]|].
    destruct (PlantSelectorService.checkCompatibilityWithSelected cfg (ps_plant c) sel).
    + destruct (IH (sel ++ [ps_plant c])) as [Hm Hl].
      { rewrite length_app. simpl. lia. }
      split; [|done]. intros p Hp. apply Hm in Hp as [Hp|Hp].
      * apply elem_of_app in Hp as [Hp|Hp]; [by left|].
        apply list_elem_of_singleton in Hp as ->. right. left.
      * right. by right.
    + destruct (IH sel Hlen) as [Hm Hl]. split; [|done].
      intros p Hp. apply Hm in Hp as [Hp|Hp]; [by left|]. right. by right.
Qed.

Lemma greedyGate_nodup (cfg : PlantSelectionConfig) (scored : list PlantScore)
    (sel : list Plant) :
  NoDup (id <$> (sel ++ (ps_plant <$> scored))) →
  NoDup (id <$> PlantSelectorService.greedyGate cfg scored sel).
Proof.
  revert sel. induction scored as [|c rest IH]; intros sel Hnd; simpl.
  - by rewrite app_nil_r in Hnd.
  - assert (Hsel : NoDup (id <$> sel)).
    { rewrite fmap_app in Hnd. by apply NoDup_app in Hnd as [? _]. }
    case_bool_decide; [done|].
    destruct (PlantSelectorService.checkCompatibilityWithSelected cfg (ps_plant c) sel).
    + apply IH. by rewrite <- app_assoc.
    + apply IH. rewrite fmap_app in *. rewrite fmap_cons in Hnd.
      apply NoDup_app in Hnd as (H1 & H2 & H3). apply NoDup_app. split; [done|].
      apply NoDup_cons in H3 as [_ H3]. split; [|done].
      intros i Hi Hr. apply (H2 i Hi). by right.
Qed.

Lemma greedyFill_members (cfg : PlantSelectionConfig) (scored : list PlantScore)
    (sel : list Plant) (bound : Z) :
  (sel_maxSpecies cfg ≤ bound)%Z → (Z.of_nat (length sel) ≤ bound)%Z →
  (∀ p, p ∈ PlantSelectorService.greedyFill cfg scored sel →
        p ∈ sel ∨ p ∈ ps_plant <$> scored)
  ∧ (Z.of_nat (length (PlantSelectorService.greedyFill cfg scored sel)) ≤ bound)%Z.
Proof.
  intros Hb. revert sel. induction scored as [|c rest IH]; intros sel Hlen; simpl.
  - split; [by left|done].
  - case_bool_decide as Hfull; [split; [by left|done]|].
    destruct (PlantSelectorService.includes sel (ps_plant c)).
    + destruct (IH sel Hlen) as [Hm Hl]. split; [|done].
      intros p Hp. apply Hm in Hp as [Hp|Hp]; [by left|]. right. by right.
    + destruct (IH (sel ++ [ps_plant c])) as [Hm Hl].
      { rewrite length_app. simpl. lia. }
      split; [|done]. intros p Hp. apply Hm in Hp as [Hp|Hp].
      * apply elem_of_app in Hp as [Hp|Hp]; [by left|].
        apply list_elem_of_singleton in Hp as ->. right. left.
      * right. by right.
Qed.

Lemma greedyFill_complete (cfg : PlantSelectionConfig) (scored : list PlantScore)
    (sel : list Plant) :
  NoDup (id <$> sel) →
  let result := PlantSelectorService.greedyFill cfg scored sel in
  NoDup (id <$> result)
  ∧ (∀ i, i ∈ id <$> sel → i ∈ id <$> result)
  ∧ ((sel_maxSpecies cfg ≤ Z.of_nat (length result))%Z
     ∨ ∀ c, c ∈ scored → id (ps_plant c) ∈ id <$> result).
Proof.
  revert sel. induction scored as [|c rest IH]; intros sel Hnd; simpl.
  - split; [done|]. split; [done|]. right. by intros c ?%elem_of_nil.
  - case_bool_decide as Hfull; [split; [done|]; split; [done|]; by left|].
    destruct (PlantSelectorService.includes sel (ps_plant c)) eqn:Hinc.
    + apply includes_spec in Hinc.
      destruct (IH sel Hnd) as (H1 & H2 & H3). split; [done|]. split; [done|].
      destruct H3 as [H3|H3]; [by left|]. right.
      intros c' [->|Hc']%elem_of_cons; [by apply H2|by apply H3].
    + assert (Hout : id (ps_plant c) ∉ id <$> sel).
      { intros Hin. apply includes_spec in Hin. congruence. }
      destruct (IH (sel ++ [ps_plant c])) as (H1 & H2 & H3).
      { rewrite fmap_app. apply NoDup_app. split; [done|]. split.
        - intros i Hi [->|?%elem_of_nil]%elem_of_cons; done.
        - apply NoDup_singleton. }
      split; [done|]. split.
      { intros i Hi. apply H2. rewrite fmap_app. apply elem_of_app. by left. }
      destruct H3 as [H3|H3]; [by left|]. right.
      intros c' [->|Hc']%elem_of_cons; [|by apply H3].
      apply H2. rewrite fmap_app. apply elem_of_app. right. left.
Qed.

Lemma scored_plants (cfg : PlantSelectionConfig) (pool : list Plant) :
  ps_plant <$> sortDesc ps_score
    ((λ plant, PlantSelectorService.scorePlant cfg plant pool) <$> pool) ≡ₚ pool.
Proof.
  rewrite sortDesc_perm. generalize pool at 1 as context.
  intros context. induction pool as [|p pool IH]; [done|].
  rewrite !fmap_cons. simpl. by rewrite IH.
Qed.

Lemma selection_members (cfg : PlantSelectionConfig) (allPlants : list Plant) :
  (∀ p, p ∈ PlantSelectorService.selectBestPlants cfg allPlants → p ∈ allPlants)
  ∧ (Z.of_nat (length (PlantSelectorService.selectBestPlants cfg allPlants))
     ≤ Z.max 0 (sel_maxSpecies cfg))%Z.
Proof.
  unfold PlantSelectorService.selectBestPlants.
  set (candidates := PlantSelectorService.filterBySeason cfg
                       (PlantSelectorService.filterByUserPreferences cfg allPlants)).
  set (pool := if bool_decide (Z.of_nat (length candidates) < sel_maxSpecies cfg)%Z
               then allPlants else candidates).
  assert (Hpool : ∀ p, p ∈ pool → p ∈ allPlants).
  { unfold pool. case_bool_decide; [done|]. intros p Hp.
    eapply elem_of_sublist; [exact Hp|apply preferences_sublist]. }
  pose proof (scored_plants cfg pool) as Hperm.
  set (scored := sortDesc ps_score
                   ((λ plant, PlantSelectorService.scorePlant cfg plant pool) <$> pool)) in *.
  unfold PlantSelectorService.greedySelection.
  destruct (greedyGate_members cfg scored [] (Z.max 0 (sel_maxSpecies cfg)))
    as [Hgm Hgl]; [lia|simpl; lia|].
  assert (Hin : ∀ p, p ∈ ps_plant <$> scored → p ∈ allPlants).
  { intros p Hp. rewrite Hperm in Hp. by apply Hpool. }
  case_bool_decide.
  - destruct (greedyFill_members cfg scored (PlantSelectorService.greedyGate cfg scored [])
                (Z.max 0 (sel_maxSpecies cfg))) as [Hfm Hfl]; [lia|done|].
    split; [|done]. intros p Hp. apply Hfm in Hp as [Hp|Hp]; [|by apply Hin].
    apply Hgm in Hp as [Hp|Hp]; [by apply elem_of_nil in Hp|by apply Hin].
  - split; [|done]. intros p Hp.
    apply Hgm in Hp as [Hp|Hp]; [by apply elem_of_nil in Hp|by apply Hin].
Qed.

(** X13.  The selector only returns plants of the catalogue, and never more than
    [maxSpecies] of them (none when [maxSpecies] is zero or negative). *)
Theorem selectBestPlants_from_catalogue (cfg : PlantSelectionConfig)
    (allPlants : list Plant) :
  (∀ p, p ∈ PlantSelectorService.selectBestPlants cfg allPlants → p ∈ allPlants)
  ∧ (Z.of_nat (length (PlantSelectorService.selectBestPlants cfg allPlants))
     ≤ Z.max 0 (sel_maxSpecies cfg))%Z.
Proof. exact (selection_members cfg allPlants). Qed.

(** X14.  When the catalogue has distinct ids and holds at least [maxSpecies]
    plants, the selector returns exactly [maxSpecies] plants, all different:
    the second loop fills the places the compatibility gate left open. *)
Theorem selectBestPlants_fills (cfg : PlantSelectionConfig) (allPlants : list Plant) :
  NoDup (id <$> allPlants) →
  (0 ≤ sel_maxSpecies cfg ≤ Z.of_nat (length allPlants))%Z →
  Z.of_nat (length (PlantSelectorService.selectBestPlants cfg allPlants))
    = sel_maxSpecies cfg
  ∧ NoDup (id <$> PlantSelectorService.selectBestPlants cfg allPlants).
Proof.
  intros Hnd [Hmin Hmax].
  destruct (selection_members cfg allPlants) as [_ Hlen]. revert Hlen.
  unfold PlantSelectorService.selectBestPlants.
  set (candidates := PlantSelectorService.filterBySeason cfg
                       (PlantSelectorService.filterByUserPreferences cfg allPlants)).
  set (pool := if bool_decide (Z.of_nat (length candidates) < sel_maxSpecies cfg)%Z
               then allPlants else candidates).
  assert (Hpool : NoDup (id <$> pool) ∧ (sel_maxSpecies cfg ≤ Z.of_nat (length pool))%Z).
  { unfold pool. case_bool_decide; [done|]. split; [|lia].
    eapply sublist_NoDup; [exact Hnd|]. apply fmap_sublist, preferences_sublist. }
  destruct Hpool as [Hpnd Hplen].
  pose proof (scored_plants cfg pool) as Hperm.
  set (scored := sortDesc ps_score
                   ((λ plant, PlantSelectorService.scorePlant cfg plant pool) <$> pool)) in *.
  assert (Hsnd : NoDup (id <$> (ps_plant <$> scored))) by by rewrite Hperm.
  assert (Hslen : length scored = length pool).
  { rewrite <- (length_fmap ps_plant scored). by rewrite Hperm. }
  pose proof (greedyGate_nodup cfg scored [] Hsnd) as Hgnd.
  unfold PlantSelectorService.greedySelection.
  case_bool_decide as Hshort; intros Hlen.
  - destruct (greedyFill_complete cfg scored _ Hgnd) as (Hfnd & _ & Hfull).
    split; [|done].
    destruct Hfull as [Hfull|Hall]; [lia|].
    assert (Hsub : id <$> (ps_plant <$> scored)
                   ⊆+ id <$> PlantSelectorService.greedyFill cfg scored
                               (PlantSelectorService.greedyGate cfg scored [])).
    { apply NoDup_submseteq; [done|]. intros i Hi.
      apply list_elem_of_fmap in Hi as (p & -> & Hp).
      apply list_elem_of_fmap in Hp as (c & -> & Hc). by apply Hall. }
    apply submseteq_length in Hsub. rewrite !length_fmap in Hsub. lia.
  - split; [lia|done].
Qed.

Lemma selectBestPlants_fills_witness :
  NoDup (id <$> [tomate; albahaca])
  ∧ (0 ≤ sel_maxSpecies (mkPlantSelectionConfig None 2 Objective.alimenticio None ∅)
       ≤ Z.of_nat (length [tomate; albahaca]))%Z
  ∧ Z.of_nat (length (PlantSelectorService.selectBestPlants
                        (mkPlantSelectionConfig None 2 Objective.alimenticio None ∅)
                        [tomate; albahaca])) = 2%Z.
Proof.
  assert (H1 : NoDup (id <$> [tomate; albahaca])).
  { simpl. apply NoDup_cons. split; [|apply NoDup_singleton].
    intros Hin. apply list_elem_of_singleton in Hin. discriminate Hin. }
  assert (H2 : (0 ≤ sel_maxSpecies (mkPlantSelectionConfig None 2 Objective.alimenticio None ∅)
                  ≤ Z.of_nat (length [tomate; albahaca]))%Z) by (simpl; lia).
  split; [exact H1|]. split; [exact H2|].
  exact (proj1 (selectBestPlants_fills _ _ H1 H2)).
Defined.

Lemma selector_lookup_bounded (cfg : PlantSelectionConfig) (s1 s2 : string) :
  boundedMatrix (sel_compatibilityMatrix cfg) →
  -1 <= PlantSelectorService.getCompatibility cfg s1 s2 <= 1.
Proof.
  intros Hb. unfold PlantSelectorService.getCompatibility.
  destruct (matrix_get _ s1 s2) as [v|] eqn:H1; [by eapply Hb|].
  destruct (matrix_get _ s2 s1) as [v|] eqn:H2; [by eapply Hb|]. lra.
Qed.

Lemma compatFold_bounded (cfg : PlantSelectionConfig) (plant : Plant)
    (others : list Plant) (acc : R * nat) :
  boundedMatrix (sel_compatibilityMatrix cfg) →
  - INR (snd acc) <= fst acc <= INR (snd acc) →
  let result := foldl (PlantSelectorService.compatStep cfg plant) acc others in
  - INR (snd result) <= fst result <= INR (snd result).
Proof.
  intros Hb. revert acc. induction others as [|o others IH]; intros acc Hacc; [done|].
  cbn [foldl]. apply IH. unfold PlantSelectorService.compatStep.
  case_bool_decide; [done|]. cbn [fst snd]. rewrite S_INR.
  pose proof (selector_lookup_bounded cfg (species plant) (species o) Hb). lra.
Qed.

Lemma scoreByCompatibility_range (cfg : PlantSelectionConfig) (plant : Plant)
    (others : list Plant) :
  boundedMatrix (sel_compatibilityMatrix cfg) →
  0 <= PlantSelectorService.scoreByCompatibility cfg plant others <= 1.
Proof.
  intros Hb. unfold PlantSelectorService.scoreByCompatibility.
  case_bool_decide; [lra|].
  pose proof (compatFold_bounded cfg plant others (0, 0%nat) Hb) as Hf.
  destruct (foldl _ _ others) as [total count]. cbn [fst snd] in Hf.
  case_bool_decide as Hc; [lra|].
  assert (Hpos : 0 < INR count) by (apply lt_0_INR; lia).
  specialize (Hf ltac:(simpl; lra)).
  assert (-1 <= total / INR count) by (apply ratio_ge; lra).
  assert (total / INR count <= 1) by (apply ratio_le; lra).
  lra.
Qed.

Lemma scoreByObjective_range (cfg : PlantSelectionConfig) (plant : Plant) :
  0 <= weeklyWatering plant →
  0 <= PlantSelectorService.scoreByObjective cfg plant <= 1.
Proof.
  intros Hw. unfold PlantSelectorService.scoreByObjective.
  destruct (sel_objective cfg); repeat match goal with
    | |- context [if ?b then _ else _] => destruct b end; try lra.
  split; [apply Rmax_l|]. apply Rmax_lub; lra.
Qed.

(** X15.  With compatibility scores in [-1, 1] and a plant of non-negative size
    and water need, the selector's score of a plant lies in [0, 1]. *)
Theorem scorePlant_range (cfg : PlantSelectionConfig) (plant : Plant)
    (context : list Plant) :
  boundedMatrix (sel_compatibilityMatrix cfg) →
  0 <= size plant → 0 <= weeklyWatering plant →
  0 <= ps_score (PlantSelectorService.scorePlant cfg plant context) <= 1.
Proof.
  intros Hb Hs Hw.
  unfold PlantSelectorService.scorePlant. cbn [ps_score].
  pose proof (scoreByObjective_range cfg plant Hw).
  pose proof (scoreByCompatibility_range cfg plant context Hb).
  assert (0 <= PlantSelectorService.scoreByResourceEfficiency plant <= 1).
  { unfold PlantSelectorService.scoreByResourceEfficiency.
    assert (0 <= Rmax 0 (1 - size plant / 2) <= 1)
      by (split; [apply Rmax_l|apply Rmax_lub; lra]).
    assert (0 <= Rmax 0 (1 - weeklyWatering plant / 100) <= 1)
      by (split; [apply Rmax_l|apply Rmax_lub; lra]).
    lra. }
  assert (0 <= PlantSelectorService.scoreByNutritionalDiversity plant <= 1).
  { unfold PlantSelectorService.scoreByNutritionalDiversity.
    split; [|apply Rmin_l]. apply Rmin_glb; [lra|].
    pose proof (pos_INR (length (type plant))). lra. }
  lra.
Qed.

Lemma scorePlant_range_witness :
  boundedMatrix (sel_compatibilityMatrix (pinTomate 1))
  ∧ 0 <= size tomate ∧ 0 <= weeklyWatering tomate
  ∧ 0 <= ps_score (PlantSelectorService.scorePlant (pinTomate 1) tomate [tomate; albahaca]) <= 1.
Proof.
  assert (H1 : boundedMatrix (sel_compatibilityMatrix (pinTomate 1))).
  { intros s1 s2 v. unfold matrix_get. simpl. rewrite lookup_empty. discriminate. }
  assert (H2 : 0 <= size tomate) by (simpl; lra).
  assert (H3 : 0 <= weeklyWatering tomate) by (simpl; lra).
  split; [exact H1|]. split; [exact H2|]. split; [exact H3|].
  exact (scorePlant_range (pinTomate 1) tomate [tomate; albahaca] H1 H2 H3).
Defined.

(** ** Genetic operators *)

Lemma sumR_snoc (l : list R) (a : R) : sumR (l ++ [a]) = sumR l + a.
Proof. unfold sumR. by rewrite foldl_app. Qed.

Lemma newPosition_inv (px py : R) (pos : Position) :
  newPosition px py = inr pos → pos = mkPosition px py ∧ 0 <= px ∧ 0 <= py.
Proof.
  unfold newPosition. destruct (px <? 0) eqn:Hx; [done|].
  destruct (py <? 0) eqn:Hy; [done|]. simpl. intros [= <-].
  apply ltb_ge in Hx, Hy. done.
Qed.

Lemma newPlantInstance_inv (p : Plant) (pos : Position) (w h : option R)
    (rot : option Z) (inst : PlantInstance) :
  newPlantInstance p pos w h rot = inr inst →
  inst = mkPlantInstance p pos (default (sqrt (size p)) w) (default (sqrt (size p)) h)
           (default 0%Z rot) pending.
Proof. unfold newPlantInstance. case_bool_decide; [|done]. by intros [= <-]. Qed.

Lemma placeAttempts_ok (fc : FitnessConfig) (constraints : GAConstraints)
    (w h : R) (pool : list Plant) (p : Plant) (remaining : nat)
    (st st' : Placement) (s s' : RngState) :
  p ∈ pool → placementOk constraints w h pool st →
  GeneticAlgorithm.placeAttempts fc constraints w h p remaining st s = Returned st' s' →
  placementOk constraints w h pool st'.
Proof.
  intros Hp Hst. revert s. induction remaining as [|n IH]; intros s; simpl.
  - by intros [-> _]%ret_returned.
  - intros (r1 & s1 & _ & H)%bind_returned.
    apply bind_returned in H as (r2 & s2 & _ & H).
    apply bind_returned in H as (pos & s3 & Hpos & H).
    apply bind_returned in H as (inst & s4 & Hinst & H).
    apply liftR_returned in Hpos as [Hpos _]. apply liftR_returned in Hinst as [Hinst _].
    apply newPosition_inv in Hpos as (-> & Hx & Hy).
    apply newPlantInstance_inv in Hinst. simpl in Hinst.
    destruct (negb (GeneticAlgorithm.hasCollision fc inst (plantInstances st)) && _ && _)
      eqn:Hok; [|by eapply IH].
    apply ret_returned in H as [-> _].
    apply andb_true_iff in Hok as [[_ Hb]%andb_true_iff Hc].
    apply andb_true_iff in Hb as [[[Hb1 Hb2]%andb_true_iff _]%andb_true_iff _].
    apply andb_true_iff in Hc as [[Hc1 Hc2]%andb_true_iff Hc3].
    apply leb_le in Hb1, Hb2, Hc1, Hc2.
    destruct Hst as (Hin & Hpool & Ha & Hw & Hc & _).
    unfold placementOk. cbn [plantInstances usedArea usedWater usedBudget].
    rewrite !fmap_app, !Forall_app, !Forall_singleton.
    rewrite !list_fmap_singleton, !sumR_snoc. rewrite <- Ha, <- Hw, <- Hc.
    repeat split; try done.
    + rewrite Hinst. cbn. done.
    + rewrite Hinst. cbn. done.
    + rewrite Hinst in Hb1. cbn in Hb1. rewrite Hinst. cbn. done.
    + rewrite Hinst in Hb2. cbn in Hb2. rewrite Hinst. cbn. done.
    + rewrite Hinst. cbn. done.
Qed.

Lemma forM_invariant_elem {A B} (I : B → Prop) (body : B → A → M B) (l : list A) :
  (∀ acc a s acc' s', a ∈ l → I acc → body acc a s = Returned acc' s' → I acc') →
  ∀ acc s acc' s', I acc → forM body l acc s = Returned acc' s' → I acc'.
Proof.
  induction l as [|a l IH]; intros Hbody acc s acc' s' Hacc; simpl.
  - by intros [-> _]%ret_returned.
  - intros (mid & s1 & H1 & H2)%bind_returned. eapply IH; [| |exact H2].
    + intros ? ? ? ? ? ?. apply Hbody. by right.
    + eapply Hbody; [left|exact Hacc|exact H1].
Qed.

Lemma insert_swap_head {A} (l : list A) (j : nat) (a aj : A) :
  l !! j = Some aj → aj :: <[j := a]> l ≡ₚ a :: l.
Proof.
  intros Hj. rewrite <- (take_drop_middle l j aj Hj) at 2.
  rewrite insert_take_drop by (by eapply lookup_lt_Some).
  rewrite !Permutation_middle. apply Permutation_app_head, Permutation_swap.
Qed.

Lemma swap_perm {A} (l : list A) (i j : nat) : swap l i j ≡ₚ l.
Proof.
  unfold swap. revert i j. induction l as [|a l IH]; intros i j; [by destruct i|].
  destruct i as [|i], j as [|j]; simpl.
  - done.
  - destruct (l !! j) as [aj|] eqn:Hj; [|done]. by apply insert_swap_head.
  - destruct (l !! i) as [ai|] eqn:Hi; [|done]. by apply insert_swap_head.
  - specialize (IH i j). destruct (l !! i) as [ai|]; [|done].
    destruct (l !! j) as [aj|]; [|done]. by rewrite IH.
Qed.

Lemma shuffleFrom_perm {A} (n : nat) (array : list A) (s : RngState) :
  ∃ shuffled s', GeneticAlgorithm.shuffleFrom n array s = Returned shuffled s'
                 ∧ shuffled ≡ₚ array.
Proof.
  revert array s. induction n as [|n IH]; intros array s.
  - by exists array, s.
  - cbn [GeneticAlgorithm.shuffleFrom]. rewrite bind_run, rng_draw.
    destruct (IH (swap array (S n) (Z.to_nat (Zfloor (draw s * (INR (S n) + 1)))))
                (advance s)) as (shuffled & s' & -> & Hperm).
    exists shuffled, s'. split; [done|]. by rewrite Hperm, swap_perm.
Qed.

(** X16.  With draws in [0, 1) the Fisher-Yates shuffle returns a rearrangement
    of the input array, and leaves the generator in such a state. *)
Theorem shuffleArray_permutation {A} (array : list A) (s : RngState) :
  goodRng s →
  ∃ shuffled s', GeneticAlgorithm.shuffleArray array s = Returned shuffled s'
                 ∧ shuffled ≡ₚ array ∧ goodRng s'.
Proof.
  intros Hs. unfold GeneticAlgorithm.shuffleArray.
  destruct (shuffleFrom_perm (length array - 1) array s) as (shuffled & s' & Hrun & Hperm).
  exists shuffled, s'. split; [done|]. split; [done|].
  revert s s' shuffled Hs Hrun Hperm. generalize (length array - 1)%nat at 1. intros n.
  revert array. induction n as [|n IH]; intros array s s' shuffled Hs Hrun _.
  - apply ret_returned in Hrun as [_ ->]. done.
  - cbn [GeneticAlgorithm.shuffleFrom] in Hrun. rewrite bind_run, rng_draw in Hrun.
    destruct (draw_range s Hs) as [_ Hs1].
    eapply (IH _ (advance s) s' shuffled Hs1 Hrun).
    destruct (shuffleFrom_perm n
                (swap array (S n) (Z.to_nat (Zfloor (draw s * (INR (S n) + 1)))))
                (advance s)) as (sh & t & Hr & Hp).
    rewrite Hrun in Hr. injection Hr as <- <-. exact Hp.
Qed.

Lemma shuffleArray_permutation_witness :
  goodRng (Lcg 42)
  ∧ ∃ shuffled s', GeneticAlgorithm.shuffleArray [tomate; albahaca] (Lcg 42)
                   = Returned shuffled s'
                   ∧ shuffled ≡ₚ [tomate; albahaca].
Proof.
  assert (H : goodRng (Lcg 42)) by (simpl; lia).
  split; [exact H|].
  destruct (shuffleArray_permutation [tomate; albahaca] (Lcg 42) H)
    as (shuffled & s' & Hrun & Hperm & _).
  by exists shuffled, s'.
Defined.

Lemma slice0_sublist {A} (l : list A) (e : Z) : slice0 l e `sublist_of` l.
Proof. unfold slice0. destruct (e <? 0)%Z; apply sublist_take. Qed.

Lemma createSmartIndividual_ok (fc : FitnessConfig) (cfg : GAConfig)
    (pool : list Plant) (constraints : GAConstraints) (s : RngState)
    (ind : Individual) (s' : RngState) :
  GeneticAlgorithm.createSmartIndividual fc cfg pool constraints s = Returned ind s' →
  ∃ w h, dimensions ind = mkDimensions w h ∧ 0 < w ∧ 0 < h
         ∧ w * h = maxArea constraints
         ∧ metrics ind = None
         ∧ placementOk constraints w h pool
             (mkPlacement (plants ind) (Ind.usedArea ind) (Ind.totalWeeklyWater ind)
                (Ind.totalCost ind)).
Proof.
  unfold GeneticAlgorithm.createSmartIndividual.
  intros (r1 & s1 & _ & H)%bind_returned.
  apply bind_returned in H as (dims & s2 & Hdims & H).
  apply bind_returned in H as (r2 & s3 & _ & H).
  apply bind_returned in H as (shuffled & s4 & Hsh & H).
  apply bind_returned in H as (st & s5 & Hloop & H).
  apply ret_returned in H as [-> _].
  apply liftR_returned in Hdims as [Hdims _].
  set (w := sqrt (maxArea constraints * (0.6 + r1 * 0.8))) in *.
  set (h := maxArea constraints / w) in *.
  unfold newDimensions in Hdims.
  destruct (w <=? 0) eqn:Hw; [done|]. destruct (h <=? 0) eqn:Hh; [done|].
  simpl in Hdims. injection Hdims as <-. apply leb_gt in Hw, Hh.
  exists w, h. split; [done|]. split; [done|]. split; [done|].
  split; [unfold h; field; lra|]. split; [done|].
  destruct (shuffleFrom_perm (length pool - 1) pool s3) as (sh' & s4' & Hsh' & Hperm).
  unfold GeneticAlgorithm.shuffleArray in Hsh. rewrite Hsh' in Hsh.
  injection Hsh as -> ->.
  assert (Hok : placementOk constraints w h pool st).
  { eapply (forM_invariant_elem (placementOk constraints w h pool)); [| |exact Hloop].
    - intros acc p t acc' t' Hp Hacc. unfold GeneticAlgorithm.placeSpecies.
      intros (r & t1 & _ & Hrep)%bind_returned.
      eapply (repeatM_invariant (placementOk constraints w h pool));
        [|exact Hacc|exact Hrep].
      intros ? ? ? ? ? ?. eapply placeAttempts_ok; [|done|done].
      rewrite <- Hperm. eapply elem_of_sublist; [exact Hp|apply slice0_sublist].
    - repeat split; try done; by constructor. }
  destruct Hok as (H1 & H2 & H3 & H4 & H5 & H6).
  unfold placementOk, Ind.usedArea, Ind.totalWeeklyWater, Ind.totalCost.
  cbn [plantInstances usedArea usedWater usedBudget plants Ind.new].
  rewrite <- H3, <- H4, <- H5. done.
Qed.

(** X17.  Every individual the initialiser builds has a plot whose area is the
    requested [maxArea]; its instances are plants of the pool standing
    inside the plot, they cover at most 85 % of [maxArea], and a non-empty
    layout respects the water limit and the budget. *)
Theorem createSmartIndividual_within_limits (fc : FitnessConfig) (cfg : GAConfig)
    (pool : list Plant) (constraints : GAConstraints) (s : RngState)
    (ind : Individual) (s' : RngState) :
  GeneticAlgorithm.createSmartIndividual fc cfg pool constraints s = Returned ind s' →
  totalArea (dimensions ind) = maxArea constraints
  ∧ Forall (insidePlot (dimensions ind)) (plants ind)
  ∧ Forall (λ inst, plant inst ∈ pool) (plants ind)
  ∧ Ind.usedArea ind <= 0.85 * maxArea constraints
  ∧ (plants ind ≠ [] →
     Ind.totalWeeklyWater ind <= c_maxWaterWeekly constraints
     ∧ GeneticAlgorithm.withinBudget constraints (Ind.totalCost ind) = true).
Proof.
  intros Hrun.
  destruct (createSmartIndividual_ok _ _ _ _ _ _ _ Hrun)
    as (w & h & Hd & Hw & Hh & Harea & _ & H1 & H2 & _ & _ & _ & H6).
  cbn [plantInstances usedArea usedWater usedBudget] in *.
  rewrite Hd. split; [done|]. split; [done|]. split; [done|]. split.
  - destruct (plants ind) as [|i l] eqn:Hp.
    + unfold Ind.usedArea. rewrite Hp. simpl. rewrite sumR_nil. nra.
    + destruct H6 as (H6 & _); [done|]. lra.
  - intros Hne. destruct (H6 Hne) as (_ & ? & ?). done.
Qed.

Lemma createSmartIndividual_within_limits_witness :
  GeneticAlgorithm.createSmartIndividual (waterConfig 90) duoConfig [tomate] smallPlot
    (Lcg 54713) = Returned sownPlot (Lcg 221338)
  ∧ Ind.usedArea sownPlot <= 0.85 * maxArea smallPlot.
Proof.
  split; [exact createSmartIndividual_sown|].
  exact (proj1 (proj2 (proj2 (proj2
    (createSmartIndividual_within_limits _ _ _ _ _ _ _ createSmartIndividual_sown))))).
Defined.

Lemma safe_ret {A} (a : A) (post : A → Prop) : post a → safe (mret a) post.
Proof. intros Ha s Hs. by exists a, s. Qed.

Lemma safe_bind {A B} (m : M A) (k : A → M B) (P : A → Prop) (Q : B → Prop) :
  safe m P → (∀ a, P a → safe (k a) Q) → safe (m ≫= k) Q.
Proof.
  intros Hm Hk s Hs. destruct (Hm s Hs) as (a & s1 & H1 & Hs1 & Ha).
  destruct (Hk a Ha s1 Hs1) as (b & s2 & H2 & Hs2 & Hb).
  exists b, s2. rewrite bind_run, H1. done.
Qed.

Lemma safe_rng : safe rng (λ r, 0 <= r < 1).
Proof.
  intros s Hs. exists (draw s), (advance s). rewrite rng_draw.
  destruct (draw_range s Hs). done.
Qed.

Lemma safe_liftR {A} (r : Result A) (a : A) (post : A → Prop) :
  r = inr a → post a → safe (liftR r) post.
Proof. intros -> Ha s Hs. by exists a, s. Qed.

Lemma safe_forM {A B} (I : B → Prop) (body : B → A → M B) (l : list A) (acc : B) :
  (∀ acc a, a ∈ l → I acc → safe (body acc a) I) → I acc → safe (forM body l acc) I.
Proof.
  revert acc. induction l as [|a l IH]; intros acc Hbody Hacc; simpl.
  - by apply safe_ret.
  - eapply safe_bind; [apply Hbody; [left|done]|].
    intros acc' Hacc'. apply IH; [|done]. intros ? ? ? ?. apply Hbody; [by right|done].
Qed.

Lemma safe_repeatM {B} (I : B → Prop) (body : B → M B) (n : nat) (acc : B) :
  (∀ acc, I acc → safe (body acc) I) → I acc → safe (repeatM body n acc) I.
Proof.
  intros Hbody. revert acc. induction n as [|n IH]; intros acc Hacc; simpl.
  - by apply safe_ret.
  - eapply safe_bind; [by apply Hbody|]. intros acc' Hacc'. by apply IH.
Qed.

Lemma safe_shuffleFrom {A} (n : nat) (array : list A) :
  safe (GeneticAlgorithm.shuffleFrom n array) (λ _, True).
Proof.
  revert array. induction n as [|n IH]; intros array.
  - by apply safe_ret.
  - cbn [GeneticAlgorithm.shuffleFrom]. eapply safe_bind; [apply safe_rng|].
    intros r _. apply IH.
Qed.

Lemma margin_position (margin extent r : R) :
  0 <= margin <= extent → 0 <= r < 1 → 0 <= margin + r * (extent - 2 * margin).
Proof. intros [H0 H1] [Hr0 Hr1]. nra. Qed.

Lemma safe_placeAttempts (fc : FitnessConfig) (constraints : GAConstraints)
    (w h : R) (p : Plant) (remaining : nat) (st : Placement) :
  0 <= sqrt (size p) <= w → 0 <= sqrt (size p) <= h →
  safe (GeneticAlgorithm.placeAttempts fc constraints w h p remaining st) (λ _, True).
Proof.
  intros Hw Hh. induction remaining as [|n IH]; simpl; [by apply safe_ret|].
  eapply safe_bind; [apply safe_rng|]. intros r1 Hr1.
  eapply safe_bind; [apply safe_rng|]. intros r2 Hr2.
  eapply safe_bind.
  { eapply (safe_liftR _ _ (λ _, True)); [|done].
    cbv beta in Hr1, Hr2. apply newPosition_ok; by apply margin_position. }
  intros pos _. eapply safe_bind.
  { eapply (safe_liftR _ _ (λ _, True)); [|done]. unfold newPlantInstance.
    rewrite bool_decide_true; [done|]. simpl. left. }
  intros inst _.
  match goal with |- safe (if ?b then _ else _) _ => destruct b end;
    [by apply safe_ret|exact IH].
Qed.

Lemma plot_fits (area r size : R) :
  0 < area → 0 <= r < 1 → 0 <= size <= 0.6 * area →
  0 < sqrt (area * (0.6 + r * 0.8))
  ∧ 0 < area / sqrt (area * (0.6 + r * 0.8))
  ∧ sqrt size <= sqrt (area * (0.6 + r * 0.8))
  ∧ sqrt size <= area / sqrt (area * (0.6 + r * 0.8)).
Proof.
  intros Ha [Hr0 Hr1] [Hs0 Hs1]. set (w := sqrt (area * (0.6 + r * 0.8))).
  assert (Hpos : 0 < area * (0.6 + r * 0.8)) by nra.
  assert (Hw : 0 < w) by (by apply sqrt_lt_R0).
  assert (Hww : w * w = area * (0.6 + r * 0.8)) by (apply sqrt_sqrt; lra).
  assert (Hmm : sqrt size * sqrt size = size) by (by apply sqrt_sqrt).
  pose proof (sqrt_pos size) as Hm.
  assert (Hh : 0 < area / w) by (by apply Rdiv_lt_0_compat).
  split; [done|]. split; [done|]. split.
  - apply sqrt_le_1_alt. nra.
  - apply ratio_ge; [done|].
    assert (Hsq : (sqrt size * w) * (sqrt size * w) <= area * area) by nra.
    assert (0 <= sqrt size * w) by nra. nra.
Qed.

Lemma safe_createSmartIndividual (fc : FitnessConfig) (cfg : GAConfig)
    (pool : list Plant) (constraints : GAConstraints) :
  0 < maxArea constraints →
  (∀ p, p ∈ pool → 0 <= size p <= 0.6 * maxArea constraints) →
  safe (GeneticAlgorithm.createSmartIndividual fc cfg pool constraints) (λ _, True).
Proof.
  intros Harea Hpool. unfold GeneticAlgorithm.createSmartIndividual.
  eapply safe_bind; [apply safe_rng|]. intros r1 Hr1.
  set (w := sqrt (maxArea constraints * (0.6 + r1 * 0.8))).
  assert (Hfit : ∀ p, p ∈ pool →
            0 < w ∧ 0 < maxArea constraints / w
            ∧ sqrt (size p) <= w ∧ sqrt (size p) <= maxArea constraints / w).
  { intros p Hp. apply plot_fits; [done|done|by apply Hpool]. }
  assert (Hdim : 0 < w ∧ 0 < maxArea constraints / w).
  { destruct (plot_fits (maxArea constraints) r1 0 Harea Hr1) as (? & ? & _); [lra|].
    done. }
  eapply safe_bind.
  { eapply (safe_liftR _ _ (λ _, True)); [|done]. apply newDimensions_ok; apply Hdim. }
  intros dims _. eapply safe_bind; [apply safe_rng|]. intros r2 Hr2.
  eapply safe_bind.
  { intros s Hs. destruct (safe_shuffleFrom (length pool - 1) pool s Hs)
      as (shuffled & s' & Hrun & Hs' & _).
    exists shuffled, s'. split; [exact Hrun|]. split; [done|].
    destruct (shuffleFrom_perm (length pool - 1) pool s) as (sh & t & Hrun' & Hperm).
    rewrite Hrun in Hrun'. injection Hrun' as <- <-. exact Hperm. }
  intros shuffled Hperm. cbv beta in Hperm. eapply safe_bind.
  { apply (safe_forM (λ _, True)); [|done].
    intros acc p Hp _. unfold GeneticAlgorithm.placeSpecies.
    eapply safe_bind; [apply safe_rng|]. intros r _.
    apply (safe_repeatM (λ _, True)); [|done]. intros st _.
    assert (Hin : p ∈ pool).
    { rewrite <- Hperm. eapply elem_of_sublist; [exact Hp|apply slice0_sublist]. }
    destruct (Hfit p Hin) as (_ & _ & H1 & H2). pose proof (sqrt_pos (size p)).
    by apply safe_placeAttempts. }
  intros st _. by apply safe_ret.
Qed.

(** X18.  The initialiser returns a full population whenever the plot has a
    positive area, every draw lies in [0, 1) and no plant of the pool is
    larger than 60 % of the plot: no placement attempt then computes a
    negative coordinate. *)
Theorem initializePopulation_total (fc : FitnessConfig) (cfg : GAConfig)
    (pool : list Plant) (constraints : GAConstraints) (s : RngState) :
  0 < maxArea constraints →
  (∀ p, p ∈ pool → 0 <= size p <= 0.6 * maxArea constraints) →
  goodRng s →
  ∃ population s',
    GeneticAlgorithm.initializePopulationHeuristic fc cfg pool constraints s
    = Returned population s'
    ∧ length population = populationSize cfg.
Proof.
  intros Harea Hpool Hs. unfold GeneticAlgorithm.initializePopulationHeuristic.
  assert (Hsafe : ∀ n acc,
            safe (repeatM (λ population,
                    individual ← GeneticAlgorithm.createSmartIndividual fc cfg pool
                                   constraints;
                    mret (population ++ [individual])) n acc)
              (λ population, length population = (length acc + n)%nat)).
  { induction n as [|n IH]; intros acc; simpl.
    - apply safe_ret. lia.
    - eapply safe_bind.
      + eapply safe_bind; [by apply safe_createSmartIndividual|].
        intros ind _. apply (safe_ret _ (λ l, length l = S (length acc))).
        rewrite length_app. simpl. lia.
      + intros acc' Hacc'. cbv beta in Hacc'. intros t Ht.
        destruct (IH acc' t Ht) as (l & t' & Hl & Ht' & Hlen).
        exists l, t'. split; [done|]. split; [done|]. lia. }
  destruct (Hsafe (populationSize cfg) [] s Hs) as (population & s' & Hrun & _ & Hlen).
  by exists population, s'.
Qed.

Lemma initializePopulation_total_witness :
  0 < maxArea smallPlot
  ∧ (∀ p, p ∈ [tomate] → 0 <= size p <= 0.6 * maxArea smallPlot)
  ∧ goodRng (Lcg 42)
  ∧ ∃ population s',
      GeneticAlgorithm.initializePopulationHeuristic (waterConfig 90) duoConfig [tomate]
        smallPlot (Lcg 42) = Returned population s'
      ∧ length population = populationSize duoConfig.
Proof.
  assert (H1 : 0 < maxArea smallPlot) by (simpl; lra).
  assert (H2 : ∀ p, p ∈ [tomate] → 0 <= size p <= 0.6 * maxArea smallPlot).
  { intros p Hp. apply list_elem_of_singleton in Hp. rewrite Hp. simpl. lra. }
  assert (H3 : goodRng (Lcg 42)) by (simpl; lia).
  split; [exact H1|]. split; [exact H2|]. split; [exact H3|].
  exact (initializePopulation_total (waterConfig 90) duoConfig [tomate] smallPlot
           (Lcg 42) H1 H2 H3).
Defined.

Lemma randomIndex_lt (n : nat) (s : RngState) :
  goodRng s → (0 < n)%nat →
  ∃ i, randomIndex n s = Returned i (advance s) ∧ (i < n)%nat ∧ goodRng (advance s).
Proof.
  intros Hs Hn. unfold randomIndex. rewrite bind_run, rng_draw.
  destruct (draw_range s Hs) as [[Hr0 Hr1] Hs'].
  eexists. split; [reflexivity|]. split; [|done].
  assert (Hpos : 0 < INR n) by (apply lt_0_INR; lia).
  pose proof (Zfloor_bound (draw s * INR n)) as [Hlo Hhi].
  assert (Hge : (0 ≤ Zfloor (draw s * INR n))%Z).
  { apply Zfloor_lub. simpl. nra. }
  assert (Hlt : (Zfloor (draw s * INR n) < Z.of_nat n)%Z).
  { apply lt_IZR. rewrite <- INR_IZR_INZ. nra. }
  lia.
Qed.

(** X19.  The delete mutation never leaves fewer than two plants: a layout of at
    most two plants is returned unchanged, a larger one loses exactly one
    instance and keeps the others in their order. *)
Theorem deleteMutation_keeps_two (ind : Individual) (s : RngState) :
  goodRng s →
  ∃ ind' s',
    GeneticAlgorithm.deleteMutation ind s = Returned ind' s'
    ∧ dimensions ind' = dimensions ind
    ∧ plants ind' `sublist_of` plants ind
    ∧ ((length (plants ind) ≤ 2)%nat → plants ind' = plants ind)
    ∧ ((2 < length (plants ind))%nat →
       length (plants ind') = (length (plants ind) - 1)%nat).
Proof.
  intros Hs. unfold GeneticAlgorithm.deleteMutation. case_bool_decide as Hlen.
  - exists ind, s. repeat split; try done. lia.
  - destruct (randomIndex_lt (length (plants ind)) s Hs) as (i & Hi & Hlt & _); [lia|].
    rewrite bind_run, Hi. eexists _, _. split; [reflexivity|]. simpl.
    split; [done|]. split; [apply sublist_delete|]. split; [lia|].
    intros _. apply length_delete. by apply lookup_lt_is_Some.
Qed.

Lemma deleteMutation_keeps_two_witness :
  goodRng (Lcg 42)
  ∧ ∃ ind' s',
      GeneticAlgorithm.deleteMutation
        (Ind.setPlants plot [tomateAt 5.2 8.5; inserted; tomateAt 1 1]) (Lcg 42)
      = Returned ind' s'
      ∧ length (plants ind') = 2%nat.
Proof.
  assert (H : goodRng (Lcg 42)) by (simpl; lia).
  split; [exact H|].
  destruct (deleteMutation_keeps_two
              (Ind.setPlants plot [tomateAt 5.2 8.5; inserted; tomateAt 1 1]) (Lcg 42) H)
    as (ind' & s' & H1 & _ & _ & _ & H2).
  exists ind', s'. split; [exact H1|]. apply H2. simpl. lia.
Defined.





Lemma insertAttempts_ok (fc : FitnessConfig) (constraints : GAConstraints)
    (p : Plant) (remaining : nat) (ind ind' : Individual) (s s' : RngState) :
  GeneticAlgorithm.insertAttempts fc constraints p remaining ind s = Returned ind' s' →
  dimensions ind' = dimensions ind
  ∧ (plants ind' = plants ind
     ∨ ∃ new, plants ind' = plants ind ++ [new] ∧ plant new = p
              ∧ insidePlot (dimensions ind) new
              ∧ Forall (λ existing, Instance.overlaps new existing = false) (plants ind)
              ∧ Ind.usedArea ind' <= maxArea constraints * 0.85
              ∧ Ind.totalWeeklyWater ind' <= c_maxWaterWeekly constraints).
Proof.
  revert s. induction remaining as [|n IH]; intros s; simpl.
  - intros [-> _]%ret_returned. split; [done|]. by left.
  - intros (r1 & s1 & _ & H)%bind_returned.
    apply bind_returned in H as (r2 & s2 & _ & H).
    apply bind_returned in H as (pos & s3 & Hpos & H).
    apply bind_returned in H as (inst & s4 & Hinst & H).
    apply liftR_returned in Hpos as [Hpos _]. apply liftR_returned in Hinst as [Hinst _].
    apply newPosition_inv in Hpos as (-> & Hx & Hy).
    apply newPlantInstance_inv in Hinst. simpl in Hinst.
    destruct (negb (GeneticAlgorithm.hasCollision fc inst (plants ind)) && _ && _ && _)
      eqn:Hok; [|by eapply IH].
    apply ret_returned in H as [-> _]. split; [done|]. right. exists inst.
    apply andb_true_iff in Hok as [[[Hc%negb_true_iff Hb]%andb_true_iff Ha]%andb_true_iff Hw].
    apply andb_true_iff in Hb as [Hb1 Hb2].
    apply leb_le in Hb1, Hb2, Ha, Hw.
    apply hasCollision_false in Hc as [_ Hov].
    unfold Ind.usedArea, Ind.totalWeeklyWater in *.
    cbn [plants Ind.setPlants]. rewrite !fmap_app, !list_fmap_singleton, !sumR_snoc.
    split; [done|]. split; [by rewrite Hinst|].
    split; [|done].
    rewrite Hinst in Hb1, Hb2. cbn in Hb1, Hb2. rewrite Hinst. by cbn.
Qed.

(** X21.  The insert mutation keeps the plot and either leaves the layout
    unchanged or appends one instance of a pool plant that lies inside the
    plot and overlaps no other instance; the layout then still covers at
    most 85 % of [maxArea], respects the water limit and has at most
    [3 * maxSpecies] instances. *)
Theorem insertMutation_within_limits (fc : FitnessConfig) (cfg : GAConfig)
    (pool : list Plant) (constraints : GAConstraints) (ind ind' : Individual)
    (s s' : RngState) :
  GeneticAlgorithm.insertMutation fc cfg pool constraints ind s = Returned ind' s' →
  dimensions ind' = dimensions ind
  ∧ (plants ind' = plants ind
     ∨ ∃ new, plants ind' = plants ind ++ [new] ∧ plant new ∈ pool
              ∧ insidePlot (dimensions ind) new
              ∧ Forall (λ existing, Instance.overlaps new existing = false) (plants ind)
              ∧ Ind.usedArea ind' <= maxArea constraints * 0.85
              ∧ Ind.totalWeeklyWater ind' <= c_maxWaterWeekly constraints
              ∧ (Z.of_nat (length (plants ind')) ≤ maxSpecies cfg * 3)%Z).
Proof.
  unfold GeneticAlgorithm.insertMutation. case_bool_decide as Hfull.
  - intros [-> _]%ret_returned. split; [done|]. by left.
  - intros (idx & s1 & _ & H)%bind_returned.
    destruct (pool !! idx) as [p|] eqn:Hp; [|done].
    apply insertAttempts_ok in H as [Hd [H|(new & H1 & H2 & H3 & H4 & H5 & H6)]];
      (split; [done|]); [by left|].
    right. exists new. split; [done|].
    split; [rewrite H2; by eapply list_elem_of_lookup_2|].
    repeat (split; [done|]). rewrite H1, length_app. simpl. lia.
Qed.

Lemma insertMutation_within_limits_witness :
  GeneticAlgorithm.insertMutation (waterConfig 100) soloConfig [tomate] plotLimits plot
    (seededRandom 42)
  = Returned (Ind.setPlants plot [tomateAt 5.2 8.5; inserted]) (Lcg 223713)
  ∧ dimensions (Ind.setPlants plot [tomateAt 5.2 8.5; inserted]) = dimensions plot.
Proof.
  split; [exact insertMutation_plot|].
  exact (proj1 (insertMutation_within_limits _ _ _ _ _ _ _ _ insertMutation_plot)).
Defined.

Lemma moveAttempts_ok (fc : FitnessConfig) (idx : nat) (plantToMove : PlantInstance)
    (remaining : nat) (ind ind' : Individual) (s s' : RngState) :
  GeneticAlgorithm.moveAttempts fc idx plantToMove remaining ind s = Returned ind' s' →
  dimensions ind' = dimensions ind
  ∧ (plants ind' = plants ind
     ∨ ∃ moved, plants ind' = <[idx := moved]> (plants ind)
                ∧ sameFootprint plantToMove moved
                ∧ insidePlot (dimensions ind) moved
                ∧ Forall (λ other, Instance.overlaps moved other = false)
                    (delete idx (plants ind))).
Proof.
  revert s. induction remaining as [|n IH]; intros s; simpl.
  - intros [-> _]%ret_returned. split; [done|]. by left.
  - intros (r1 & s1 & _ & H)%bind_returned.
    apply bind_returned in H as (r2 & s2 & _ & H).
    apply bind_returned in H as (pos & s3 & Hpos & H).
    apply bind_returned in H as (inst & s4 & Hinst & H).
    apply liftR_returned in Hpos as [Hpos _]. apply liftR_returned in Hinst as [Hinst _].
    apply newPosition_inv in Hpos as (-> & Hx & Hy).
    apply newPlantInstance_inv in Hinst. simpl in Hinst.
    destruct (negb (GeneticAlgorithm.hasCollision fc inst (delete idx (plants ind))) && _)
      eqn:Hok; [|by eapply IH].
    apply ret_returned in H as [-> _]. split; [done|]. right. exists inst.
    apply andb_true_iff in Hok as [Hc%negb_true_iff [Hb1 Hb2]%andb_true_iff].
    apply leb_le in Hb1, Hb2. apply hasCollision_false in Hc as [_ Hov].
    split; [done|]. split; [by rewrite Hinst|]. split; [|done].
    rewrite Hinst in Hb1, Hb2. cbn in Hb1, Hb2. rewrite Hinst. by cbn.
Qed.

(** X22.  The position mutation keeps the plot, the number of instances and, for
    each of them, its plant, footprint and rotation; it changes at most one
    position, and the instance it moves lies inside the plot and overlaps no
    other instance. *)
Theorem positionMutation_moves_one (fc : FitnessConfig) (ind ind' : Individual)
    (s s' : RngState) :
  GeneticAlgorithm.positionMutation fc ind s = Returned ind' s' →
  dimensions ind' = dimensions ind
  ∧ Forall2 sameFootprint (plants ind) (plants ind')
  ∧ (plants ind' = plants ind
     ∨ ∃ idx moved, (idx < length (plants ind))%nat
                    ∧ plants ind' = <[idx := moved]> (plants ind)
                    ∧ insidePlot (dimensions ind) moved
                    ∧ Forall (λ other, Instance.overlaps moved other = false)
                        (delete idx (plants ind))).
Proof.
  assert (Hrefl : Forall2 sameFootprint (plants ind) (plants ind)).
  { apply Forall_Forall2_diag, Forall_forall. intros inst _. by repeat split. }
  unfold GeneticAlgorithm.positionMutation. case_bool_decide as Hempty.
  - intros [-> _]%ret_returned. split; [done|]. split; [done|]. by left.
  - intros (idx & s1 & _ & H)%bind_returned.
    destruct (plants ind !! idx) as [old|] eqn:Hold; [|done].
    apply moveAttempts_ok in H as [Hd [H|(moved & H1 & H2 & H3 & H4)]];
      (split; [done|]).
    + rewrite H. split; [done|]. by left.
    + split.
      * rewrite H1. rewrite <- (list_insert_id (plants ind) idx old Hold) at 1.
        by apply Forall2_insert.
      * right. exists idx, moved. split; [by eapply lookup_lt_Some|]. done.
Qed.

Lemma moveAttempts_first (fc : FitnessConfig) (idx : nat) (old : PlantInstance)
    (n : nat) (ind : Individual) (s s1 s2 : RngState) (r1 r2 : R) :
  rng s = Returned r1 s1 → rng s1 = Returned r2 s2 →
  let margin := sqrt (size (plant old)) in
  let px := margin + r1 * (width (dimensions ind) - 2 * margin) in
  let py := margin + r2 * (height (dimensions ind) - 2 * margin) in
  let moved := mkPlantInstance (plant old) (mkPosition px py) (pi_width old)
                 (pi_height old) (rotation old) pending in
  0 <= px → 0 <= py → rotation old ∈ [0; 90; 180; 270]%Z →
  GeneticAlgorithm.hasCollision fc moved (delete idx (plants ind)) = false →
  px + pi_width old <= width (dimensions ind) →
  py + pi_height old <= height (dimensions ind) →
  GeneticAlgorithm.moveAttempts fc idx old (S n) ind s
  = Returned (Ind.setPlants ind (<[idx := moved]> (plants ind))) s2.
Proof.
  intros Hr1 Hr2 margin px py moved Hx Hy Hrot Hcol Hw Hh.
  cbn [GeneticAlgorithm.moveAttempts].
  rewrite bind_run, Hr1, bind_run, Hr2, bind_run.
  fold margin. fold px. fold py.
  rewrite newPosition_ok by done. cbn [liftR]. rewrite bind_run.
  unfold newPlantInstance. cbn [default from_option]. unfold Datatypes.id.
  rewrite bool_decide_true by done.
  cbn [liftR ok]. unfold moved in Hcol. rewrite Hcol.
  cbn [pi_width pi_height negb andb].
  rewrite (proj2 (leb_le _ _) Hw), (proj2 (leb_le _ _) Hh). reflexivity.
Qed.

Lemma move_run :
  GeneticAlgorithm.positionMutation (waterConfig 100) plot (seededRandom 42)
  = Returned (Ind.setPlants plot [inserted]) (Lcg 223713).
Proof.
  unfold GeneticAlgorithm.positionMutation, seededRandom.
  cbn [plants plot length]. rewrite bool_decide_false by lia.
  unfold randomIndex. rewrite !bind_run, rng_lcg, Zfloor_draw. compute_lcg. compute_index.
  rewrite !mret_run. cbn [lookup list_lookup].
  erewrite moveAttempts_first; [| apply rng_lcg | apply rng_lcg | ..].
  - compute_lcg. unfold inserted, tomateAt, tomate. simpl. rewrite sqrt_1. reflexivity.
  - compute_lcg. simpl. rewrite sqrt_1. lra.
  - compute_lcg. simpl. rewrite sqrt_1. lra.
  - simpl. left.
  - reflexivity.
  - compute_lcg. simpl. rewrite sqrt_1. lra.
  - compute_lcg. simpl. rewrite sqrt_1. lra.
Qed.

Lemma positionMutation_moves_one_witness :
  GeneticAlgorithm.positionMutation (waterConfig 100) plot (seededRandom 42)
  = Returned (Ind.setPlants plot [inserted]) (Lcg 223713)
  ∧ Forall2 sameFootprint (plants plot) (plants (Ind.setPlants plot [inserted])).
Proof.
  split; [exact move_run|].
  exact (proj1 (proj2 (positionMutation_moves_one _ _ _ _ _ move_run))).
Defined.

Lemma winner_fold (rest : list Individual) (acc : Individual) :
  let winner :=
    foldl (λ best current,
             if Ind.fitness current >? Ind.fitness best then current else best)
      acc rest in
  (winner = acc ∨ winner ∈ rest)
  ∧ Ind.fitness acc <= Ind.fitness winner
  ∧ ∀ ind, ind ∈ rest → Ind.fitness ind <= Ind.fitness winner.
Proof.
  revert acc. induction rest as [|c rest IH]; intros acc; simpl.
  - split; [by left|]. split; [lra|]. by intros ind ?%elem_of_nil.
  - destruct (IH (if Ind.fitness c >? Ind.fitness acc then c else acc))
      as (Hmem & Hacc & Hall).
    unfold Num.gtb in *. destruct (Ind.fitness acc <? Ind.fitness c) eqn:Hc.
    + apply ltb_lt in Hc. split; [|split].
      * right. destruct Hmem as [->|Hmem]; [left|by right].
      * lra.
      * intros ind [->|Hin]%elem_of_cons; [done|by apply Hall].
    + apply ltb_ge in Hc. split; [|split].
      * destruct Hmem as [Hmem|Hmem]; [by left|right; by right].
      * done.
      * intros ind [->|Hin]%elem_of_cons; [lra|by apply Hall].
Qed.

Lemma tournamentWinner_member (tournament : list Individual) (s : RngState)
    (winner : Individual) (s' : RngState) :
  GeneticAlgorithm.tournamentWinner tournament s = Returned winner s' →
  winner ∈ tournament.
Proof.
  destruct tournament as [|first rest]; [done|]. simpl.
  intros [-> _]%ret_returned.
  destruct (winner_fold rest first) as ([->|Hmem] & _); [left|by right].
Qed.

Lemma pick_member (population : list Individual) (s : RngState)
    (ind : Individual) (s' : RngState) :
  GeneticAlgorithm.pick population s = Returned ind s' → ind ∈ population.
Proof.
  unfold GeneticAlgorithm.pick. intros (i & s1 & _ & H)%bind_returned.
  destruct (population !! i) as [x|] eqn:Hx; [|done].
  apply ret_returned in H as [-> _]. by eapply list_elem_of_lookup_2.
Qed.

Lemma safe_pick (population : list Individual) :
  population ≠ [] →
  safe (GeneticAlgorithm.pick population) (λ ind, ind ∈ population).
Proof.
  intros Hne s Hs. unfold GeneticAlgorithm.pick.
  destruct (randomIndex_lt (length population) s Hs) as (i & Hi & Hlt & Hs').
  { destruct population; [done|simpl; lia]. }
  rewrite bind_run, Hi.
  destruct (lookup_lt_is_Some_2 population i Hlt) as [ind Hind]. rewrite Hind.
  exists ind, (advance s). split; [done|]. split; [done|].
  by eapply list_elem_of_lookup_2.
Qed.

Lemma safe_tournament (cfg : GAConfig) (population : list Individual) (n : nat)
    (acc : list Individual) :
  population ≠ [] →
  safe (repeatM (λ tournament,
                   individual ← GeneticAlgorithm.pick population;
                   mret (tournament ++ [individual])) n acc)
    (λ tournament, length tournament = (length acc + n)%nat
                   ∧ ((∀ ind, ind ∈ acc → ind ∈ population) →
                      ∀ ind, ind ∈ tournament → ind ∈ population)).
Proof.
  intros Hne. revert acc. induction n as [|n IH]; intros acc; simpl.
  - apply safe_ret. split; [lia|done].
  - eapply (safe_bind _ _ (λ l, ∃ w, l = acc ++ [w] ∧ w ∈ population)).
    + eapply safe_bind; [by apply safe_pick|]. intros ind Hind.
      apply safe_ret. by exists ind.
    + intros acc' (ind & -> & Hind). intros s Hs.
      destruct (IH (acc ++ [ind]) s Hs) as (l & s' & Hl & Hs' & Hlen & Hmem).
      exists l, s'. split; [done|]. split; [done|]. rewrite length_app in Hlen.
      simpl in Hlen. split; [lia|]. intros Hacc. apply Hmem.
      intros x [Hx|Hx]%elem_of_app; [by apply Hacc|].
      apply list_elem_of_singleton in Hx as ->. done.
Qed.

(** X23.  Tournament selection, with a non-empty population, tournaments of at
    least one draw and draws in [0, 1), returns [populationSize] winners, each
    of them a member of the population. *)
Theorem tournamentSelection_members (cfg : GAConfig) (population : list Individual)
    (s : RngState) :
  goodRng s → population ≠ [] → (0 < tournamentK cfg)%nat →
  ∃ selected s',
    GeneticAlgorithm.tournamentSelection cfg population s = Returned selected s'
    ∧ length selected = populationSize cfg
    ∧ ∀ ind, ind ∈ selected → ind ∈ population.
Proof.
  intros Hs Hne Hk. unfold GeneticAlgorithm.tournamentSelection.
  assert (Hsafe : ∀ n acc,
            safe (repeatM (λ selected,
                    tournament ← repeatM (λ tournament,
                                    individual ← GeneticAlgorithm.pick population;
                                    mret (tournament ++ [individual]))
                                  (tournamentK cfg) [];
                    winner ← GeneticAlgorithm.tournamentWinner tournament;
                    mret (selected ++ [winner])) n acc)
              (λ selected, length selected = (length acc + n)%nat
                           ∧ ((∀ ind, ind ∈ acc → ind ∈ population) →
                              ∀ ind, ind ∈ selected → ind ∈ population))).
  { induction n as [|n IH]; intros acc; simpl.
    - apply safe_ret. split; [lia|done].
    - eapply (safe_bind _ _ (λ l, ∃ w, l = acc ++ [w] ∧ w ∈ population)).
      + eapply safe_bind; [by apply (safe_tournament cfg)|].
        intros tournament [Hlen Hmem]. simpl in Hlen.
        destruct tournament as [|first rest]; [simpl in Hlen; lia|].
        eapply (safe_bind _ _ (λ w, w = first ∨ w ∈ rest)).
        * intros t Ht. eexists _, t. split; [reflexivity|]. split; [done|].
          exact (proj1 (winner_fold rest first)).
        * intros winner Hw. apply safe_ret.
          exists winner. split; [done|]. apply Hmem; [by intros ? ?%elem_of_nil|].
          destruct Hw as [->|Hw]; [left|by right].
      + intros acc' (w & -> & Hw). intros t Ht.
        destruct (IH (acc ++ [w]) t Ht) as (l & t' & Hl & Ht' & Hlen & Hmem).
        exists l, t'. split; [done|]. split; [done|]. rewrite length_app in Hlen.
        simpl in Hlen. split; [lia|]. intros Hacc. apply Hmem.
        intros x [Hx|Hx]%elem_of_app; [by apply Hacc|].
        apply list_elem_of_singleton in Hx as ->. done. }
  destruct (Hsafe (populationSize cfg) [] s Hs) as (selected & s' & Hrun & _ & Hlen & Hmem).
  exists selected, s'. split; [done|]. split; [done|].
  apply Hmem. by intros ? ?%elem_of_nil.
Qed.

Lemma tournamentSelection_members_witness :
  goodRng (Lcg 221338) ∧ [bareScored; sownScored] ≠ [] ∧ (0 < tournamentK duoConfig)%nat
  ∧ ∃ selected s',
      GeneticAlgorithm.tournamentSelection duoConfig [bareScored; sownScored] (Lcg 221338)
      = Returned selected s'
      ∧ length selected = populationSize duoConfig.
Proof.
  assert (H1 : goodRng (Lcg 221338)) by (simpl; lia).
  assert (H2 : [bareScored; sownScored] ≠ []) by discriminate.
  assert (H3 : (0 < tournamentK duoConfig)%nat) by (simpl; lia).
  split; [exact H1|]. split; [exact H2|]. split; [exact H3|].
  destruct (tournamentSelection_members duoConfig [bareScored; sownScored] (Lcg 221338)
              H1 H2 H3) as (selected & s' & Hrun & Hlen & _).
  by exists selected, s'.
Defined.

Lemma lookups_take_drop {A} (l : list A) (a n : nat) :
  flat_map (λ i, option_list (l !! i)) (seq a n) = take n (drop a l).
Proof.
  revert a. induction n as [|n IH]; intros a; [done|].
  cbn [seq flat_map]. rewrite IH.
  destruct (l !! a) as [x|] eqn:Hx.
  - rewrite (drop_S l x a Hx). done.
  - apply lookup_ge_None in Hx. rewrite !drop_ge by lia. by rewrite !take_nil.
Qed.

Lemma crossover_fold (parent1 parent2 : Individual) (indices : list nat)
    (c1 c2 : list PlantInstance) (s : RngState) :
  ∃ c1' c2' s',
    forM (GeneticAlgorithm.crossoverStep parent1 parent2) indices (c1, c2) s
    = Returned (c1', c2') s'
    ∧ c1' ++ c2'
      ≡ₚ c1 ++ c2
         ++ flat_map (λ i, option_list (plants parent1 !! i)) indices
         ++ flat_map (λ i, option_list (plants parent2 !! i)) indices.
Proof.
  revert c1 c2 s. induction indices as [|i indices IH]; intros c1 c2 s.
  - exists c1, c2, s. split; [done|]. simpl. by rewrite !app_nil_r.
  - cbn [forM flat_map]. rewrite bind_run.
    unfold GeneticAlgorithm.crossoverStep at 1. rewrite bind_run, rng_draw.
    destruct (draw s <? 0.5).
    + rewrite mret_run.
      destruct (IH (c1 ++ option_list (plants parent1 !! i))
                  (c2 ++ option_list (plants parent2 !! i)) (advance s))
        as (c1' & c2' & s' & -> & Hperm).
      exists c1', c2', s'. split; [done|]. rewrite Hperm.
      generalize (option_list (plants parent1 !! i)), (option_list (plants parent2 !! i)).
      intros o1 o2. solve_Permutation.
    + rewrite mret_run.
      destruct (IH (c1 ++ option_list (plants parent2 !! i))
                  (c2 ++ option_list (plants parent1 !! i)) (advance s))
        as (c1' & c2' & s' & -> & Hperm).
      exists c1', c2', s'. split; [done|]. rewrite Hperm.
      generalize (option_list (plants parent1 !! i)), (option_list (plants parent2 !! i)).
      intros o1 o2. solve_Permutation.
Qed.

(** X24.  Uniform crossover always returns two children and conserves the plant
    instances: taken together, the children hold exactly the instances of the
    two parents, whatever the draws. *)
Theorem uniformCrossover_conserves (parent1 parent2 : Individual) (s : RngState) :
  ∃ child1 child2 s',
    GeneticAlgorithm.uniformCrossover parent1 parent2 s = Returned (child1, child2) s'
    ∧ plants child1 ++ plants child2 ≡ₚ plants parent1 ++ plants parent2.
Proof.
  unfold GeneticAlgorithm.uniformCrossover.
  destruct (bool_decide _ || bool_decide _).
  - by exists (Ind.clone parent1), (Ind.clone parent2), s.
  - rewrite bind_run.
    destruct (crossover_fold parent1 parent2
                (seq 0 (Nat.max (length (plants parent1)) (length (plants parent2))))
                [] [] s) as (c1 & c2 & s' & -> & Hperm).
    eexists _, _, s'. split; [reflexivity|]. simpl. rewrite Hperm.
    rewrite !lookups_take_drop, !drop_0. cbn [plants Ind.new fst snd app].
    rewrite !take_ge by lia. done.
Qed.

(** X25.  Elitist replacement keeps the [populationSize] fittest of parents and
    offspring together (all of them when there are fewer), in descending
    order of fitness: no individual it drops is fitter than one it keeps. *)
Theorem elitistReplacement_keeps_fittest (cfg : GAConfig)
    (parents offspring : list Individual) :
  let survivors := GeneticAlgorithm.elitistReplacement cfg parents offspring in
  length survivors
    = Nat.min (populationSize cfg) (length parents + length offspring)
  ∧ descending Ind.fitness survivors
  ∧ ∃ dropped,
      survivors ++ dropped ≡ₚ parents ++ offspring
      ∧ ∀ kept lost, kept ∈ survivors → lost ∈ dropped →
          Ind.fitness lost <= Ind.fitness kept.
Proof.
  unfold GeneticAlgorithm.elitistReplacement.
  pose proof (sortDesc_perm Ind.fitness (parents ++ offspring)) as Hperm.
  pose proof (sortDesc_descending Ind.fitness (parents ++ offspring)) as Hdesc.
  set (sorted := sortDesc Ind.fitness (parents ++ offspring)) in *.
  rewrite <- (take_drop (populationSize cfg) sorted) in Hperm, Hdesc.
  split; [|split].
  - rewrite length_take. unfold sorted. rewrite sortDesc_perm, length_app. done.
  - by apply StronglySorted_app_1_l in Hdesc.
  - exists (drop (populationSize cfg) sorted). split; [done|].
    intros kept lost Hk Hl.
    exact (StronglySorted_app_1_elem_of _ _ _ _ _ Hdesc Hk Hl).
Qed.

Lemma sumR_const (l : list R) (c : R) :
  Forall (λ v, v = c) l → sumR l = INR (length l) * c.
Proof.
  induction 1 as [|v l -> Hl IH].
  - rewrite sumR_nil. simpl. lra.
  - rewrite sumR_cons, IH. cbn [length]. rewrite S_INR. lra.
Qed.

(** X26.  The variance used by the convergence test is never negative, and it is
    0 for a population whose fitness values are all equal. *)
Theorem calculateVariance_nonneg (values : list R) :
  0 <= GeneticAlgorithm.calculateVariance values
  ∧ ∀ c, Forall (λ v, v = c) values → GeneticAlgorithm.calculateVariance values = 0.
Proof.
  unfold GeneticAlgorithm.calculateVariance. destruct values as [|v values]; [split; [lra|done]|].
  set (l := v :: values).
  assert (Hlen : 0 < INR (length l)) by (apply lt_0_INR; simpl; lia).
  split.
  - apply ratio_nonneg; [|done]. apply sumR_nonneg, Forall_fmap, Forall_forall.
    intros w _. simpl. apply pow2_ge_0.
  - intros c Hc.
    assert (Hmean : sumR l / INR (length l) = c).
    { rewrite (sumR_const l c Hc). field. lra. }
    rewrite Hmean.
    rewrite (sumR_const ((λ w, (w - c) ^ 2) <$> l) 0).
    + unfold Rdiv. ring.
    + apply Forall_fmap. eapply Forall_impl; [exact Hc|]. simpl. intros w ->. ring.
Qed.

(** ** The evolution loop *)

Lemma evaluate_evaluated (fc : FitnessConfig) (l l' : list Individual) :
  GeneticAlgorithm.evaluate fc l = inr l' →
  Forall (evaluated fc) l' ∧ length l' = length l.
Proof.
  unfold GeneticAlgorithm.evaluate. revert l'.
  induction l as [|ind l IH]; intros l'; cbn [mapM].
  - intros [= <-]. by split.
  - destruct (FitnessCalculator.calculate fc ind) as [e|m] eqn:Hm; [done|].
    change (inr m ≫= ?f) with (f m). cbv beta.
    change (mret ?a ≫= ?f) with (f a). cbv beta.
    destruct (mapM _ l) as [e|k] eqn:Hk; [done|].
    change (inr k ≫= ?f) with (f k). cbv beta. intros [= <-].
    destruct (IH k eq_refl) as [Hall Hlen]. split; [|simpl; by rewrite Hlen].
    constructor; [|done]. exists m. split; [done|].
    rewrite <- Hm. by apply calculate_ext.
Qed.

Lemma nextGeneration_evaluated (fc : FitnessConfig) (cfg : GAConfig)
    (fuel : nat) (pool : list Plant) (constraints : GAConstraints)
    (population population' : list Individual) (s s' : RngState) :
  Forall (evaluated fc) population →
  GeneticAlgorithm.nextGeneration fc cfg fuel pool constraints population s
  = Returned population' s' →
  Forall (evaluated fc) population'.
Proof.
  intros Hpop. unfold GeneticAlgorithm.nextGeneration. intros H.
  apply bind_returned in H as (selected & s1 & _ & H).
  apply bind_returned in H as (off1 & s2 & _ & H).
  apply bind_returned in H as (off2 & s3 & _ & H).
  apply bind_returned in H as (off3 & s4 & Hev & H).
  apply ret_returned in H as [-> _].
  apply liftR_returned in Hev as [Hev _]. apply evaluate_evaluated in Hev as [Hoff _].
  unfold GeneticAlgorithm.elitistReplacement. apply Forall_take.
  rewrite sortDesc_perm. by apply Forall_app.
Qed.

Lemma evolve_evaluated (fc : FitnessConfig) (cfg : GAConfig) (fuel : nat)
    (pool : list Plant) (constraints : GAConstraints) (startTime : Z) (remaining : nat) :
  ∀ (ls ls' : GeneticAlgorithm.LoopState) (clock clock' : Clock) (s s' : RngState)
    (reason : StoppingReason),
  Forall (evaluated fc) (GeneticAlgorithm.population ls) →
  GeneticAlgorithm.evolve fc cfg fuel pool constraints startTime remaining ls clock s
  = Returned (ls', reason, clock') s' →
  Forall (evaluated fc) (GeneticAlgorithm.population ls').
Proof.
  induction remaining as [|n IH]; intros ls ls' clock clock' s s' reason Hls.
  - simpl. by intros [[= -> _ _] _]%ret_returned.
  - cbn [GeneticAlgorithm.evolve].
    destruct (GeneticAlgorithm.timedOut cfg startTime clock) as [expired clock1].
    destruct expired; [by intros [[= -> _ _] _]%ret_returned|].
    intros (population & s1 & Hnext & H)%bind_returned.
    apply nextGeneration_evaluated in Hnext; [|done].
    destruct (if GeneticAlgorithm.improved _ _ then _ else _) as [bestFitness stalled].
    case_bool_decide; [by apply ret_returned in H as [[= -> _ _] _]|].
    destruct (_ <? _); [by apply ret_returned in H as [[= -> _ _] _]|].
    eapply IH; [|exact H]. done.
Qed.

(** X27.  What a run returns: between one and three solutions, in descending
    order of fitness, each carrying the metrics that the evaluator computes
    for its own layout; the reported number of generations is ten times the
    number of recorded statistics, and the pool is the selector's choice. *)
Theorem run_reports_evaluated (allPlants : list Plant) (fc : FitnessConfig)
    (cfg : GAConfig) (fuel : nat) (mathRandom : nat → R) (clock : Clock)
    (constraints : GAConstraints) (objective : Objective.t)
    (result : GAResult) (s' : RngState) :
  GeneticAlgorithm.run allPlants fc cfg fuel mathRandom clock constraints objective
  = Returned result s' →
  (1 ≤ length (topSolutions result) ≤ 3)%nat
  ∧ descending Ind.fitness (topSolutions result)
  ∧ Forall (evaluated fc) (topSolutions result)
  ∧ generations result = (length (generationStats result) * 10)%nat
  ∧ resultSelectedPlants result
    = GeneticAlgorithm.selectPlantsIntelligently allPlants fc cfg constraints objective.
Proof.
  unfold GeneticAlgorithm.run. generalize (match seed cfg with
                                           | Some seed => seededRandom seed
                                           | None => MathRandom mathRandom 0
                                           end). intros s.
  unfold GeneticAlgorithm.runM, dateNow.
  intros (initial & s1 & _ & H)%bind_returned.
  apply bind_returned in H as (scored & s2 & Hev & H).
  apply bind_returned in H as ([[ls reason] clock'] & s3 & Hloop & H).
  apply liftR_returned in Hev as [Hev _]. apply evaluate_evaluated in Hev as [Hev _].
  apply evolve_evaluated in Hloop; [|done].
  pose proof (sortDesc_descending Ind.fitness (GeneticAlgorithm.population ls)) as Hdesc.
  assert (Hall : Forall (evaluated fc) (sortDesc Ind.fitness (GeneticAlgorithm.population ls)))
    by by rewrite sortDesc_perm.
  rewrite <- (take_drop 3 (sortDesc Ind.fitness (GeneticAlgorithm.population ls))) in Hdesc.
  apply StronglySorted_app_1_l in Hdesc. apply (Forall_take _ 3%nat) in Hall.
  assert (Hl : length (take 3 (sortDesc Ind.fitness (GeneticAlgorithm.population ls)))
               = Nat.min 3 (length (sortDesc Ind.fitness (GeneticAlgorithm.population ls))))
    by apply length_take.
  destruct (take 3 (sortDesc Ind.fitness (GeneticAlgorithm.population ls)))
    as [|top rest] eqn:Htop; [done|].
  apply ret_returned in H as [-> _]. cbn [topSolutions generations generationStats
                                            resultSelectedPlants].
  split; [|done]. cbn [length] in Hl |- *. lia.
Qed.

Lemma run_reports_evaluated_witness :
  ∃ result s',
    GeneticAlgorithm.run [tomate] (waterConfig 90) duoConfig 0 (λ _, 0) stillClock
      smallPlot Objective.alimenticio = Returned result s'
    ∧ Forall (evaluated (waterConfig 90)) (topSolutions result).
Proof.
  destruct run_still as (stat & Hrun).
  eexists _, _. split; [exact Hrun|].
  exact (proj1 (proj2 (proj2 (run_reports_evaluated _ _ _ _ _ _ _ _ _ _ Hrun)))).
Defined.

(** ** The pinned plant (C3) *)

Lemma select_fallback (cfg : PlantSelectionConfig) (catalogue : list Plant) :
  (Z.of_nat (length (PlantSelectorService.filterBySeason cfg
                       (PlantSelectorService.filterByUserPreferences cfg catalogue)))
   < sel_maxSpecies cfg)%Z →
  PlantSelectorService.selectBestPlants cfg catalogue
  = PlantSelectorService.selectBestPlants (unpinned cfg) catalogue.
Proof.
  intros Hlt. unfold PlantSelectorService.selectBestPlants.
  rewrite bool_decide_true by done.
  assert (Hall : PlantSelectorService.filterBySeason (unpinned cfg)
                   (PlantSelectorService.filterByUserPreferences (unpinned cfg) catalogue)
                 = catalogue).
  { unfold PlantSelectorService.filterBySeason, PlantSelectorService.filterByUserPreferences.
    simpl. by destruct (sel_season cfg) as [[]|]. }
  rewrite Hall.
  assert (Hpool : (if bool_decide (Z.of_nat (length catalogue) < sel_maxSpecies (unpinned cfg))%Z
                   then catalogue else catalogue) = catalogue) by (by case_bool_decide).
  rewrite Hpool. destruct cfg as [desired maxSp obj season matrix]. reflexivity.
Qed.

Lemma selection_count (cfg : PlantSelectionConfig) (catalogue : list Plant) :
  NoDup (id <$> catalogue) → (0 ≤ sel_maxSpecies cfg)%Z →
  sel_desiredPlantIds cfg = None →
  Z.of_nat (length (PlantSelectorService.selectBestPlants cfg catalogue))
  = Z.min (sel_maxSpecies cfg) (Z.of_nat (length catalogue)).
Proof.
  intros Hnd Hmin Hnone.
  unfold PlantSelectorService.selectBestPlants.
  assert (Hall : PlantSelectorService.filterBySeason cfg
                   (PlantSelectorService.filterByUserPreferences cfg catalogue)
                 = catalogue).
  { unfold PlantSelectorService.filterBySeason, PlantSelectorService.filterByUserPreferences.
    rewrite Hnone. by destruct (sel_season cfg) as [[]|]. }
  rewrite Hall.
  assert (Hpool : (if bool_decide (Z.of_nat (length catalogue) < sel_maxSpecies cfg)%Z
                   then catalogue else catalogue) = catalogue) by (by case_bool_decide).
  rewrite Hpool. clear Hpool.
  pose proof (scored_plants cfg catalogue) as Hperm.
  set (scored := sortDesc ps_score
                   ((λ plant, PlantSelectorService.scorePlant cfg plant catalogue)
                      <$> catalogue)) in *.
  assert (Hsnd : NoDup (id <$> (ps_plant <$> scored))) by by rewrite Hperm.
  assert (Hslen : length scored = length catalogue).
  { rewrite <- (length_fmap ps_plant scored). by rewrite Hperm. }
  pose proof (greedyGate_nodup cfg scored [] Hsnd) as Hgnd.
  destruct (greedyGate_members cfg scored [] (Z.max 0 (sel_maxSpecies cfg)))
    as [Hgm Hgl]; [lia|simpl; lia|].
  assert (Hbound : ∀ result : list Plant,
            NoDup (id <$> result) → (∀ q, q ∈ result → q ∈ ps_plant <$> scored) →
            (length result ≤ length catalogue)%nat).
  { intros result Hrnd Hsub. rewrite <- Hslen, <- (length_fmap ps_plant scored).
    rewrite <- (length_fmap id result), <- (length_fmap id (ps_plant <$> scored)).
    apply submseteq_length, NoDup_submseteq; [done|].
    intros i (q & -> & Hq)%list_elem_of_fmap. apply list_elem_of_fmap.
    exists q. split; [done|]. by apply Hsub. }
  unfold PlantSelectorService.greedySelection.
  case_bool_decide as Hshort.
  - destruct (greedyFill_complete cfg scored _ Hgnd) as (Hfnd & _ & Hfull).
    destruct (greedyFill_members cfg scored (PlantSelectorService.greedyGate cfg scored [])
                (Z.max 0 (sel_maxSpecies cfg))) as [Hfm Hfl]; [lia|exact Hgl|].
    assert (Hle : (length (PlantSelectorService.greedyFill cfg scored
                             (PlantSelectorService.greedyGate cfg scored []))
                   ≤ length catalogue)%nat).
    { apply Hbound; [done|]. intros q Hq. apply Hfm in Hq as [Hq|Hq]; [|done].
      apply Hgm in Hq as [Hq|Hq]; [by apply elem_of_nil in Hq|done]. }
    destruct Hfull as [Hfull|Hcomplete]; [lia|].
    assert (Hge : (length catalogue
                   ≤ length (PlantSelectorService.greedyFill cfg scored
                               (PlantSelectorService.greedyGate cfg scored [])))%nat).
    { rewrite <- Hslen, <- (length_fmap ps_plant scored).
      rewrite <- (length_fmap id (ps_plant <$> scored)).
      rewrite <- (length_fmap id (PlantSelectorService.greedyFill cfg scored _)).
      apply submseteq_length, NoDup_submseteq; [done|].
      intros i (q & -> & Hq)%list_elem_of_fmap.
      apply list_elem_of_fmap in Hq as (c & -> & Hc). by apply Hcomplete. }
    lia.
  - assert (Hle : (length (PlantSelectorService.greedyGate cfg scored [])
                   ≤ length catalogue)%nat).
    { apply Hbound; [done|]. intros q Hq.
      apply Hgm in Hq as [Hq|Hq]; [by apply elem_of_nil in Hq|done]. }
    lia.
Qed.

(** C3 (amended).  With unique catalogue ids, [desiredPlantIds = {p.id}] for
    a plant [p] of the catalogue and [maxSpecies ≥ 1], the returned pool is
    exactly [[p]] if and only if [maxSpecies] is 1 or [p] is the whole
    catalogue.  With [maxSpecies ≥ 2] only one candidate remains after the
    filter, so the selector falls back to the full catalogue: it returns the
    pool it returns without any pin, which has [min(maxSpecies, catalogue
    size)] plants of the catalogue. *)
Theorem C3_pinned_plant_pool (cfg : PlantSelectionConfig) (catalogue : list Plant)
    (p : Plant) :
  NoDup (id <$> catalogue) → p ∈ catalogue →
  sel_desiredPlantIds cfg = Some [id p] → (1 ≤ sel_maxSpecies cfg)%Z →
  (PlantSelectorService.selectBestPlants cfg catalogue = [p]
   ↔ sel_maxSpecies cfg = 1%Z ∨ catalogue = [p])
  ∧ ((2 ≤ sel_maxSpecies cfg)%Z →
     PlantSelectorService.selectBestPlants cfg catalogue
     = PlantSelectorService.selectBestPlants (unpinned cfg) catalogue
     ∧ Z.of_nat (length (PlantSelectorService.selectBestPlants cfg catalogue))
       = Z.min (sel_maxSpecies cfg) (Z.of_nat (length catalogue))
     ∧ ∀ q, q ∈ PlantSelectorService.selectBestPlants cfg catalogue → q ∈ catalogue).
Proof.
  intros Hnd Hin Hd Hmax.
  assert (Hf : PlantSelectorService.filterBySeason cfg
                 (PlantSelectorService.filterByUserPreferences cfg catalogue) = [p]).
  { unfold PlantSelectorService.filterBySeason, PlantSelectorService.filterByUserPreferences.
    rewrite Hd, filter_unique_id by done. by destruct (sel_season cfg) as [[]|]. }
  assert (Hfall : (2 ≤ sel_maxSpecies cfg)%Z →
            PlantSelectorService.selectBestPlants cfg catalogue
            = PlantSelectorService.selectBestPlants (unpinned cfg) catalogue
            ∧ Z.of_nat (length (PlantSelectorService.selectBestPlants cfg catalogue))
              = Z.min (sel_maxSpecies cfg) (Z.of_nat (length catalogue))).
  { intros H2.
    assert (Heq : PlantSelectorService.selectBestPlants cfg catalogue
                  = PlantSelectorService.selectBestPlants (unpinned cfg) catalogue).
    { apply select_fallback. rewrite Hf. simpl. lia. }
    split; [done|]. rewrite Heq.
    apply (selection_count (unpinned cfg) catalogue Hnd); [simpl; lia|done]. }
  split.
  - split.
    + intros Hres. destruct (decide (sel_maxSpecies cfg = 1%Z)) as [|Hne]; [by left|].
      right. destruct (Hfall ltac:(lia)) as [_ Hlen]. rewrite Hres in Hlen. simpl in Hlen.
      destruct catalogue as [|q [|q' rest]].
      * by apply elem_of_nil in Hin.
      * apply list_elem_of_singleton in Hin. by rewrite Hin.
      * simpl in Hlen. lia.
    + intros [H1|Hcat].
      * by apply select_max_one.
      * rewrite Hcat. by apply select_single.
  - intros H2. destruct (Hfall H2) as [Heq Hlen]. split; [done|]. split; [done|].
    apply selection_members.
Qed.

Lemma C3_pinned_plant_pool_witness :
  NoDup (id <$> [tomate; albahaca; hinojo])
  ∧ tomate ∈ [tomate; albahaca; hinojo]
  ∧ sel_desiredPlantIds (pinTomate 3) = Some [id tomate]
  ∧ (1 ≤ sel_maxSpecies (pinTomate 3))%Z
  ∧ PlantSelectorService.selectBestPlants (pinTomate 3) [tomate; albahaca; hinojo]
    = PlantSelectorService.selectBestPlants (unpinned (pinTomate 3))
        [tomate; albahaca; hinojo]
  ∧ Z.of_nat (length (PlantSelectorService.selectBestPlants (pinTomate 3)
                        [tomate; albahaca; hinojo])) = 3%Z.
Proof.
  assert (Hnd : NoDup (id <$> [tomate; albahaca; hinojo])).
  { change (NoDup [2%Z; 3%Z; 7%Z]). apply (bool_decide_unpack _). by vm_compute. }
  assert (Hin : tomate ∈ [tomate; albahaca; hinojo]) by left.
  assert (Hmax : (1 ≤ sel_maxSpecies (pinTomate 3))%Z) by (simpl; lia).
  split; [exact Hnd|]. split; [exact Hin|]. split; [reflexivity|]. split; [exact Hmax|].
  destruct (proj2 (C3_pinned_plant_pool (pinTomate 3) [tomate; albahaca; hinojo] tomate
                     Hnd Hin eq_refl Hmax)) as (H1 & H2 & _); [simpl; lia|].
  split; [exact H1|exact H2].
Defined.

(** ** Validator *)

Lemma checked_spec (es : list ValidationService.ValidationError) :
  ValidationService.c_isValid (ValidationService.checked es) = true ↔ es = [].
Proof.
  unfold ValidationService.checked. simpl. rewrite bool_decide_eq_true.
  destruct es; simpl; split; done.
Qed.

Lemma check_consistent_botanical dbPlants ind :
  ValidationService.c_isValid (ValidationService.validateBotanical dbPlants ind) = true
  ↔ ValidationService.c_errors (ValidationService.validateBotanical dbPlants ind) = [].
Proof. apply checked_spec. Qed.

Lemma check_consistent_physical ind vc :
  ValidationService.c_isValid (ValidationService.validatePhysical ind vc) = true
  ↔ ValidationService.c_errors (ValidationService.validatePhysical ind vc) = [].
Proof. apply checked_spec. Qed.

Lemma check_consistent_technical ind vc :
  ValidationService.c_isValid (ValidationService.validateTechnical ind vc) = true
  ↔ ValidationService.c_errors (ValidationService.validateTechnical ind vc) = [].
Proof.
  unfold ValidationService.validateTechnical.
  destruct (match ValidationService.availableMaintenanceMinutes vc with
            | Some minutes => Some minutes
            | None => _ end); [|apply checked_spec].
  destruct (_ >? _); apply checked_spec.
Qed.

Lemma check_consistent_economic ind vc :
  ValidationService.c_isValid (ValidationService.validateEconomic ind vc) = true
  ↔ ValidationService.c_errors (ValidationService.validateEconomic ind vc) = [].
Proof.
  unfold ValidationService.validateEconomic.
  destruct (ValidationService.v_maxBudget vc) as [b|]; [|done].
  destruct (b =? 0); [done|]. destruct (_ >? _); apply checked_spec.
Qed.

Lemma check_consistent_agricultural m ind :
  ValidationService.c_isValid (ValidationService.validateAgricultural m ind) = true
  ↔ ValidationService.c_errors (ValidationService.validateAgricultural m ind) = [].
Proof. apply checked_spec. Qed.

Lemma record_spec (name : string) (check : ValidationService.Check)
    (r : ValidationService.ValidationResult) :
  (ValidationService.c_isValid check = true ↔ ValidationService.c_errors check = []) →
  let r' := ValidationService.record name check r in
  ValidationService.isValid r'
  = ValidationService.isValid r && ValidationService.c_isValid check
  ∧ ValidationService.errors r'
    = ValidationService.errors r ++ ValidationService.c_errors check
  ∧ ValidationService.passed r'
    = ValidationService.passed r
      ++ (if ValidationService.c_isValid check then [name] else [])
  ∧ ValidationService.failed r'
    = ValidationService.failed r
      ++ (if ValidationService.c_isValid check then [] else [name]).
Proof.
  intros Hc. unfold ValidationService.record.
  destruct (ValidationService.c_isValid check) eqn:Hv; simpl.
  - rewrite (proj1 Hc eq_refl), andb_true_r, !app_nil_r. done.
  - rewrite andb_false_r, !app_nil_r. done.
Qed.

(** X28.  The verdict of [validate]: each of the five checks is listed exactly
    once, under [passed] or under [failed], in the order of the checks; the
    layout is valid exactly when no check failed, which is exactly when no
    error is reported. *)
Theorem validate_verdict (dbPlants : list Plant) (m : Matrix) (ind : Individual)
    (vc : ValidationService.ValidationConstraints) :
  let r := ValidationService.validate dbPlants m ind vc in
  ValidationService.passed r ++ ValidationService.failed r
    ≡ₚ ["BOTÁNICA"; "FÍSICA"; "TÉCNICA"; "ECONÓMICA"; "AGRÍCOLA"]
  ∧ ValidationService.passed r
      `sublist_of` ["BOTÁNICA"; "FÍSICA"; "TÉCNICA"; "ECONÓMICA"; "AGRÍCOLA"]
  ∧ ValidationService.failed r
      `sublist_of` ["BOTÁNICA"; "FÍSICA"; "TÉCNICA"; "ECONÓMICA"; "AGRÍCOLA"]
  ∧ (ValidationService.isValid r = true ↔ ValidationService.failed r = [])
  ∧ (ValidationService.isValid r = true ↔ ValidationService.errors r = []).
Proof.
  unfold ValidationService.validate.
  pose proof (check_consistent_botanical dbPlants ind) as H1.
  pose proof (check_consistent_physical ind vc) as H2.
  pose proof (check_consistent_technical ind vc) as H3.
  pose proof (check_consistent_economic ind vc) as H4.
  pose proof (check_consistent_agricultural m ind) as H5.
  revert H1 H2 H3 H4 H5.
  generalize (ValidationService.validateBotanical dbPlants ind).
  generalize (ValidationService.validatePhysical ind vc).
  generalize (ValidationService.validateTechnical ind vc).
  generalize (ValidationService.validateEconomic ind vc).
  generalize (ValidationService.validateAgricultural m ind).
  intros [v5 e5] [v4 e4] [v3 e3] [v2 e2] [v1 e1]. simpl.
  intros H1 H2 H3 H4 H5. unfold ValidationService.record. simpl.
  assert (Hnil : ∀ (v : bool) (e : list ValidationService.ValidationError),
            (v = true ↔ e = []) → v = false → e ≠ []).
  { intros v e Hv Hf He. apply Hv in He. congruence. }
  destruct v1, v2, v3, v4, v5; simpl;
    repeat match goal with
    | H : true = true ↔ ?e = [] |- _ => rewrite (proj1 H eq_refl) in *; clear H
    | H : false = true ↔ ?e = [] |- _ =>
        let Hne := fresh "Hne" in
        assert (Hne : e ≠ []) by (by apply (Hnil false e H)); clear H
    end;
    (split; [solve_Permutation|]);
    (split; [repeat first [apply sublist_nil | apply sublist_skip | apply sublist_cons]|]);
    (split; [repeat first [apply sublist_nil | apply sublist_skip | apply sublist_cons]|]);
    (split; [split; done|]);
    split; try done; intros Happ;
    repeat match goal with
    | H : _ ++ _ = [] |- _ => apply app_eq_nil in H as [? ?]
    end; try done; try congruence.
Qed.

Lemma botanical_known (dbPlants : list Plant) (ps : list PlantInstance)
    (acc : list ValidationService.ValidationError) :
  Forall (λ inst, plant inst ∈ dbPlants) ps →
  foldl (λ errors plantInstance,
           let plantId := id (plant plantInstance) in
           let exists_ := existsb (λ p, bool_decide (id p = plantId)) dbPlants in
           if negb exists_
           then errors ++ [ValidationService.PlantNotInDatabase plantId] else errors)
    acc ps = acc.
Proof.
  induction 1 as [|inst ps Hin Hps IH]; [done|]. cbn [foldl].
  assert (Hex : existsb (λ p, bool_decide (id p = id (plant inst))) dbPlants = true).
  { apply existsb_exists. exists (plant inst). split; [by apply list_elem_of_In|].
    by apply bool_decide_eq_true. }
  cbv zeta. rewrite Hex. exact IH.
Qed.

Lemma placed_far (fc : FitnessConfig) (l : list PlantInstance) :
  Forall (λ inst, 0.04 <= size (plant inst)) l →
  PlacedInOrder fc l →
  ∀ i j a b, i ≠ j → l !! i = Some a → l !! j = Some b → 1 <= Instance.distanceTo a b.
Proof.
  assert (Hroot : ∀ v, 0.04 <= v → 0.2 <= sqrt v).
  { intros v Hv. replace 0.2 with (sqrt (0.2 * 0.2)) by (rewrite sqrt_square; lra).
    apply sqrt_le_1_alt. lra. }
  assert (Hfar : ∀ new e, 0.04 <= size (plant new) → 0.04 <= size (plant e) →
            spaced fc new e → 1 <= Instance.distanceTo new e).
  { intros new e Hn He. unfold spaced, gaMinimumDistance, GeneticAlgorithm.minDistance.
    pose proof (Hroot _ Hn). pose proof (Hroot _ He). unfold Num.gtb.
    cases_cmp; lra. }
  assert (Hsym : ∀ a b, Instance.distanceTo a b = Instance.distanceTo b a).
  { intros a b. unfold Instance.distanceTo, distanceTo. f_equal. ring. }
  intros Hsize. induction 1 as [|l new Hl IH Hnew]; intros i j a b Hne Hi Hj.
  - by rewrite lookup_nil in Hi.
  - rewrite Forall_app, Forall_singleton in Hsize. destruct Hsize as [Hsl Hsn].
    rewrite Forall_forall in Hnew, Hsl.
    apply lookup_snoc_Some in Hi as [[Hil Hi]|[-> <-]];
      apply lookup_snoc_Some in Hj as [[Hjl Hj]|[-> <-]].
    + eapply (IH ltac:(by apply Forall_forall)); done.
    + rewrite Hsym. apply list_elem_of_lookup_2 in Hi. apply Hfar; auto.
    + apply list_elem_of_lookup_2 in Hj. apply Hfar; auto.
    + done.
Qed.

Lemma agricultural_far (m : Matrix) (ps : list PlantInstance)
    (acc : list ValidationService.ValidationError) :
  (∀ i j a b, i ≠ j → ps !! i = Some a → ps !! j = Some b →
              1 <= Instance.distanceTo a b) →
  ValidationService.agriculturalLoop m ps acc = acc.
Proof.
  revert acc. induction ps as [|p rest IH]; intros acc Hfar; [done|].
  cbn [ValidationService.agriculturalLoop].
  assert (Hrow : ∀ qs acc, (∀ q, q ∈ qs → 1 <= Instance.distanceTo p q) →
            foldl (ValidationService.agriculturalStep m p) acc qs = acc).
  { induction qs as [|q qs IHq]; intros acc' Hq; [done|]. cbn [foldl].
    unfold ValidationService.agriculturalStep at 2.
    assert (Hd : 1 <= distanceTo (position p) (position q)) by (apply Hq; left).
    rewrite (proj2 (ltb_ge _ _)) by lra. apply IHq. intros q' Hq'. apply Hq. by right. }
  rewrite Hrow.
  - apply IH. intros i j a b Hne Hi Hj. apply (Hfar (S i) (S j)); [lia|done|done].
  - intros q Hq. apply list_elem_of_lookup_1 in Hq as [j Hj].
    apply (Hfar 0%nat (S j)); [lia|done|done].
Qed.

(** X29.  A layout built by the initialiser passes the validator's botanical,
    physical and economic checks when these are run with the same area and
    budget and the pool comes from the validator's plant list (a negative
    budget apart); it also passes the agricultural check, whatever the
    matrix, when no pool plant is smaller than 0.04 m², because instances are
    then never less than 1 m apart. *)
Theorem initial_layout_validates (fc : FitnessConfig) (cfg : GAConfig)
    (pool : list Plant) (constraints : GAConstraints) (s : RngState)
    (ind : Individual) (s' : RngState) (dbPlants : list Plant) (m : Matrix)
    (vc : ValidationService.ValidationConstraints) :
  GeneticAlgorithm.createSmartIndividual fc cfg pool constraints s = Returned ind s' →
  (∀ p, p ∈ pool → p ∈ dbPlants) →
  ValidationService.v_maxArea vc = maxArea constraints →
  ValidationService.v_maxBudget vc = maxBudget constraints →
  (∀ b, maxBudget constraints = Some b → 0 <= b) →
  ValidationService.c_isValid (ValidationService.validateBotanical dbPlants ind) = true
  ∧ ValidationService.c_isValid (ValidationService.validatePhysical ind vc) = true
  ∧ ValidationService.c_isValid (ValidationService.validateEconomic ind vc) = true
  ∧ ((∀ p, p ∈ pool → 0.04 <= size p) →
     ValidationService.c_isValid (ValidationService.validateAgricultural m ind) = true).
Proof.
  intros Hrun Hdb Harea Hbudget Hpos.
  pose proof (createSmartIndividual_spaced _ _ _ _ _ _ _ Hrun) as Hplaced.
  destruct (createSmartIndividual_ok _ _ _ _ _ _ _ Hrun)
    as (w & h & Hd & Hw & Hh & Hwh & _ & H1 & H2 & _ & _ & _ & H6).
  cbn [plantInstances usedArea usedWater usedBudget] in *.
  assert (Hused : Ind.usedArea ind <= maxArea constraints * 0.85).
  { destruct (plants ind) as [|i l] eqn:Hp.
    - unfold Ind.usedArea. rewrite Hp. simpl. rewrite sumR_nil. nra.
    - by destruct H6 as (H6 & _). }
  assert (Hmax : 0 < maxArea constraints) by nra.
  split; [|split; [|split]].
  - apply checked_spec. apply botanical_known.
    eapply Forall_impl; [exact H2|]. intros inst. apply Hdb.
  - unfold ValidationService.validatePhysical. apply checked_spec.
    rewrite Harea. unfold Num.gtb.
    rewrite (proj2 (ltb_ge _ _)) by lra.
    unfold ValidationService.usageExceeds, totalArea. rewrite Hd. cbn [width height].
    rewrite Hwh. rewrite (proj2 (eqb_neq _ _)) by lra. unfold Num.gtb.
    rewrite (proj2 (ltb_ge _ _)); [done|]. apply ratio_le; lra.
  - unfold ValidationService.validateEconomic. rewrite Hbudget.
    destruct (maxBudget constraints) as [b|] eqn:Hb; [|done].
    destruct (b =? 0) eqn:Hb0; [done|]. apply eqb_neq in Hb0.
    assert (Hcost : Ind.totalCost ind <= b).
    { destruct (plants ind) as [|i l] eqn:Hp.
      - unfold Ind.totalCost. rewrite Hp. simpl. rewrite sumR_nil. by apply Hpos.
      - destruct H6 as (_ & _ & H6); [done|].
        unfold GeneticAlgorithm.withinBudget in H6. rewrite Hb in H6.
        apply orb_true_iff in H6 as [H6|H6]; [apply eqb_eq in H6; lra|].
        by apply leb_le in H6. }
    unfold Num.gtb. rewrite (proj2 (ltb_ge _ _)) by lra. by apply checked_spec.
  - intros Hsize. apply checked_spec. apply agricultural_far.
    apply (placed_far fc); [|done].
    eapply Forall_impl; [exact H2|]. intros inst. apply Hsize.
Qed.

Lemma initial_layout_validates_witness :
  GeneticAlgorithm.createSmartIndividual (waterConfig 90) duoConfig [tomate] smallPlot
    (Lcg 54713) = Returned sownPlot (Lcg 221338)
  ∧ ValidationService.c_isValid
      (ValidationService.validatePhysical sownPlot
         (ValidationService.mkValidationConstraints 5 90 None 2 None)) = true.
Proof.
  split; [exact createSmartIndividual_sown|].
  refine (proj1 (proj2 (initial_layout_validates (waterConfig 90) duoConfig [tomate]
                          smallPlot (Lcg 54713) sownPlot (Lcg 221338) [tomate] ∅
                          (ValidationService.mkValidationConstraints 5 90 None 2 None)
                          createSmartIndividual_sown _ eq_refl eq_refl _))).
  - intros p Hp. exact Hp.
  - intros b Hb. discriminate Hb.
Defined.

(** ** Request normalisation *)

Lemma orR_falsy (value : option R) (fallback : R) :
  falsyR value → orR value fallback = fallback.
Proof. intros [->| ->]; unfold orR; [done|]. by rewrite (proj2 (eqb_eq _ _)). Qed.

Lemma orZ_falsy (value : option Z) (fallback : Z) :
  falsyZ value → orZ value fallback = fallback.
Proof. by intros [->| ->]. Qed.

Lemma random_range (rnd : nat → R) (n : nat) :
  0 <= GenerateGardenUseCase.random rnd n < 1.
Proof.
  unfold GenerateGardenUseCase.random. destruct (base_fp (rnd n)). lra.
Qed.

(** X30.  A request whose category distribution the constructor accepts is
    normalised without error.  A missing or zero [maxPlantSpecies] becomes 5; missing
    dimensions become a plot of positive sides with an area in [1, 5) m²; a
    missing or zero water limit becomes a value in [50, 400), a missing or
    zero budget a value in [200, 1000), and missing maintenance minutes
    60 per level of experience (level 0 counting as 2). *)
Theorem normalizeRequest_defaults (lat lon : R) (rnd : nat → R)
    (request : GenerateGardenRequestDto) (data : CategoryDistributionData)
    (dist : CategoryDistribution) :
  rq_categoryDistribution request = Some data →
  newCategoryDistribution data = inr dist →
  ∃ n, GenerateGardenUseCase.normalizeRequest lat lon rnd request = inr n
       ∧ n_categoryDistribution n = dist
       ∧ n_userExperience n = orZ (Some (rq_userExperience request)) 2
       ∧ (falsyZ (rq_maxPlantSpecies request) → n_maxPlantSpecies n = 5%Z)
       ∧ (rq_dimensions request = None →
          0 < fst (n_dimensions n) ∧ 0 < snd (n_dimensions n)
          ∧ 1 <= fst (n_dimensions n) * snd (n_dimensions n) < 5)
       ∧ (falsyR (rq_waterLimit request) → 50 <= n_waterLimit n < 400)
       ∧ (falsyR (rq_budget request) → 200 <= n_budget n < 1000)
       ∧ (falsyR (rq_maintenanceMinutes request) →
          n_maintenanceMinutes n = IZR (n_userExperience n) * 60).
Proof.
  intros Hdata Hdist. unfold GenerateGardenUseCase.normalizeRequest.
  rewrite Hdata, Hdist. change (inr dist ≫= ?f) with (f dist). cbv beta.
  eexists. split; [reflexivity|].
  cbn [n_categoryDistribution n_userExperience n_maxPlantSpecies n_dimensions
       n_waterLimit n_budget n_maintenanceMinutes].
  pose proof (random_range rnd 0) as H0. pose proof (random_range rnd 1) as H1.
  pose proof (random_range rnd 2) as H2.
  set (area := 1 + GenerateGardenUseCase.random rnd 0 * 4) in *.
  assert (Harea : 1 <= area < 5) by (unfold area; lra).
  split; [done|]. split; [done|]. split; [by apply orZ_falsy|]. split; [|split; [|split]].
  - intros ->. cbn [default fst snd].
    set (w := sqrt (area * (0.5 + GenerateGardenUseCase.random rnd 1))).
    assert (Hw : 0 < w) by (apply sqrt_lt_R0; nra).
    split; [done|]. split; [by apply Rdiv_lt_0_compat; lra|].
    replace (w * (area / w)) with area by (field; lra). done.
  - intros Hf. rewrite orR_falsy by done. nra.
  - intros Hf. rewrite orR_falsy by done. lra.
  - intros Hf. by rewrite orR_falsy.
Qed.

Lemma normalizeRequest_defaults_witness :
  rq_categoryDistribution
    (distributionRequest (mkCategoryDistributionData (Some 25) (Some 25) (Some 25) (Some 25)))
  = Some (mkCategoryDistributionData (Some 25) (Some 25) (Some 25) (Some 25))
  ∧ newCategoryDistribution
      (mkCategoryDistributionData (Some 25) (Some 25) (Some 25) (Some 25))
    = inr (mkCategoryDistribution 25 25 25 25)
  ∧ ∃ n, GenerateGardenUseCase.normalizeRequest 16.75 (-93.1) (λ _, 0.5)
           (distributionRequest
              (mkCategoryDistributionData (Some 25) (Some 25) (Some 25) (Some 25)))
         = inr n
         ∧ n_maxPlantSpecies n = 5%Z.
Proof.
  assert (H : newCategoryDistribution
                (mkCategoryDistributionData (Some 25) (Some 25) (Some 25) (Some 25))
              = inr (mkCategoryDistribution 25 25 25 25))
    by (apply newCategoryDistribution_ok; lra).
  split; [reflexivity|]. split; [exact H|].
  destruct (normalizeRequest_defaults 16.75 (-93.1) (λ _, 0.5)
              (distributionRequest
                 (mkCategoryDistributionData (Some 25) (Some 25) (Some 25) (Some 25)))
              _ _ eq_refl H) as (n & Hn & _ & _ & Hmax & _).
  exists n. split; [exact Hn|]. apply Hmax. by left.
Defined.
